(** * ProcessGuard: supervisor, crash policy engine and alert manager

  A shallow embedding of the Python sources under
  [processguard/backend/src] (models/process.py, models/system.py,
  core/crash_manager.py, core/alerting.py, core/process_manager.py,
  core/enhanced_process_manager.py, core/nodejs_monitor.py,
  core/log_manager.py) together with the properties of the specification
  that concern them and further properties of the code.

  Conventions of the embedding:
  - a [datetime] is an integer number of microseconds since
    1970-01-01T00:00:00 and a [timedelta] an integer number of microseconds
    (Python's resolution); both types are bounded in Python, and building a
    [timedelta] from a number of a policy or of a parameter, or adding it to
    a [datetime], raises [OverflowError] outside the bounds; the readings
    of the clock are those of a running system, to which the constant
    offsets of the code (5 and 10 minutes, 24 hours) can be applied;
  - a call that lets an exception escape returns [Raised e] together with
    the state it leaves behind;
  - every call of [datetime.now()] in the source is a separate reading that
    the caller of the embedded function supplies (records named [..Clock]
    or [..Env]); results of system calls ([subprocess.Popen], signals,
    [psutil], [Popen.poll]) are supplied the same way;
  - a Python [dict] is a [gmap]; a [defaultdict] read at a missing key
    yields its default; a [deque(maxlen=n)] is a list that keeps its [n]
    newest elements;
  - a Python [float] is a rational number, and its rendering inside a
    message is a function that the caller supplies;
  - logging has no effect on the state and is left out. *)

From stdpp Require Import gmap strings list fin_maps pretty.
From Stdlib Require Import ZArith QArith Lia.

Close Scope Q_scope.

(* ===================================================================== *)
(** * Part I: the embedding *)
(* ===================================================================== *)

(** ** Exceptions, and [time.sleep] *)
Module Python.
Local Open Scope Z_scope.

(** The exceptions that the embedded code lets escape. *)
Inductive Exception := ValueError | OverflowError.

(** A call returns a value or raises an exception. *)
Inductive Outcome (A : Type) := Returned (a : A) | Raised (e : Exception).
Arguments Returned {A} a.
Arguments Raised {A} e.

#[global] Instance Outcome_bind : MBind Outcome :=
  λ A B f m, match m with Returned a => f a | Raised e => Raised e end.

(** [time.sleep(secs)] for an [int]: the number of seconds is converted
    to a 64-bit number of nanoseconds ([OverflowError] when it does not
    fit) and must not be negative ([ValueError]); otherwise the call only
    lets time pass. *)
Definition sleep (secs : Z) : Outcome unit :=
  if bool_decide (secs < -9223372036 ∨ 9223372036 < secs) then Raised OverflowError
  else if bool_decide (secs < 0) then Raised ValueError
  else Returned tt.
End Python.

(** ** datetime / timedelta *)
Module Datetime.
Import Python.
Local Open Scope Z_scope.

Definition datetime := Z.
Definition timedelta := Z.

(** The duration of [m] minutes and of [h] hours, in microseconds. *)
Definition minutes (m : Z) : timedelta := (m * 60000000)%Z.
Definition hours (h : Z) : timedelta := (h * 3600000000)%Z.

(** [datetime.min] (0001-01-01T00:00:00) and [datetime.max]
    (9999-12-31T23:59:59.999999). *)
Definition datetime_min : datetime := -62135596800000000.
Definition datetime_max : datetime := 253402300799999999.

(** [timedelta.min] (-999999999 days) and [timedelta.max]
    (999999999 days, 23:59:59.999999). *)
Definition timedelta_min : timedelta := -86399999913600000000.
Definition timedelta_max : timedelta := 86399999999999999999.

(** The constructor of [timedelta] raises [OverflowError] for a duration
    outside the range of the type. *)
Definition new_timedelta (d : Z) : Outcome timedelta :=
  if bool_decide (timedelta_min ≤ d ≤ timedelta_max) then Returned d
  else Raised OverflowError.

(** [timedelta(minutes=m)] *)
Definition timedelta_minutes (m : Z) : Outcome timedelta := new_timedelta (minutes m).
(** [timedelta(hours=h)] *)
Definition timedelta_hours (h : Z) : Outcome timedelta := new_timedelta (hours h).

(** [t + d] and [t - d] for a [datetime] [t] and a [timedelta] [d]:
    [OverflowError] when the result is outside the range of [datetime]. *)
Definition datetime_add (t : datetime) (d : timedelta) : Outcome datetime :=
  if bool_decide (datetime_min ≤ t + d ≤ datetime_max) then Returned (t + d)
  else Raised OverflowError.
Definition datetime_sub (t : datetime) (d : timedelta) : Outcome datetime :=
  if bool_decide (datetime_min ≤ t - d ≤ datetime_max) then Returned (t - d)
  else Raised OverflowError.
End Datetime.

(** ** core/crash_manager.py *)
Module Crash.
Import Python Datetime.
Local Open Scope Z_scope.

Inductive CrashAction := RESTART | DISABLE | KILL_DEPENDENCIES | QUARANTINE.

Record CrashEvent := {
  timestamp : datetime;
  process_name : string;
  crash_reason : string;
  exit_code : option Z;
  restart_attempt : Z
}.

Record CrashPolicy := {
  max_crashes : Z;
  time_window_minutes : Z;
  action_on_threshold : CrashAction;
  kill_dependencies : bool;
  quarantine_duration_minutes : Z;
  escalation_enabled : bool
}.

(** [CrashPolicy()] *)
Definition default_policy : CrashPolicy := {|
  max_crashes := 5;
  time_window_minutes := 10;
  action_on_threshold := DISABLE;
  kill_dependencies := false;
  quarantine_duration_minutes := 60;
  escalation_enabled := true
|}.

Record CrashManager := {
  crash_history : gmap string (list CrashEvent);
  dependencies : gmap string (gset string);
  crash_policies : gmap string CrashPolicy;
  disabled_processes : gmap string datetime;
  quarantined_processes : gmap string datetime
}.

(** [CrashManager.__init__] *)
Definition init : CrashManager := {|
  crash_history := ∅;
  dependencies := ∅;
  crash_policies := ∅;
  disabled_processes := ∅;
  quarantined_processes := ∅
|}.

Definition with_crash_history (h : gmap string (list CrashEvent)) (cm : CrashManager) :=
  {| crash_history := h; dependencies := dependencies cm;
     crash_policies := crash_policies cm;
     disabled_processes := disabled_processes cm;
     quarantined_processes := quarantined_processes cm |}.

Definition with_dependencies (d : gmap string (gset string)) (cm : CrashManager) :=
  {| crash_history := crash_history cm; dependencies := d;
     crash_policies := crash_policies cm;
     disabled_processes := disabled_processes cm;
     quarantined_processes := quarantined_processes cm |}.

Definition with_crash_policies (p : gmap string CrashPolicy) (cm : CrashManager) :=
  {| crash_history := crash_history cm; dependencies := dependencies cm;
     crash_policies := p;
     disabled_processes := disabled_processes cm;
     quarantined_processes := quarantined_processes cm |}.

Definition with_disabled (d : gmap string datetime) (cm : CrashManager) :=
  {| crash_history := crash_history cm; dependencies := dependencies cm;
     crash_policies := crash_policies cm;
     disabled_processes := d;
     quarantined_processes := quarantined_processes cm |}.

Definition with_quarantined (q : gmap string datetime) (cm : CrashManager) :=
  {| crash_history := crash_history cm; dependencies := dependencies cm;
     crash_policies := crash_policies cm;
     disabled_processes := disabled_processes cm;
     quarantined_processes := q |}.

(** [deque(maxlen=n).append(x)]: the oldest element is discarded once
    the deque is full. *)
Definition deque_append {A} (maxlen : nat) (x : A) (d : list A) : list A :=
  let d' := d ++ [x] in drop (length d' - maxlen) d'.

(** [self.crash_history[name]] read through the [defaultdict]. *)
Definition ring (cm : CrashManager) (name : string) : list CrashEvent :=
  default [] (crash_history cm !! name).

(** [self.crash_policies.get(name, CrashPolicy())] *)
Definition policy_for (cm : CrashManager) (name : string) : CrashPolicy :=
  default default_policy (crash_policies cm !! name).

Definition set_crash_policy (name : string) (policy : CrashPolicy)
    (cm : CrashManager) : CrashManager :=
  with_crash_policies (<[name := policy]> (crash_policies cm)) cm.

Definition add_dependency (name depends_on : string) (cm : CrashManager) : CrashManager :=
  with_dependencies
    (<[depends_on := {[name]} ∪ default ∅ (dependencies cm !! depends_on)]> (dependencies cm))
    cm.

Definition remove_dependency (name depends_on : string) (cm : CrashManager) : CrashManager :=
  match dependencies cm !! depends_on with
  | Some ds => with_dependencies (<[depends_on := ds ∖ {[name]}]> (dependencies cm)) cm
  | None => cm
  end.

(** The readings of [datetime.now()] during one [record_crash]: when the
    event is built, when the policy is evaluated, when the process is
    disabled or quarantined, and one per dependent disabled by the
    cascade. *)
Record CrashClock := {
  at_event : datetime;
  at_eval : datetime;
  at_action : datetime;
  at_dependent : string → datetime
}.

(** [[crash for crash in d if crash.timestamp > cutoff_time]] *)
Definition recent_crashes (cutoff_time : datetime) (d : list CrashEvent) : list CrashEvent :=
  filter (λ crash, cutoff_time < timestamp crash) d.

(** [timedelta(minutes=policy.time_window_minutes)] and
    [datetime.now() - time_window] raise [OverflowError] for a window
    outside the range of the two types. *)
Definition _evaluate_crash_policy (name : string) (now : datetime)
    (cm : CrashManager) : Outcome CrashAction :=
  let policy := policy_for cm name in
  time_window ← timedelta_minutes (time_window_minutes policy);
  cutoff_time ← datetime_sub now time_window;
  let crash_count := Z.of_nat (length (recent_crashes cutoff_time (ring cm name))) in
  Returned (if bool_decide (max_crashes policy ≤ crash_count)
            then action_on_threshold policy
            else RESTART).

Definition _disable_process (name : string) (now : datetime) (cm : CrashManager) :=
  with_disabled (<[name := now]> (disabled_processes cm)) cm.

(** [datetime.now() + timedelta(minutes=policy.quarantine_duration_minutes)]
    raises [OverflowError] before anything is stored. *)
Definition _quarantine_process (name : string) (now : datetime) (cm : CrashManager)
    : Outcome unit * CrashManager :=
  let policy := policy_for cm name in
  match (duration ← timedelta_minutes (quarantine_duration_minutes policy);
         datetime_add now duration) with
  | Returned quarantine_until =>
      (Returned tt,
       with_quarantined (<[name := quarantine_until]> (quarantined_processes cm)) cm)
  | Raised e => (Raised e, cm)
  end.

(** The loop body of [_kill_dependent_processes], folded over the
    dependents. *)
Definition disable_all (now : string → datetime) (ds : list string)
    (disabled : gmap string datetime) : gmap string datetime :=
  foldl (λ acc dependent, <[dependent := now dependent]> acc) disabled ds.

Definition _kill_dependent_processes (failed : string) (now : string → datetime)
    (cm : CrashManager) : CrashManager :=
  let dependent_processes := default ∅ (dependencies cm !! failed) in
  with_disabled (disable_all now (elements dependent_processes) (disabled_processes cm)) cm.

Definition _execute_crash_action (name : string) (action : CrashAction)
    (clk : CrashClock) (cm : CrashManager) : Outcome unit * CrashManager :=
  match action with
  | RESTART => (Returned tt, cm)
  | DISABLE => (Returned tt, _disable_process name (at_action clk) cm)
  | KILL_DEPENDENCIES =>
      (Returned tt,
       _kill_dependent_processes name (at_dependent clk)
         (_disable_process name (at_action clk) cm))
  | QUARANTINE => _quarantine_process name (at_action clk) cm
  end.

(** The state after [self.crash_history[process_name].append(crash_event)]. *)
Definition append_crash (name : string) (ev : CrashEvent) (cm : CrashManager) :=
  with_crash_history (<[name := deque_append 100 ev (ring cm name)]> (crash_history cm)) cm.

(** The [CrashEvent] that [record_crash] builds. *)
Definition crash_event_of (name reason : string) (code : option Z)
    (clk : CrashClock) : CrashEvent :=
  {| timestamp := at_event clk; process_name := name; crash_reason := reason;
     exit_code := code; restart_attempt := 0 |}.

(** An exception of [_evaluate_crash_policy] or of
    [_execute_crash_action] escapes from [record_crash] after the event has
    been appended. *)
Definition record_crash (name reason : string) (code : option Z)
    (clk : CrashClock) (cm : CrashManager) : Outcome CrashAction * CrashManager :=
  let crash_event := crash_event_of name reason code clk in
  let cm1 := append_crash name crash_event cm in
  match _evaluate_crash_policy name (at_eval clk) cm1 with
  | Returned action =>
      match _execute_crash_action name action clk cm1 with
      | (Returned _, cm2) => (Returned action, cm2)
      | (Raised e, cm2) => (Raised e, cm2)
      end
  | Raised e => (Raised e, cm1)
  end.

(** The message of [can_restart_process], by its content. *)
Inductive Reason :=
| DisabledAt (disabled_at : datetime)
| QuarantinedFor (remaining : timedelta)
| CanBeRestarted.

(** [now] is the reading compared with the expiry, [now'] the one used
    for the remaining time in the message. *)
Definition can_restart_process (name : string) (now now' : datetime)
    (cm : CrashManager) : (bool * Reason) * CrashManager :=
  match disabled_processes cm !! name with
  | Some disabled_at => ((false, DisabledAt disabled_at), cm)
  | None =>
      match quarantined_processes cm !! name with
      | Some quarantine_until =>
          if bool_decide (now < quarantine_until)
          then ((false, QuarantinedFor (quarantine_until - now')), cm)
          else ((true, CanBeRestarted),
                with_quarantined (delete name (quarantined_processes cm)) cm)
      | None => ((true, CanBeRestarted), cm)
      end
  end.

Definition force_enable_process (name : string) (cm : CrashManager) : bool * CrashManager :=
  let removed1 := bool_decide (is_Some (disabled_processes cm !! name)) in
  let cm1 := if removed1 then with_disabled (delete name (disabled_processes cm)) cm else cm in
  let removed2 := bool_decide (is_Some (quarantined_processes cm1 !! name)) in
  let cm2 := if removed2
             then with_quarantined (delete name (quarantined_processes cm1)) cm1 else cm1 in
  let removed := removed1 || removed2 in
  (removed,
   if removed then with_crash_history (<[name := []]> (crash_history cm2)) cm2 else cm2).

Definition cleanup_expired_quarantines (now : datetime) (cm : CrashManager) : CrashManager :=
  with_quarantined
    (filter (λ kv, ¬ (kv.2 ≤ now)) (quarantined_processes cm)) cm.

Definition reset_crash_history (name : string) (cm : CrashManager) : CrashManager :=
  match crash_history cm !! name with
  | Some _ => with_crash_history (<[name := []]> (crash_history cm)) cm
  | None => cm
  end.

(** The calls the engine accepts, with their clock readings. *)
Inductive Call :=
| RecordCrash (name reason : string) (code : option Z) (clk : CrashClock)
| SetCrashPolicy (name : string) (policy : CrashPolicy)
| AddDependency (name depends_on : string)
| RemoveDependency (name depends_on : string)
| CanRestart (name : string) (now now' : datetime)
| ForceEnable (name : string)
| CleanupExpired (now : datetime)
| ResetHistory (name : string).

Definition step (cm : CrashManager) (c : Call) : CrashManager :=
  match c with
  | RecordCrash name reason code clk => (record_crash name reason code clk cm).2
  | SetCrashPolicy name policy => set_crash_policy name policy cm
  | AddDependency name depends_on => add_dependency name depends_on cm
  | RemoveDependency name depends_on => remove_dependency name depends_on cm
  | CanRestart name now now' => (can_restart_process name now now' cm).2
  | ForceEnable name => (force_enable_process name cm).2
  | CleanupExpired now => cleanup_expired_quarantines now cm
  | ResetHistory name => reset_crash_history name cm
  end.

Definition run (calls : list Call) (cm : CrashManager) : CrashManager :=
  foldl step cm calls.

(** The policy's window can be built and subtracted from the reading
    [now] within the ranges of [timedelta] and [datetime]. *)
Definition window_in_range (policy : CrashPolicy) (now : datetime) : Prop :=
  timedelta_min ≤ time_window_minutes policy * 60000000 ≤ timedelta_max
  ∧ datetime_min ≤ now - time_window_minutes policy * 60000000 ≤ datetime_max.

(** The policy's quarantine can be built and added to the reading [now]
    within the ranges of [timedelta] and [datetime]. *)
Definition quarantine_in_range (policy : CrashPolicy) (now : datetime) : Prop :=
  timedelta_min ≤ quarantine_duration_minutes policy * 60000000 ≤ timedelta_max
  ∧ datetime_min ≤ now + quarantine_duration_minutes policy * 60000000 ≤ datetime_max.

(** [record_crash] can evaluate the policy and carry out its action
    within the ranges of [timedelta] and [datetime]. *)
Definition policy_in_range (policy : CrashPolicy) (clk : CrashClock) : Prop :=
  window_in_range policy (at_eval clk)
  ∧ (action_on_threshold policy = QUARANTINE
     → quarantine_in_range policy (at_action clk)).

Definition is_disabled (cm : CrashManager) (name : string) : Prop :=
  is_Some (disabled_processes cm !! name).
Definition is_quarantined (cm : CrashManager) (name : string) : Prop :=
  is_Some (quarantined_processes cm !! name).

(** No name is in the disabled and in the quarantined set at once. *)
Definition disjoint_sets (cm : CrashManager) : Prop :=
  ∀ name, ¬ (is_disabled cm name ∧ is_quarantined cm name).
End Crash.

(** ** models/process.py *)
Module Models.
Import Datetime.

Inductive ProcessStatus := STOPPED | STARTING | RUNNING | STOPPING | FAILED | UNKNOWN.
Inductive ProcessType := NODEJS | PYTHON | JAVA | GO | RUST | GENERIC.

#[global] Instance ProcessStatus_eq_dec : EqDecision ProcessStatus.
Proof. solve_decision. Defined.
#[global] Instance ProcessType_eq_dec : EqDecision ProcessType.
Proof. solve_decision. Defined.

Record ProcessConfig := {
  name : string;
  command : string;
  working_dir : string;
  process_type : ProcessType;
  env_vars : gmap string string;
  auto_restart : bool;
  max_restarts : Z;
  restart_delay : Z;
  log_file : option string;
  redirect_output : bool;
  cpu_limit : option Q;
  memory_limit : option Z;
  alert_on_failure : bool;
  alert_on_high_cpu : bool;
  alert_on_high_memory : bool;
  cpu_threshold : Q;
  memory_threshold : Q
}.

(** One entry of [ProcessMetrics.connections]. *)
Record Connection := {
  local_address : string;
  remote_address : string;
  conn_status : string;
  conn_type : string
}.

(** [ProcessMetrics]; the fields carry the prefix [m_] because
    [ManagedProcess] has fields of the same names. *)
Record ProcessMetrics := {
  m_timestamp : datetime;
  m_pid : option Z;
  m_cpu_percent : Q;
  m_memory_percent : Q;
  m_memory_mb : Q;
  m_open_files : Z;
  m_connections : list Connection;
  m_threads : Z;
  m_status : ProcessStatus;
  m_uptime : Q
}.

Record ManagedProcess := {
  config : ProcessConfig;
  status : ProcessStatus;
  pid : option Z;
  started_at : option datetime;
  restart_count : Z;
  last_restart : option datetime;
  metrics_history : list ProcessMetrics
}.

(** [ManagedProcess(config=config)] *)
Definition new_process (cfg : ProcessConfig) : ManagedProcess := {|
  config := cfg; status := STOPPED; pid := None; started_at := None;
  restart_count := 0; last_restart := None; metrics_history := []
|}.

Definition set_status (st : ProcessStatus) (p : ManagedProcess) : ManagedProcess :=
  {| config := config p; status := st; pid := pid p; started_at := started_at p;
     restart_count := restart_count p; last_restart := last_restart p;
     metrics_history := metrics_history p |}.

Definition set_pid (v : option Z) (p : ManagedProcess) : ManagedProcess :=
  {| config := config p; status := status p; pid := v; started_at := started_at p;
     restart_count := restart_count p; last_restart := last_restart p;
     metrics_history := metrics_history p |}.

Definition set_started_at (v : option datetime) (p : ManagedProcess) : ManagedProcess :=
  {| config := config p; status := status p; pid := pid p; started_at := v;
     restart_count := restart_count p; last_restart := last_restart p;
     metrics_history := metrics_history p |}.

Definition set_restart_count (v : Z) (p : ManagedProcess) : ManagedProcess :=
  {| config := config p; status := status p; pid := pid p; started_at := started_at p;
     restart_count := v; last_restart := last_restart p;
     metrics_history := metrics_history p |}.

Definition set_last_restart (v : option datetime) (p : ManagedProcess) : ManagedProcess :=
  {| config := config p; status := status p; pid := pid p; started_at := started_at p;
     restart_count := restart_count p; last_restart := v;
     metrics_history := metrics_history p |}.

Definition set_metrics_history (v : list ProcessMetrics) (p : ManagedProcess) : ManagedProcess :=
  {| config := config p; status := status p; pid := pid p; started_at := started_at p;
     restart_count := restart_count p; last_restart := last_restart p;
     metrics_history := v |}.

End Models.

(** ** core/process_manager.py *)
Module Supervisor.
Import Python Datetime Models.
Local Open Scope Z_scope.

(** [processes] is the registry and [order] its keys in the order of
    their insertion, in which a Python [dict] is enumerated;
    [_subprocess_handles] maps a name to its [Popen] handle, of which the
    embedding keeps the pid. *)
Record ProcessManager := {
  processes : gmap string ManagedProcess;
  order : list string;
  _subprocess_handles : gmap string Z
}.

(** [ProcessManager.__init__] *)
Definition init : ProcessManager :=
  {| processes := ∅; order := []; _subprocess_handles := ∅ |}.

Definition with_processes (ps : gmap string ManagedProcess) (pm : ProcessManager) :=
  {| processes := ps; order := order pm; _subprocess_handles := _subprocess_handles pm |}.
Definition with_order (l : list string) (pm : ProcessManager) :=
  {| processes := processes pm; order := l; _subprocess_handles := _subprocess_handles pm |}.
Definition with_handles (hs : gmap string Z) (pm : ProcessManager) :=
  {| processes := processes pm; order := order pm; _subprocess_handles := hs |}.

(** In-place mutation of the record registered under [name]. *)
Definition mutate (name : string) (f : ManagedProcess → ManagedProcess)
    (pm : ProcessManager) : ProcessManager :=
  with_processes (alter f name (processes pm)) pm.

(** What the operating system answers during [start_process]:
    [spawn = Some pid] when [subprocess.Popen] returns a child with that
    pid, [None] when the [try] block raises (working directory, log file or
    spawn); [started_now] is the reading stored in [started_at]. *)
Record StartEnv := { spawn : option Z; started_now : datetime }.

(** [signalled = false] when delivering the signal raises
    ([os.getpgid], [os.killpg], [Popen.kill] or [Popen.terminate]). *)
Record StopEnv := { signalled : bool }.

Record RestartEnv := {
  restart_stop : StopEnv;
  restart_start : StartEnv;
  restarted_now : datetime
}.

(** What [psutil] reports for a live process. *)
Record OsSample := {
  os_cpu_percent : Q;
  os_memory_percent : Q;
  os_memory_mb : Q;
  os_open_files : Z;
  os_connections : list Connection;
  os_threads : Z
}.

(** [probe = None] when [psutil] raises [NoSuchProcess] or
    [AccessDenied]; [uptime_now] and [sample_now] are the readings used
    for the uptime and for the sample's timestamp. *)
Record MetricsEnv := {
  probe : option OsSample;
  uptime_now : datetime;
  sample_now : datetime
}.

(** [poll = Some rc] when [Popen.poll()] reports that the child exited. *)
Record HealthEnv := { poll : option Z }.

Definition add_process (cfg : ProcessConfig) (pm : ProcessManager) : bool * ProcessManager :=
  match processes pm !! name cfg with
  | Some _ => (false, pm)
  | None =>
      (true,
       with_order (order pm ++ [name cfg])
         (with_processes (<[name cfg := new_process cfg]> (processes pm)) pm))
  end.

Definition start_process (n : string) (env : StartEnv) (pm : ProcessManager)
    : bool * ProcessManager :=
  match processes pm !! n with
  | None => (false, pm)
  | Some process =>
      if bool_decide (status process = RUNNING) then (true, pm)
      else
        let pm1 := mutate n (set_status STARTING) pm in
        match spawn env with
        | Some child =>
            let pm2 := with_handles (<[n := child]> (_subprocess_handles pm1)) pm1 in
            (true,
             mutate n (λ p, set_status RUNNING
                              (set_started_at (Some (started_now env))
                                 (set_pid (Some child) p))) pm2)
        | None => (false, mutate n (set_status FAILED) pm1)
        end
  end.

Definition stop_process (n : string) (force : bool) (env : StopEnv) (pm : ProcessManager)
    : bool * ProcessManager :=
  match processes pm !! n with
  | None => (false, pm)
  | Some process =>
      if bool_decide (status process ≠ RUNNING) then (true, pm)
      else
        let pm1 := mutate n (set_status STOPPING) pm in
        let stopped pm' := mutate n (λ p, set_pid None (set_status STOPPED p)) pm' in
        match _subprocess_handles pm1 !! n with
        | Some popen =>
            if signalled env
            then (true, stopped (with_handles (delete n (_subprocess_handles pm1)) pm1))
            else (false, pm1)
        | None => (true, stopped pm1)
        end
  end.

(** An exception of [time.sleep(process.config.restart_delay)] escapes
    from [restart_process], after the stop and before the start. *)
Definition restart_process (n : string) (env : RestartEnv) (pm : ProcessManager)
    : Outcome bool * ProcessManager :=
  match processes pm !! n with
  | None => (Returned false, pm)
  | Some process =>
      let '(stopped, pm1) :=
        if bool_decide (status process = RUNNING)
        then stop_process n false (restart_stop env) pm
        else (true, pm) in
      if negb stopped then (Returned false, pm1)
      else
        match sleep (restart_delay (config process)) with
        | Raised e => (Raised e, pm1)
        | Returned _ =>
            let '(started, pm2) := start_process n (restart_start env) pm1 in
            if started
            then (Returned true,
                  mutate n (λ p, set_last_restart (Some (restarted_now env))
                                   (set_restart_count (restart_count p + 1) p)) pm2)
            else (Returned false, pm2)
        end
  end.

(** [not process.pid]: no pid, or the pid 0. *)
Definition no_pid (p : option Z) : bool :=
  match p with
  | None => true
  | Some v => bool_decide (v = 0)
  end.

Definition idle_sample (now : datetime) (st : ProcessStatus) : ProcessMetrics := {|
  m_timestamp := now; m_pid := None; m_cpu_percent := 0%Q; m_memory_percent := 0%Q;
  m_memory_mb := 0%Q; m_open_files := 0; m_connections := []; m_threads := 0;
  m_status := st; m_uptime := 0%Q
|}.

(** [(datetime.now() - process.started_at).total_seconds() if
    process.started_at else 0.0] *)
Definition uptime_of (now : datetime) (started : option datetime) : Q :=
  match started with
  | Some t => Qmake (now - t) 1000000
  | None => 0%Q
  end.

(** [history.append(metrics)] followed by the compaction
    [if len(history) > 1000: history = history[-500:]]. *)
Definition append_metrics (metrics : ProcessMetrics) (history : list ProcessMetrics)
    : list ProcessMetrics :=
  let history' := history ++ [metrics] in
  if bool_decide (1000 < length history')%nat
  then drop (length history' - 500) history'
  else history'.

Definition get_process_metrics (n : string) (env : MetricsEnv) (pm : ProcessManager)
    : option ProcessMetrics * ProcessManager :=
  match processes pm !! n with
  | None => (None, pm)
  | Some process =>
      if no_pid (pid process)
      then (Some (idle_sample (sample_now env) (status process)), pm)
      else
        match probe env with
        | Some os =>
            let metrics := {|
              m_timestamp := sample_now env;
              m_pid := pid process;
              m_cpu_percent := os_cpu_percent os;
              m_memory_percent := os_memory_percent os;
              m_memory_mb := os_memory_mb os;
              m_open_files := os_open_files os;
              m_connections := os_connections os;
              m_threads := os_threads os;
              m_status := status process;
              m_uptime := uptime_of (uptime_now env) (started_at process)
            |} in
            (Some metrics,
             mutate n (λ p, set_metrics_history
                              (append_metrics metrics (metrics_history p)) p) pm)
        | None =>
            (Some (idle_sample (sample_now env) FAILED),
             mutate n (λ p, set_pid None (set_status FAILED p)) pm)
        end
  end.

Definition check_process_health (n : string) (env : HealthEnv) (pm : ProcessManager)
    : bool * ProcessManager :=
  match processes pm !! n with
  | None => (false, pm)
  | Some process =>
      match _subprocess_handles pm !! n, poll env with
      | Some popen, Some returncode =>
          (false,
           with_handles (delete n (_subprocess_handles pm))
             (mutate n (λ p, set_pid None (set_status FAILED p)) pm))
      | _, _ => (bool_decide (status process = RUNNING), pm)
      end
  end.

(** The names of the registry, as [self.processes.items()] and
    [self.processes.keys()] enumerate them. *)
Definition registered (pm : ProcessManager) : list string := order pm.

(** The body of the loop of [auto_restart_failed_processes]. *)
Definition auto_restart_one (env : string → RestartEnv) (pm : ProcessManager)
    (n : string) : Outcome unit * ProcessManager :=
  match processes pm !! n with
  | Some process =>
      if bool_decide (status process = FAILED) && auto_restart (config process)
         && bool_decide (restart_count process < max_restarts (config process))
      then match restart_process n (env n) pm with
           | (Returned _, pm') => (Returned tt, pm')
           | (Raised e, pm') => (Raised e, pm')
           end
      else (Returned tt, pm)
  | None => (Returned tt, pm)
  end.

(** The loop over the registered names: an exception that escapes from
    [restart_process] ends it. *)
Fixpoint sweep (env : string → RestartEnv) (names : list string)
    (pm : ProcessManager) : Outcome unit * ProcessManager :=
  match names with
  | [] => (Returned tt, pm)
  | n :: rest =>
      match auto_restart_one env pm n with
      | (Returned _, pm') => sweep env rest pm'
      | (Raised e, pm') => (Raised e, pm')
      end
  end.

Definition auto_restart_failed_processes (env : string → RestartEnv)
    (pm : ProcessManager) : Outcome unit * ProcessManager :=
  sweep env (registered pm) pm.

Definition cleanup_one (env : string → StopEnv) (pm : ProcessManager)
    (n : string) : ProcessManager :=
  match processes pm !! n with
  | Some process =>
      if bool_decide (status process = RUNNING)
      then (stop_process n true (env n) pm).2
      else pm
  | None => pm
  end.

Definition cleanup (env : string → StopEnv) (pm : ProcessManager) : ProcessManager :=
  foldl (cleanup_one env) pm (registered pm).

Definition remove_process (n : string) (env : StopEnv) (pm : ProcessManager)
    : bool * ProcessManager :=
  match processes pm !! n with
  | None => (false, pm)
  | Some process =>
      let pm1 := if bool_decide (status process = RUNNING)
                 then (stop_process n false env pm).2 else pm in
      (true,
       with_handles (delete n (_subprocess_handles pm1))
         (with_order (filter (λ n', n' ≠ n) (order pm1))
            (with_processes (delete n (processes pm1)) pm1)))
  end.

(** The operations of the registry and of the supervisor, each with
    what the environment answers during it. *)
Inductive Op :=
| AddProcess (cfg : ProcessConfig)
| RemoveProcess (n : string) (env : StopEnv)
| StartProcess (n : string) (env : StartEnv)
| StopProcess (n : string) (force : bool) (env : StopEnv)
| RestartProcess (n : string) (env : RestartEnv)
| GetProcessMetrics (n : string) (env : MetricsEnv)
| CheckProcessHealth (n : string) (env : HealthEnv)
| AutoRestart (env : string → RestartEnv)
| Cleanup (env : string → StopEnv).

Definition step (pm : ProcessManager) (op : Op) : ProcessManager :=
  match op with
  | AddProcess cfg => (add_process cfg pm).2
  | RemoveProcess n env => (remove_process n env pm).2
  | StartProcess n env => (start_process n env pm).2
  | StopProcess n force env => (stop_process n force env pm).2
  | RestartProcess n env => (restart_process n env pm).2
  | GetProcessMetrics n env => (get_process_metrics n env pm).2
  | CheckProcessHealth n env => (check_process_health n env pm).2
  | AutoRestart env => (auto_restart_failed_processes env pm).2
  | Cleanup env => cleanup env pm
  end.

Definition run (ops : list Op) (pm : ProcessManager) : ProcessManager :=
  foldl step pm ops.

(** [P] holds of every registered process. *)
Definition every (P : ManagedProcess → Prop) (pm : ProcessManager) : Prop :=
  ∀ n p, processes pm !! n = Some p → P p.



(** [pid] is present exactly in the states [RUNNING] and [STOPPING]. *)
Definition pid_matches_status (p : ManagedProcess) : Prop :=
  is_Some (pid p) ↔ (status p = RUNNING ∨ status p = STOPPING).

(** [pid] is present exactly in the state [RUNNING], and no stop is
    pending. *)
Definition settled (p : ManagedProcess) : Prop :=
  (is_Some (pid p) ↔ status p = RUNNING) ∧ status p ≠ STOPPING.

(** Every signal that the operation sends is delivered. *)
Definition signals_delivered (op : Op) : Prop :=
  match op with
  | RemoveProcess _ env | StopProcess _ _ env => signalled env = true
  | RestartProcess _ env => signalled (restart_stop env) = true
  | Cleanup env => ∀ n, signalled (env n) = true
  | _ => True
  end.
End Supervisor.

(** ** core/alerting.py *)
Module Alerting.
Import Python Datetime.
Local Open Scope Z_scope.

Inductive AlertLevel := INFO | WARNING | CRITICAL.

Inductive AlertType :=
| PROCESS_FAILED | PROCESS_RESTARTED | HIGH_CPU | HIGH_MEMORY
| SYSTEM_HIGH_CPU | SYSTEM_HIGH_MEMORY | DISK_FULL | PROCESS_UNRESPONSIVE.

#[global] Instance AlertType_eq_dec : EqDecision AlertType.
Proof. solve_decision. Defined.

(** [alert_type.value] *)
Definition value (t : AlertType) : string :=
  match t with
  | PROCESS_FAILED => "process_failed"
  | PROCESS_RESTARTED => "process_restarted"
  | HIGH_CPU => "high_cpu"
  | HIGH_MEMORY => "high_memory"
  | SYSTEM_HIGH_CPU => "system_high_cpu"
  | SYSTEM_HIGH_MEMORY => "system_high_memory"
  | DISK_FULL => "disk_full"
  | PROCESS_UNRESPONSIVE => "process_unresponsive"
  end.

(** An alert id is the string [f"{alert_type.value}_{now.timestamp()}"]. *)
Definition AlertId : Type := string.

(** A value of the free-form metadata dictionary. *)
Inductive MetaValue := MetaNone | MetaInt (z : Z) | MetaFloat (q : Q) | MetaStr (s : string).

Record Alert := {
  id : AlertId;
  alert_type : AlertType;
  level : AlertLevel;
  title : string;
  message : string;
  process_name : option string;
  timestamp : datetime;
  acknowledged : bool;
  resolved : bool;
  metadata : gmap string MetaValue
}.

Definition set_acknowledged (b : bool) (a : Alert) : Alert :=
  {| id := id a; alert_type := alert_type a; level := level a; title := title a;
     message := message a; process_name := process_name a; timestamp := timestamp a;
     acknowledged := b; resolved := resolved a; metadata := metadata a |}.

Definition set_resolved (b : bool) (a : Alert) : Alert :=
  {| id := id a; alert_type := alert_type a; level := level a; title := title a;
     message := message a; process_name := process_name a; timestamp := timestamp a;
     acknowledged := acknowledged a; resolved := b; metadata := metadata a |}.

(** The alert manager.  [Alert] objects are shared between the active
    list and the history: [objects] holds every [Alert] ever constructed, in
    order of construction, and the two lists hold references (positions in
    [objects]).  No handler is registered anywhere in the repository and
    sending notifications does not touch the manager, so
    [alert_handlers] and [notification_config] are left out. *)
Record AlertManager := {
  objects : list Alert;
  alerts : list nat;
  alert_history : list nat;
  _alert_cooldowns : gmap string datetime
}.

(** [self._cooldown_duration] *)
Definition _cooldown_duration : timedelta := minutes 5.

(** [AlertManager.__init__] *)
Definition init : AlertManager :=
  {| objects := []; alerts := []; alert_history := []; _alert_cooldowns := ∅ |}.

(** [process_name or 'system']: [None] and the empty string both give
    ["system"]. *)
Definition name_or_system (process_name : option string) : string :=
  match process_name with
  | Some n => if bool_decide (n = "") then "system" else n
  | None => "system"
  end.

(** [f"{alert_type.value}:{process_name or 'system'}"] *)
Definition alert_key (t : AlertType) (process_name : option string) : string :=
  value t +:+ ":" +:+ name_or_system process_name.

Definition key_of (a : Alert) : string := alert_key (alert_type a) (process_name a).

(** The four readings of the clock in [create_alert]: the cooldown
    test, the id, the [timestamp] field's default and the new cooldown.
    The reading for the id is used only through the text of its
    [timestamp()], a float of seconds as the f-string renders it, and
    [at_id] is that text: two readings that are microseconds apart can give
    the same text. *)
Record AlertClock := {
  at_check : datetime;
  at_id : string;
  at_stamp : datetime;
  at_cooldown : datetime
}.

(** [f"{alert_type.value}_{datetime.now().timestamp()}"] *)
Definition alert_id_of (t : AlertType) (clk : AlertClock) : AlertId :=
  value t +:+ "_" +:+ at_id clk.

(** [alert_key in self._alert_cooldowns and now < self._alert_cooldowns[alert_key]] *)
Definition in_cooldown (key : string) (now : datetime) (am : AlertManager) : bool :=
  match _alert_cooldowns am !! key with
  | Some until => bool_decide (now < until)
  | None => false
  end.

(** [if len(history) > 1000: history = history[-500:]] *)
Definition compact (history : list nat) : list nat :=
  if bool_decide (1000 < length history)%nat
  then drop (length history - 500) history
  else history.

(** Returns the reference of the new alert, or [None]. *)
Definition create_alert (t : AlertType) (lvl : AlertLevel) (ttl msg : string)
    (pname : option string) (meta : option (gmap string MetaValue))
    (clk : AlertClock) (am : AlertManager) : option nat * AlertManager :=
  let key := alert_key t pname in
  if in_cooldown key (at_check clk) am then (None, am)
  else
    let alert_id := alert_id_of t clk in
    let alert := {| id := alert_id; alert_type := t; level := lvl; title := ttl;
                    message := msg; process_name := pname;
                    timestamp := at_stamp clk; acknowledged := false;
                    resolved := false; metadata := default ∅ meta |} in
    let ref := length (objects am) in
    (Some ref,
     {| objects := objects am ++ [alert];
        alerts := alerts am ++ [ref];
        alert_history := compact (alert_history am ++ [ref]);
        _alert_cooldowns :=
          <[key := at_cooldown clk + _cooldown_duration]> (_alert_cooldowns am) |}).

(** [alert.id == alert_id] for the alert behind a reference. *)
Definition has_id (objs : list Alert) (alert_id : AlertId) (ref : nat) : Prop :=
  id <$> objs !! ref = Some alert_id.

#[global] Instance has_id_dec objs alert_id ref : Decision (has_id objs alert_id ref).
Proof. unfold has_id. apply _. Defined.

(** The first position and reference in the active list with that id,
    as the two [for] loops find it. *)
Definition find_active (alert_id : AlertId) (am : AlertManager) : option (nat * nat) :=
  list_find (has_id (objects am) alert_id) (alerts am).

Definition acknowledge_alert (alert_id : AlertId) (am : AlertManager) : bool * AlertManager :=
  match find_active alert_id am with
  | Some (_, ref) =>
      (true,
       {| objects := alter (set_acknowledged true) ref (objects am);
          alerts := alerts am; alert_history := alert_history am;
          _alert_cooldowns := _alert_cooldowns am |})
  | None => (false, am)
  end.

Definition resolve_alert (alert_id : AlertId) (am : AlertManager) : bool * AlertManager :=
  match find_active alert_id am with
  | Some (i, ref) =>
      (true,
       {| objects := alter (set_resolved true) ref (objects am);
          alerts := delete i (alerts am); alert_history := alert_history am;
          _alert_cooldowns := _alert_cooldowns am |})
  | None => (false, am)
  end.

(** Dereferencing a list of references. *)
Definition deref (objs : list Alert) (refs : list nat) : list Alert :=
  omap (λ ref, objs !! ref) refs.

(** [[alert for alert in self.alerts if not alert.resolved]] *)
Definition get_active_alerts (am : AlertManager) : list Alert :=
  filter (λ a, resolved a = false) (deref (objects am) (alerts am)).

(** [[alert for alert in self.alert_history if alert.timestamp >= cutoff]] *)
Definition get_alert_history (hrs : Z) (now : datetime) (am : AlertManager)
    : Outcome (list Alert) :=
  span ← timedelta_hours hrs;
  cutoff ← datetime_sub now span;
  Returned (filter (λ a, cutoff ≤ timestamp a) (deref (objects am) (alert_history am))).

Inductive Call :=
| CreateAlert (t : AlertType) (lvl : AlertLevel) (ttl msg : string)
    (pname : option string) (meta : option (gmap string MetaValue)) (clk : AlertClock)
| Acknowledge (alert_id : AlertId)
| Resolve (alert_id : AlertId).

Definition step (am : AlertManager) (c : Call) : AlertManager :=
  match c with
  | CreateAlert t lvl ttl msg pname meta clk =>
      (create_alert t lvl ttl msg pname meta clk am).2
  | Acknowledge alert_id => (acknowledge_alert alert_id am).2
  | Resolve alert_id => (resolve_alert alert_id am).2
  end.

Definition run (calls : list Call) (am : AlertManager) : AlertManager :=
  foldl step am calls.

(** The clock does not go back during a call, from the cooldown test
    to the timestamp of the alert and on to the new cooldown. *)
Definition monotone (clk : AlertClock) : Prop :=
  at_check clk ≤ at_stamp clk ∧ at_stamp clk ≤ at_cooldown clk.

Definition monotone_call (c : Call) : Prop :=
  match c with
  | CreateAlert _ _ _ _ _ _ clk => monotone clk
  | _ => True
  end.

(** [c] asks for an alert with the key [key]. *)
Definition creates_key (key : string) (c : Call) : Prop :=
  match c with
  | CreateAlert t _ _ _ pname _ _ => alert_key t pname = key
  | _ => False
  end.

(** [c] asks for an alert that would get the id [alert_id]. *)
Definition creates_id (alert_id : AlertId) (c : Call) : Prop :=
  match c with
  | CreateAlert t _ _ _ _ _ clk => alert_id_of t clk = alert_id
  | _ => False
  end.

(** A mutation of an alert that keeps its id, key and timestamp:
    [acknowledged] and [resolved] are the only fields that change once an
    alert is built. *)
Definition keeps_identity (f : Alert → Alert) : Prop :=
  ∀ a, id (f a) = id a ∧ key_of (f a) = key_of a ∧ timestamp (f a) = timestamp a.

(** Two accepted alerts with the same key are at least a cooldown
    apart. *)
Definition spaced (am : AlertManager) : Prop :=
  ∀ (i j : nat) a a', (i < j)%nat →
    objects am !! i = Some a → objects am !! j = Some a' →
    key_of a = key_of a' →
    timestamp a + _cooldown_duration ≤ timestamp a'.

(** The cooldown of a key ends no earlier than a cooldown after each
    accepted alert with that key. *)
Definition cooldown_covers (am : AlertManager) : Prop :=
  ∀ (r : nat) a, objects am !! r = Some a →
    ∃ expiry, _alert_cooldowns am !! key_of a = Some expiry
              ∧ timestamp a + _cooldown_duration ≤ expiry.

(** Some alert of the active list has the id [alert_id]. *)
Definition is_active (alert_id : AlertId) (am : AlertManager) : Prop :=
  ∃ ref, ref ∈ alerts am ∧ has_id (objects am) alert_id ref.

(** No two positions of the active list hold alerts with the same
    id. *)
Definition unique_active_ids (am : AlertManager) : Prop :=
  ∀ (i j : nat) ref ref' alert_id,
    alerts am !! i = Some ref → alerts am !! j = Some ref' →
    has_id (objects am) alert_id ref → has_id (objects am) alert_id ref' →
    i = j.

(** Every reference of the active list points to an alert. *)
Definition refs_in_range (am : AlertManager) : Prop :=
  ∀ ref, ref ∈ alerts am → (ref < length (objects am))%nat.

(** No two alerts built so far have the same id. *)
Definition unique_ids (am : AlertManager) : Prop :=
  ∀ (i j : nat) a a',
    objects am !! i = Some a → objects am !! j = Some a' → id a = id a' → i = j.

(** Every alert built so far has its id in [seen]. *)
Definition ids_among (seen : list AlertId) (am : AlertManager) : Prop :=
  ∀ (ref : nat) a, objects am !! ref = Some a → id a ∈ seen.

(** No [create_alert] of the list asks for an id of [seen] or for the id
    of an earlier [create_alert] of the list. *)
Fixpoint fresh_ids (seen : list AlertId) (calls : list Call) : Prop :=
  match calls with
  | [] => True
  | CreateAlert t _ _ _ _ _ clk :: rest =>
      (alert_id_of t clk ∉ seen) ∧ fresh_ids (alert_id_of t clk :: seen) rest
  | _ :: rest => fresh_ids seen rest
  end.

(** The number of active alerts with the id [alert_id]. *)
Definition active_with (alert_id : AlertId) (am : AlertManager) : nat :=
  length (filter (has_id (objects am) alert_id) (alerts am)).
End Alerting.

(** ** core/enhanced_process_manager.py (with
     [NodeJSMonitor.get_restart_strategy] of core/nodejs_monitor.py) *)
Module Enhanced.
Import Python Datetime Models.
Local Open Scope Z_scope.

(** An entry of [EnhancedProcessManager.crash_history]: a crash found in
    the logs, with its ['type'] and ['recorded_at'] keys. *)
Record LogCrash := { crash_type : option string; recorded_at : datetime }.

Inductive StrategyAction :=
| normal_restart | delayed_restart | no_restart | restart_with_memory_limit.

Record Strategy := { action : StrategyAction; delay : option Z }.

Definition get_restart_strategy (crash_info : list LogCrash) : Strategy :=
  match last crash_info with
  | None => {| action := normal_restart; delay := Some 5 |}
  | Some latest_crash =>
      let typed t := bool_decide (crash_type latest_crash = Some t) in
      if typed "port_in_use" then {| action := delayed_restart; delay := Some 10 |}
      else if typed "missing_module" then {| action := no_restart; delay := None |}
      else if typed "heap_overflow"
           then {| action := restart_with_memory_limit; delay := Some 15 |}
      else if typed "syntax_error" then {| action := no_restart; delay := None |}
      else {| action := normal_restart; delay := Some 5 |}
  end.

(** [EnhancedProcessManager] extends [ProcessManager] ([base]) with a
    crash manager and the crashes found in the logs. *)
Record EnhancedProcessManager := {
  base : Supervisor.ProcessManager;
  crash_manager : Crash.CrashManager;
  crash_history : gmap string (list LogCrash)
}.

(** [EnhancedProcessManager.__init__] *)
Definition init : EnhancedProcessManager :=
  {| base := Supervisor.init; crash_manager := Crash.init; crash_history := ∅ |}.

Definition with_base (pm : Supervisor.ProcessManager) (m : EnhancedProcessManager) :=
  {| base := pm; crash_manager := crash_manager m; crash_history := crash_history m |}.
Definition with_crash_manager (cm : Crash.CrashManager) (m : EnhancedProcessManager) :=
  {| base := base m; crash_manager := cm; crash_history := crash_history m |}.

(** The methods inherited from [ProcessManager] act on [base]. *)
Definition inherited {A} (f : Supervisor.ProcessManager → A * Supervisor.ProcessManager)
    (m : EnhancedProcessManager) : A * EnhancedProcessManager :=
  let '(r, pm) := f (base m) in (r, with_base pm m).

Definition add_process (cfg : ProcessConfig) := inherited (Supervisor.add_process cfg).
Definition start_process (n : string) (env : Supervisor.StartEnv) :=
  inherited (Supervisor.start_process n env).
Definition stop_process (n : string) (force : bool) (env : Supervisor.StopEnv) :=
  inherited (Supervisor.stop_process n force env).
Definition restart_process (n : string) (env : Supervisor.RestartEnv) :=
  inherited (Supervisor.restart_process n env).
Definition check_process_health (n : string) (env : Supervisor.HealthEnv) :=
  inherited (Supervisor.check_process_health n env).
Definition get_process_metrics (n : string) (env : Supervisor.MetricsEnv) :=
  inherited (Supervisor.get_process_metrics n env).
Definition auto_restart_failed_processes (env : string → Supervisor.RestartEnv) :=
  inherited (Supervisor.auto_restart_failed_processes env).

(** The readings and answers during [intelligent_restart]: two readings
    in the gate, those of [record_crash], one per element of the
    comprehension over the logged crashes, and the environment of the
    final [restart_process]. *)
Record IntelligentEnv := {
  gate_now : datetime;
  gate_now' : datetime;
  crash_clock : Crash.CrashClock;
  recent_now : nat → datetime;
  restart_env : Supervisor.RestartEnv
}.

(** [[crash for crash in crashes
      if fromisoformat(crash['recorded_at']) > datetime.now() - timedelta(minutes=10)]] *)
Definition recent_logged (now : nat → datetime) (crashes : list LogCrash) : list LogCrash :=
  omap (λ c, c)
    (imap (λ i crash,
             if bool_decide (now i - minutes 10 < recorded_at crash)
             then Some crash else None) crashes).

(** An exception of [record_crash] or of [restart_process] escapes from
    [intelligent_restart]. *)
Definition intelligent_restart (n : string) (env : IntelligentEnv)
    (m : EnhancedProcessManager) : Outcome bool * EnhancedProcessManager :=
  match Supervisor.processes (base m) !! n with
  | None => (Returned false, m)
  | Some process =>
      let '((can_restart, reason), cm1) :=
        Crash.can_restart_process n (gate_now env) (gate_now' env) (crash_manager m) in
      let m1 := with_crash_manager cm1 m in
      if negb can_restart then (Returned false, m1)
      else
        let recorded :=
          Crash.record_crash n "restart_requested" None (crash_clock env) cm1 in
        let m2 := with_crash_manager recorded.2 m1 in
        match recorded.1 with
        | Raised e => (Raised e, m2)
        | Returned _ =>
            let crashes := default [] (crash_history m2 !! n) in
            let recent_crashes := recent_logged (recent_now env) crashes in
            if bool_decide (process_type (config process) = NODEJS)
               && bool_decide (recent_crashes ≠ [])
            then
              match action (get_restart_strategy recent_crashes) with
              | no_restart => (Returned false, m2)
              | _ => restart_process n (restart_env env) m2
              end
            else restart_process n (restart_env env) m2
        end
  end.

(** The crash manager's ring of a process. *)
Definition crash_ring (m : EnhancedProcessManager) (n : string) : list Crash.CrashEvent :=
  Crash.ring (crash_manager m) n.
End Enhanced.

(** ** core/crash_manager.py: the reports *)
Module CrashReports.
Import Python Datetime Crash.
Local Open Scope Z_scope.

(** Reading [self.crash_history[name]] creates an empty ring for a name
    that has none ([defaultdict]). *)
Definition touch (name : string) (cm : CrashManager) : CrashManager :=
  match crash_history cm !! name with
  | Some _ => cm
  | None => with_crash_history (<[name := []]> (crash_history cm)) cm
  end.

(** [max(iterable, key=key)]: the first element whose key no other
    element exceeds, [None] standing for the [ValueError] on an empty
    iterable. *)
Definition py_max {A} (key : A → nat) (l : list A) : option A :=
  match l with
  | [] => None
  | x :: l' =>
      Some (foldl (λ best y, if bool_decide (key best < key y)%nat then y else best) x l')
  end.

(** [reasons.count(r)] *)
Definition count_of (r : string) (reasons : list string) : nat :=
  length (filter (λ r', r' = r) reasons).

(** [iteration] is the order in which Python enumerates [set(reasons)]. *)
Definition _get_most_common_crash_reason (iteration : list string)
    (crashes : list CrashEvent) : option string :=
  match crashes with
  | [] => None
  | _ =>
      let reasons := crash_reason <$> crashes in
      py_max (λ r, count_of r reasons) iteration
  end.

(** The dictionary that [get_crash_statistics] returns. *)
Record CrashStatistics := {
  stat_process_name : string;
  total_crashes_24h : nat;
  stat_recent_crashes : nat;
  crash_threshold : Z;
  stat_time_window_minutes : Z;
  stat_is_disabled : bool;
  stat_is_quarantined : bool;
  disabled_at : option datetime;
  quarantined_until : option datetime;
  can_restart : bool;
  last_crash : option datetime;
  most_common_reason : option string
}.

(** The readings of the clock in [get_crash_statistics]: for the two
    cutoffs and, in the gate, for the expiry test and the message. *)
Record StatsClock := {
  at_cutoff : datetime;
  at_policy_cutoff : datetime;
  at_gate : datetime;
  at_gate' : datetime
}.

(** [datetime.now() - timedelta(hours=hours)] raises [OverflowError]
    before the ring is read, and
    [datetime.now() - timedelta(minutes=policy.time_window_minutes)] after
    it. *)
Definition get_crash_statistics (name : string) (hrs : Z) (clk : StatsClock)
    (iteration : list string) (cm : CrashManager)
    : Outcome CrashStatistics * CrashManager :=
  match (span ← timedelta_hours hrs; datetime_sub (at_cutoff clk) span) with
  | Raised e => (Raised e, cm)
  | Returned cutoff_time =>
  let cm1 := touch name cm in
  let crashes := recent_crashes cutoff_time (ring cm1 name) in
  let policy := policy_for cm1 name in
  match (window ← timedelta_minutes (time_window_minutes policy);
         datetime_sub (at_policy_cutoff clk) window) with
  | Raised e => (Raised e, cm1)
  | Returned policy_cutoff =>
  let recent := recent_crashes policy_cutoff crashes in
  let gate := can_restart_process name (at_gate clk) (at_gate' clk) cm1 in
  (Returned
     {| stat_process_name := name;
      total_crashes_24h := length crashes;
      stat_recent_crashes := length recent;
      crash_threshold := max_crashes policy;
      stat_time_window_minutes := time_window_minutes policy;
      stat_is_disabled := bool_decide (is_Some (disabled_processes cm1 !! name));
      stat_is_quarantined := bool_decide (is_Some (quarantined_processes cm1 !! name));
      disabled_at := disabled_processes cm1 !! name;
      quarantined_until := quarantined_processes cm1 !! name;
      can_restart := gate.1.1;
      last_crash := timestamp <$> last crashes;
      most_common_reason := _get_most_common_crash_reason iteration crashes |},
   gate.2)
  end
  end.

(** The cutoff [hrs] hours before the reading [now] can be built within
    the ranges of [timedelta] and [datetime]. *)
Definition cutoff_in_range (hrs : Z) (now : datetime) : Prop :=
  timedelta_min ≤ hrs * 3600000000 ≤ timedelta_max
  ∧ datetime_min ≤ now - hrs * 3600000000 ≤ datetime_max.

(** [self.dependencies.get(name, set())] *)
Definition dependents (cm : CrashManager) (name : string) : gset string :=
  default ∅ (dependencies cm !! name).

(** Every ring holds at most 100 events. *)
Definition rings_bounded (cm : CrashManager) : Prop :=
  ∀ name, (length (ring cm name) ≤ 100)%nat.
End CrashReports.

(** ** core/alerting.py: the threshold checks (with [SystemMetrics] of
     models/system.py) *)
Module AlertChecks.
Import Datetime Models Alerting.
Local Open Scope Z_scope.

(** Python's rendering of a float inside the messages: [f"{x:.1f}"] and
    [f"{x}"]. *)
Record Formatting := { fixed1 : Q → string; repr : Q → string }.

(** [x > y] on floats. *)
Definition gt (x y : Q) : bool := if Qlt_le_dec y x then true else false.

(** A value of [SystemMetrics.disk_usage]: the dictionary with the keys
    ["total"], ["used"], ["free"] and ["percent"]. *)
Record DiskUsage := { du_total : Z; du_used : Z; du_free : Z; du_percent : Q }.

(** [SystemMetrics]; the two dictionaries are given by their items, in
    the order in which [.items()] enumerates them. *)
Record SystemMetrics := {
  s_timestamp : datetime;
  s_cpu_percent : Q;
  s_memory_percent : Q;
  s_memory_total : Z;
  s_memory_available : Z;
  s_disk_usage : list (string * DiskUsage);
  s_network_io : list (string * Z);
  s_load_average : list Q;
  s_uptime : Q;
  s_active_connections : Z
}.

(** The readings of the clock in the calls of [create_alert] that
    [check_system_alerts] makes: one set for the CPU alert, one for the
    memory alert and one for each mount point. *)
Record SystemClocks := {
  cpu_clock : AlertClock;
  memory_clock : AlertClock;
  disk_clock : string → AlertClock
}.

(** The body of the loop over [metrics.disk_usage.items()]. *)
Definition disk_alert (fmt : Formatting) (clocks : SystemClocks) (am : AlertManager)
    (item : string * DiskUsage) : AlertManager :=
  let '(mount, usage) := item in
  if gt (du_percent usage) 90%Q
  then (create_alert DISK_FULL CRITICAL
          ("Disk space critical: " +:+ mount)
          ("Disk usage on " +:+ mount +:+ " is at "
             +:+ fixed1 fmt (du_percent usage) +:+ "%")
          None
          (Some (<["mount" := MetaStr mount]>
                   (<["usage_percent" := MetaFloat (du_percent usage)]>
                      {["free_bytes" := MetaInt (du_free usage)]})))
          (disk_clock clocks mount) am).2
  else am.

Definition check_system_alerts (fmt : Formatting) (clocks : SystemClocks)
    (metrics : SystemMetrics) (am : AlertManager) : AlertManager :=
  let am1 :=
    if gt (s_cpu_percent metrics) 90%Q
    then (create_alert SYSTEM_HIGH_CPU CRITICAL
            "System CPU usage critical"
            ("System CPU usage is at " +:+ fixed1 fmt (s_cpu_percent metrics) +:+ "%")
            None
            (Some {["cpu_percent" := MetaFloat (s_cpu_percent metrics)]})
            (cpu_clock clocks) am).2
    else am in
  let am2 :=
    if gt (s_memory_percent metrics) 90%Q
    then (create_alert SYSTEM_HIGH_MEMORY CRITICAL
            "System memory usage critical"
            ("System memory usage is at "
               +:+ fixed1 fmt (s_memory_percent metrics) +:+ "%")
            None
            (Some (<["memory_percent" := MetaFloat (s_memory_percent metrics)]>
                     {["memory_available" := MetaInt (s_memory_available metrics)]}))
            (memory_clock clocks) am1).2
    else am1 in
  foldl (disk_alert fmt clocks) am2 (s_disk_usage metrics).

(** The readings of the clock in the three calls of [create_alert] that
    [check_process_alerts] makes. *)
Record ProcessClocks := {
  failure_clock : AlertClock;
  high_cpu_clock : AlertClock;
  high_memory_clock : AlertClock
}.

(** An [Optional[int]] as a metadata value. *)
Definition meta_opt (v : option Z) : MetaValue :=
  match v with Some z => MetaInt z | None => MetaNone end.

Definition check_process_alerts (fmt : Formatting) (clocks : ProcessClocks)
    (process : ManagedProcess) (metrics : ProcessMetrics) (am : AlertManager)
    : AlertManager :=
  let config := config process in
  let am1 :=
    if bool_decide (m_status metrics = FAILED) && alert_on_failure config
    then (create_alert PROCESS_FAILED CRITICAL
            ("Process " +:+ name config +:+ " has failed")
            ("Process " +:+ name config +:+ " is no longer running and has failed.")
            (Some (name config))
            (Some (<["pid" := meta_opt (m_pid metrics)]>
                     {["uptime" := MetaFloat (m_uptime metrics)]}))
            (failure_clock clocks) am).2
    else am in
  let am2 :=
    if alert_on_high_cpu config && gt (m_cpu_percent metrics) (cpu_threshold config)
    then (create_alert HIGH_CPU WARNING
            ("High CPU usage for " +:+ name config)
            ("Process " +:+ name config +:+ " is using "
               +:+ fixed1 fmt (m_cpu_percent metrics) +:+ "% CPU (threshold: "
               +:+ repr fmt (cpu_threshold config) +:+ "%)")
            (Some (name config))
            (Some (<["cpu_percent" := MetaFloat (m_cpu_percent metrics)]>
                     {["threshold" := MetaFloat (cpu_threshold config)]}))
            (high_cpu_clock clocks) am1).2
    else am1 in
  if alert_on_high_memory config
     && gt (m_memory_percent metrics) (memory_threshold config)
  then (create_alert HIGH_MEMORY WARNING
          ("High memory usage for " +:+ name config)
          ("Process " +:+ name config +:+ " is using "
             +:+ fixed1 fmt (m_memory_percent metrics) +:+ "% memory (threshold: "
             +:+ repr fmt (memory_threshold config) +:+ "%)")
          (Some (name config))
          (Some (<["memory_percent" := MetaFloat (m_memory_percent metrics)]>
                   (<["memory_mb" := MetaFloat (m_memory_mb metrics)]>
                      {["threshold" := MetaFloat (memory_threshold config)]})))
          (high_memory_clock clocks) am2).2
  else am2.

(** The alerts built since [am], when [am'] extends it. *)
Definition built_since (am am' : AlertManager) (news : list Alert) : Prop :=
  objects am' = objects am ++ news.

(** All readings of the clock in the loop over the mount points fall
    within one cooldown after [t0]. *)
Definition within_cooldown (t0 : datetime) (clocks : SystemClocks) : Prop :=
  ∀ mount, t0 ≤ at_cooldown (disk_clock clocks mount)
           ∧ at_check (disk_clock clocks mount) < t0 + _cooldown_duration.

(** The history holds at most 1000 references. *)
Definition history_capped (am : AlertManager) : Prop :=
  (length (alert_history am) ≤ 1000)%nat.

(** The reference points to an alert that is not resolved. *)
Definition unresolved_at (objs : list Alert) (ref : nat) : Prop :=
  resolved <$> objs !! ref = Some false.

#[global] Instance unresolved_at_dec objs ref : Decision (unresolved_at objs ref).
Proof. unfold unresolved_at. apply _. Defined.

(** The active list holds the references of the alerts that are not
    resolved, in the order of their construction. *)
Definition active_are_unresolved (am : AlertManager) : Prop :=
  alerts am = filter (unresolved_at (objects am)) (seq 0 (length (objects am))).
End AlertChecks.

(** ** core/log_manager.py *)
Module Logs.
Local Open Scope Z_scope.

(** The in-memory part of [LogManager]: the buffers (each a
    [deque(maxlen=1000)]), the path of the current log file of each
    process, and the names that have a lock. *)
Record LogManager := {
  _log_buffers : gmap string (list string);
  _log_files : gmap string string;
  _log_locks : gset string
}.

Definition _max_buffer_size : nat := 1000.
Definition _log_rotation_size : Z := 10 * 1024 * 1024.

(** [LogManager.__init__] *)
Definition init : LogManager :=
  {| _log_buffers := ∅; _log_files := ∅; _log_locks := ∅ |}.

(** [create_log_file]: [ok] tells whether [log_dir.mkdir] succeeds and
    [path] is the text of the path built from the directory, the name and
    the reading of the clock.  [None] stands for the exception that
    [mkdir] raises, before anything is assigned. *)
Definition create_log_file (name : string) (ok : bool) (path : string)
    (lm : LogManager) : option string * LogManager :=
  if ok
  then (Some path,
        {| _log_files := <[name := path]> (_log_files lm);
           _log_buffers := <[name := []]> (_log_buffers lm);
           _log_locks := {[name]} ∪ _log_locks lm |})
  else (None, lm).

(** What the file system answers during one [write_log]. *)
Record WriteEnv := {
  (** [create_log_file], when the process has no buffer yet *)
  mkdir_ok : bool;
  created_path : string;
  (** [datetime.now().isoformat()] *)
  stamp : string;
  (** [os.path.getsize(log_file)], or [None] when the file does not exist *)
  size : option Z;
  (** [os.rename] and [create_log_file] in [_rotate_log] *)
  renamed : bool;
  rotate_mkdir_ok : bool;
  rotated_path : string;
  (** [open(log_file, 'a')] and [f.write] succeed *)
  appended : bool
}.

(** What [write_log] did with the line: it raised before buffering it,
    it appended it to the file at [path], or the line is in the buffer
    only. *)
Inductive Written := Raised | Appended (path : string) | NotAppended.

(** [f"[{timestamp}] [{level}] {message}"] *)
Definition formatted_message (timestamp level message : string) : string :=
  "[" +:+ timestamp +:+ "] [" +:+ level +:+ "] " +:+ message.

(** [_rotate_log]: an exception of [os.rename] or of [create_log_file]
    is caught and leaves the manager as it is. *)
Definition _rotate_log (name : string) (env : WriteEnv) (lm : LogManager) : LogManager :=
  if renamed env
  then (create_log_file name (rotate_mkdir_ok env) (rotated_path env) lm).2
  else lm.

(** [os.path.exists(log_file) and os.path.getsize(log_file) > self._log_rotation_size] *)
Definition over_limit (env : WriteEnv) : bool :=
  match size env with
  | Some sz => bool_decide (_log_rotation_size < sz)
  | None => false
  end.

(** [_write_to_file]: the line is appended to the path read from
    [_log_files] before the rotation. *)
Definition _write_to_file (name : string) (env : WriteEnv) (lm : LogManager)
    : Written * LogManager :=
  match _log_files lm !! name with
  | Some log_file =>
      let lm' := if over_limit env then _rotate_log name env lm else lm in
      (if appended env then Appended log_file else NotAppended, lm')
  | None => (NotAppended, lm)
  end.

(** [if process_name not in self._log_buffers: self.create_log_file(process_name)];
    [None] stands for the exception of [create_log_file]. *)
Definition ensure_log_file (name : string) (env : WriteEnv) (lm : LogManager)
    : option LogManager :=
  match _log_buffers lm !! name with
  | None =>
      match create_log_file name (mkdir_ok env) (created_path env) lm with
      | (Some _, lm1) => Some lm1
      | (None, _) => None
      end
  | Some _ => Some lm
  end.

(** [write_log]; [Raised] also stands for the [KeyError] of
    [self._log_locks[process_name]] and of [self._log_buffers[process_name]]. *)
Definition write_log (name message level : string) (env : WriteEnv)
    (lm : LogManager) : Written * LogManager :=
  match ensure_log_file name env lm with
  | None => (Raised, lm)
  | Some lm1 =>
      match _log_buffers lm1 !! name with
      | Some buffer =>
          if bool_decide (name ∈ _log_locks lm1)
          then
            let lm2 :=
              {| _log_buffers :=
                   <[name := Crash.deque_append _max_buffer_size
                               (formatted_message (stamp env) level message) buffer]>
                     (_log_buffers lm1);
                 _log_files := _log_files lm1;
                 _log_locks := _log_locks lm1 |} in
            if bool_decide (is_Some (_log_files lm2 !! name))
            then _write_to_file name env lm2
            else (NotAppended, lm2)
          else (Raised, lm1)
      | None => (Raised, lm1)
      end
  end.

(** [l[k:]] *)
Definition slice_from {A} (k : Z) (l : list A) : list A :=
  if bool_decide (k < 0)
  then drop (Z.to_nat (Z.of_nat (length l) + k)) l
  else drop (Z.to_nat k) l.

(** [get_recent_logs]; [None] stands for the [KeyError] of
    [self._log_locks[process_name]]. *)
Definition get_recent_logs (name : string) (lines : Z) (lm : LogManager)
    : option (list string) :=
  match _log_buffers lm !! name with
  | None => Some []
  | Some buffer =>
      if bool_decide (name ∈ _log_locks lm)
      then Some (if bool_decide (lines < Z.of_nat (length buffer))
                 then slice_from (- lines) buffer
                 else buffer)
      else None
  end.

(** [get_log_file_path] *)
Definition get_log_file_path (name : string) (lm : LogManager) : option string :=
  _log_files lm !! name.

(** [remove_process_logs], as far as the manager is concerned. *)
Definition remove_process_logs (name : string) (lm : LogManager) : LogManager :=
  {| _log_buffers := delete name (_log_buffers lm);
     _log_files := delete name (_log_files lm);
     _log_locks := _log_locks lm ∖ {[name]} |}.

Inductive Call :=
| CreateLogFile (name : string) (ok : bool) (path : string)
| WriteLog (name message level : string) (env : WriteEnv)
| RemoveProcessLogs (name : string).

Definition step (lm : LogManager) (c : Call) : LogManager :=
  match c with
  | CreateLogFile name ok path => (create_log_file name ok path lm).2
  | WriteLog name message level env => (write_log name message level env lm).2
  | RemoveProcessLogs name => remove_process_logs name lm
  end.

Definition run (calls : list Call) (lm : LogManager) : LogManager :=
  foldl step lm calls.

(** The three dictionaries have the same keys and no buffer holds more
    than 1000 lines. *)
Definition consistent (lm : LogManager) : Prop :=
  (∀ name, is_Some (_log_buffers lm !! name) ↔ name ∈ _log_locks lm)
  ∧ (∀ name, is_Some (_log_files lm !! name) ↔ name ∈ _log_locks lm)
  ∧ (∀ name buffer, _log_buffers lm !! name = Some buffer →
       (length buffer ≤ _max_buffer_size)%nat).

(** The write rotates the log: the current file is over the limit and
    both the rename and the creation of the new file succeed. *)
Definition rotates (env : WriteEnv) : Prop :=
  over_limit env = true ∧ renamed env = true ∧ rotate_mkdir_ok env = true.

#[global] Instance rotates_dec env : Decision (rotates env).
Proof. unfold rotates. apply _. Defined.
End Logs.

(** ** core/enhanced_process_manager.py: the crashes found in the logs *)
Module CrashLog.
Import Datetime Enhanced.
Local Open Scope Z_scope.

(** The readings of the clock in [_record_crashes]: one for each crash
    that is stamped, and the one of the cutoff. *)
Record RecordClock := {
  at_crash : nat → datetime;
  at_cutoff : datetime
}.

(** [crash['recorded_at'] = datetime.now().isoformat()] for each crash
    of the list. *)
Definition stamp_crashes (now : nat → datetime) (crashes : list LogCrash)
    : list LogCrash :=
  imap (λ i crash, {| crash_type := crash_type crash; recorded_at := now i |}) crashes.

Definition _record_crashes (name : string) (crashes : list LogCrash)
    (clk : RecordClock) (m : EnhancedProcessManager) : EnhancedProcessManager :=
  let appended :=
    default [] (crash_history m !! name) ++ stamp_crashes (at_crash clk) crashes in
  let cutoff_time := at_cutoff clk - hours 24 in
  {| base := base m;
     crash_manager := crash_manager m;
     crash_history :=
       <[name := filter (λ crash, cutoff_time < recorded_at crash) appended]>
         (crash_history m) |}.

(** The crash types for which [get_restart_strategy] refuses a
    restart. *)
Definition needs_manual_fix (crash : LogCrash) : Prop :=
  crash_type crash = Some "missing_module" ∨ crash_type crash = Some "syntax_error".
End CrashLog.

(** ** Notions used to describe the supervisor's operations *)
Module SupervisorProps.
Import Python Datetime Models Supervisor.
Local Open Scope Z_scope.

(** The bookkeeping of the registry: [order] lists each registered name
    once, and only registered names have a subprocess handle. *)
Definition well_formed (pm : ProcessManager) : Prop :=
  NoDup (order pm)
  ∧ (∀ n, n ∈ order pm ↔ is_Some (processes pm !! n))
  ∧ (∀ n, is_Some (_subprocess_handles pm !! n) → is_Some (processes pm !! n)).

(** [p'] is a later state of the record [p]: the same configuration and
    no fewer restarts. *)
Definition evolves (p p' : ManagedProcess) : Prop :=
  config p' = config p ∧ restart_count p ≤ restart_count p'.

(** Every record of [pm] is still registered in [pm'], in a state related
    by [R]. *)
Definition keeps (R : ManagedProcess → ManagedProcess → Prop)
    (pm pm' : ProcessManager) : Prop :=
  ∀ n p, processes pm !! n = Some p →
         ∃ p', processes pm' !! n = Some p' ∧ R p p'.

(** The test of [auto_restart_failed_processes]. *)
Definition eligible (p : ManagedProcess) : bool :=
  bool_decide (status p = FAILED) && auto_restart (config p)
  && bool_decide (restart_count p < max_restarts (config p)).

(** The record of an eligible process after its restart by the sweep. *)
Definition swept (env : RestartEnv) (p : ManagedProcess) : ManagedProcess :=
  if eligible p
  then match spawn (restart_start env) with
       | Some child =>
           {| config := config p; status := RUNNING; pid := Some child;
              started_at := Some (started_now (restart_start env));
              restart_count := restart_count p + 1;
              last_restart := Some (restarted_now env);
              metrics_history := metrics_history p |}
       | None => set_status FAILED p
       end
  else p.

(** The exception that ends the sweep at [n], if there is one: the
    process is eligible and [time.sleep] rejects its [restart_delay]. *)
Definition sweep_error (pm : ProcessManager) (n : string) : option Exception :=
  match processes pm !! n with
  | Some p =>
      if eligible p
      then match sleep (restart_delay (config p)) with
           | Raised e => Some e
           | Returned _ => None
           end
      else None
  | None => None
  end.

(** The record of a process after a forced stop whose signal is
    delivered. *)
Definition force_stopped (p : ManagedProcess) : ManagedProcess :=
  if bool_decide (status p = RUNNING)
  then set_pid None (set_status STOPPED p)
  else p.

(** The record of a process after [start_process]. *)
Definition start_record (env : StartEnv) (p : ManagedProcess) : ManagedProcess :=
  if bool_decide (status p = RUNNING) then p
  else match spawn env with
       | Some child =>
           set_status RUNNING
             (set_started_at (Some (started_now env)) (set_pid (Some child) p))
       | None => set_status FAILED p
       end.

(** The record of a process after [stop_process]; [delivered] tells
    whether the signal could be sent (or there was no handle to signal). *)
Definition stop_record (delivered : bool) (p : ManagedProcess) : ManagedProcess :=
  if bool_decide (status p ≠ RUNNING) then p
  else if delivered then set_pid None (set_status STOPPED p)
       else set_status STOPPING p.

(** Whether [stop_process] gets its signal through: it has no handle to
    signal, or the signal is delivered. *)
Definition delivered (n : string) (env : StopEnv) (pm : ProcessManager) : bool :=
  match _subprocess_handles pm !! n with
  | Some _ => signalled env
  | None => true
  end.

(** The record of a process that is not running after the start and the
    count of [restart_process]. *)
Definition restarted (env : RestartEnv) (p : ManagedProcess) : ManagedProcess :=
  match spawn (restart_start env) with
  | Some child =>
      {| config := config p; status := RUNNING; pid := Some child;
         started_at := Some (started_now (restart_start env));
         restart_count := restart_count p + 1;
         last_restart := Some (restarted_now env);
         metrics_history := metrics_history p |}
  | None => set_status FAILED p
  end.

(** The process is in one of the states in which an operation can leave
    it: not the transient [STARTING] and not [UNKNOWN]. *)
Definition resting (p : ManagedProcess) : Prop :=
  status p ≠ STARTING ∧ status p ≠ UNKNOWN.

(** The operation does not unregister [n]. *)
Definition keeps_registered (n : string) (op : Op) : Prop :=
  match op with
  | RemoveProcess n' _ => n' ≠ n
  | _ => True
  end.
End SupervisorProps.

(** ** Concrete runs used as instances of the properties below *)
Module Examples.
Import Datetime.
Local Open Scope Z_scope.

(** One second, in microseconds. *)
Definition sec : Z := 1000000.

(** A clock that gives the reading [t] whenever it is read. *)
Definition crash_clock_at (t : datetime) : Crash.CrashClock :=
  {| Crash.at_event := t; Crash.at_eval := t; Crash.at_action := t;
     Crash.at_dependent := λ _, t |}.

Definition policy (n : Z) (a : Crash.CrashAction) : Crash.CrashPolicy :=
  {| Crash.max_crashes := n; Crash.time_window_minutes := 10;
     Crash.action_on_threshold := a; Crash.kill_dependencies := false;
     Crash.quarantine_duration_minutes := 60; Crash.escalation_enabled := true |}.

Definition crash (name : string) (t : datetime) : Crash.Call :=
  Crash.RecordCrash name "unexpected_exit" (Some 1) (crash_clock_at t).

(** ["svc"] quarantines at three crashes in ten minutes; one crash so
    far, resp. two. *)
Definition svc_one_crash : Crash.CrashManager :=
  Crash.run [Crash.SetCrashPolicy "svc" (policy 3 Crash.QUARANTINE); crash "svc" 0]
    Crash.init.
Definition svc_two_crashes : Crash.CrashManager :=
  Crash.run [crash "svc" sec] svc_one_crash.

(** ["svc"] is disabled at 101 crashes in ten minutes and has crashed
    100 times, once every second from 1 s to 100 s. *)
Definition svc_hundred_crashes : Crash.CrashManager :=
  Crash.run
    (Crash.SetCrashPolicy "svc" (policy 101 Crash.DISABLE)
       :: ((λ i : nat, crash "svc" (Z.of_nat (S i) * sec)) <$> seq 0 100))
    Crash.init.

(** ["svc"] quarantined at its first crash, at 0 s, for 60 minutes. *)
Definition svc_quarantined : Crash.CrashManager :=
  Crash.run [Crash.SetCrashPolicy "svc" (policy 1 Crash.QUARANTINE); crash "svc" 0]
    Crash.init.

(** ["api"] depends on ["db"]; ["api"] quarantines at its first crash,
    ["db"] disables itself and its dependents at its first crash.
    ["api"] crashes at 0 s, ["db"] at 1 s. *)
Definition cascade_calls : list Crash.Call :=
  [Crash.AddDependency "api" "db";
   Crash.SetCrashPolicy "api" (policy 1 Crash.QUARANTINE);
   Crash.SetCrashPolicy "db" (policy 1 Crash.KILL_DEPENDENCIES);
   crash "api" 0;
   crash "db" sec].
Definition after_cascade : Crash.CrashManager := Crash.run cascade_calls Crash.init.

(** The policy of ["svc"] is changed from quarantine to disable between
    two crashes. *)
Definition policy_change_calls : list Crash.Call :=
  [Crash.SetCrashPolicy "svc" (policy 1 Crash.QUARANTINE);
   crash "svc" 0;
   Crash.SetCrashPolicy "svc" (policy 1 Crash.DISABLE);
   crash "svc" sec].
Definition after_policy_change : Crash.CrashManager :=
  Crash.run policy_change_calls Crash.init.

(** A process configuration with the defaults of [ProcessConfig]. *)
Definition config_of (n : string) : Models.ProcessConfig := {|
  Models.name := n; Models.command := "sleep 1000"; Models.working_dir := "/tmp";
  Models.process_type := Models.GENERIC; Models.env_vars := ∅;
  Models.auto_restart := true; Models.max_restarts := 5; Models.restart_delay := 5;
  Models.log_file := None; Models.redirect_output := true;
  Models.cpu_limit := None; Models.memory_limit := None;
  Models.alert_on_failure := true; Models.alert_on_high_cpu := true;
  Models.alert_on_high_memory := true;
  Models.cpu_threshold := 80%Q; Models.memory_threshold := 80%Q
|}.

(** The defaults with another [restart_delay]. *)
Definition config_with_delay (n : string) (delay : Z) : Models.ProcessConfig := {|
  Models.name := n; Models.command := "sleep 1000"; Models.working_dir := "/tmp";
  Models.process_type := Models.GENERIC; Models.env_vars := ∅;
  Models.auto_restart := true; Models.max_restarts := 5; Models.restart_delay := delay;
  Models.log_file := None; Models.redirect_output := true;
  Models.cpu_limit := None; Models.memory_limit := None;
  Models.alert_on_failure := true; Models.alert_on_high_cpu := true;
  Models.alert_on_high_memory := true;
  Models.cpu_threshold := 80%Q; Models.memory_threshold := 80%Q
|}.

Definition spawned (child : Z) (t : datetime) : Supervisor.StartEnv :=
  {| Supervisor.spawn := Some child; Supervisor.started_now := t |}.
Definition spawn_fails (t : datetime) : Supervisor.StartEnv :=
  {| Supervisor.spawn := None; Supervisor.started_now := t |}.
Definition restart_with (child : Z) (t : datetime) : Supervisor.RestartEnv :=
  {| Supervisor.restart_stop := {| Supervisor.signalled := true |};
     Supervisor.restart_start := spawned child t;
     Supervisor.restarted_now := t |}.

(** ["svc"] is registered and started with pid 4242. *)
Definition svc_running : Supervisor.ProcessManager :=
  Supervisor.run
    [Supervisor.AddProcess (config_of "svc");
     Supervisor.StartProcess "svc" (spawned 4242 0)]
    Supervisor.init.


(** ["svc"] is started, a stop request fails to deliver its signal, and
    a second start fails to spawn. *)
Definition stale_pid_ops : list Supervisor.Op :=
  [Supervisor.AddProcess (config_of "svc");
   Supervisor.StartProcess "svc" (spawned 4242 0);
   Supervisor.StopProcess "svc" false {| Supervisor.signalled := false |};
   Supervisor.StartProcess "svc" (spawn_fails sec)].

(** ["a"], ["b"] and ["c"] are registered in this order and the first
    start of each fails to spawn; ["b"] has a [restart_delay] of -1. *)
Definition negative_delay_ops : list Supervisor.Op :=
  [Supervisor.AddProcess (config_of "a");
   Supervisor.StartProcess "a" (spawn_fails 0);
   Supervisor.AddProcess (config_with_delay "b" (-1));
   Supervisor.StartProcess "b" (spawn_fails 0);
   Supervisor.AddProcess (config_of "c");
   Supervisor.StartProcess "c" (spawn_fails 0)].

(** ["b"] runs with pid 4242 and has a [restart_delay] of -1. *)
Definition negative_delay_running : Supervisor.ProcessManager :=
  Supervisor.run
    [Supervisor.AddProcess (config_with_delay "b" (-1));
     Supervisor.StartProcess "b" (spawned 4242 0)]
    Supervisor.init.

(** ["svc"] is registered and its first start fails to spawn. *)
Definition failed_start_ops : list Supervisor.Op :=
  [Supervisor.AddProcess (config_of "svc");
   Supervisor.StartProcess "svc" (spawn_fails 0)].

(** An enhanced manager in which ["svc"] runs and has no recorded
    crash. *)
Definition enhanced_running : Enhanced.EnhancedProcessManager :=
  let m1 := (Enhanced.add_process (config_of "svc") Enhanced.init).2 in
  (Enhanced.start_process "svc" (spawned 4242 0) m1).2.

Definition intelligent_env (t : datetime) : Enhanced.IntelligentEnv :=
  {| Enhanced.gate_now := t; Enhanced.gate_now' := t;
     Enhanced.crash_clock := crash_clock_at t;
     Enhanced.recent_now := λ _, t;
     Enhanced.restart_env := restart_with 4343 t |}.

(** ["svc"] runs under a policy that disables it at its first recorded
    crash.  An [intelligent_restart] at 1 s passes the gate, records its
    ["restart_requested"] event, which disables ["svc"], and restarts it
    (pid 4343); the health check then finds that the child has exited. *)
Definition failed_and_disabled : Enhanced.EnhancedProcessManager :=
  let m1 :=
    Enhanced.with_crash_manager
      (Crash.set_crash_policy "svc" (policy 1 Crash.DISABLE)
         (Enhanced.crash_manager enhanced_running))
      enhanced_running in
  let m2 := (Enhanced.intelligent_restart "svc" (intelligent_env sec) m1).2 in
  (Enhanced.check_process_health "svc" {| Supervisor.poll := Some 1 |} m2).2.

(** [enhanced_running] under a policy that disables ["svc"] at its first
    recorded crash. *)
Definition enhanced_strict : Enhanced.EnhancedProcessManager :=
  Enhanced.with_crash_manager
    (Crash.set_crash_policy "svc" (policy 1 Crash.DISABLE)
       (Enhanced.crash_manager enhanced_running))
    enhanced_running.

(** A Node.js application with the defaults of [ProcessConfig]. *)
Definition node_config (n : string) : Models.ProcessConfig := {|
  Models.name := n; Models.command := "node server.js"; Models.working_dir := "/srv";
  Models.process_type := Models.NODEJS; Models.env_vars := ∅;
  Models.auto_restart := true; Models.max_restarts := 5; Models.restart_delay := 5;
  Models.log_file := None; Models.redirect_output := true;
  Models.cpu_limit := None; Models.memory_limit := None;
  Models.alert_on_failure := true; Models.alert_on_high_cpu := true;
  Models.alert_on_high_memory := true;
  Models.cpu_threshold := 80%Q; Models.memory_threshold := 80%Q
|}.

(** The Node.js application ["web"] is registered and its logs have
    shown a missing module at 0 s. *)
Definition web_missing_module : Enhanced.EnhancedProcessManager :=
  let m1 := (Enhanced.add_process (node_config "web") Enhanced.init).2 in
  {| Enhanced.base := Enhanced.base m1;
     Enhanced.crash_manager := Enhanced.crash_manager m1;
     Enhanced.crash_history :=
       {["web" := [{| Enhanced.crash_type := Some "missing_module";
                      Enhanced.recorded_at := 0 |}]]} |}.

(** The file system during a write at the text [t] of the clock: the
    current log file has [sz] bytes, and everything succeeds. *)
Definition write_env (t : string) (sz : Z) : Logs.WriteEnv :=
  {| Logs.mkdir_ok := true; Logs.created_path := "/var/log/processguard/svc/svc_1.log";
     Logs.stamp := t; Logs.size := Some sz; Logs.renamed := true;
     Logs.rotate_mkdir_ok := true;
     Logs.rotated_path := "/var/log/processguard/svc/svc_2.log";
     Logs.appended := true |}.

(** Two lines have been written for ["svc"]. *)
Definition two_lines : list Logs.Call :=
  [Logs.WriteLog "svc" "started" "INFO" (write_env "t1" 0);
   Logs.WriteLog "svc" "listening" "INFO" (write_env "t2" 30)].

(** The Node.js application ["web"] is registered and nothing has been
    found in its logs. *)
Definition web_registered : Enhanced.EnhancedProcessManager :=
  (Enhanced.add_process (node_config "web") Enhanced.init).2.

(** Every reading of the clock while crashes are recorded is [t]. *)
Definition record_clock_at (t : datetime) : CrashLog.RecordClock :=
  {| CrashLog.at_crash := λ _, t; CrashLog.at_cutoff := t |}.

(** The text of [timestamp()] for a reading of whole seconds, in a time
    zone without offset. *)
Definition timestamp_text (t : datetime) : string := pretty (t / 1000000) +:+ ".0".

(** Every reading of the clock during a [create_alert] is [t]. *)
Definition alert_clock_at (t : datetime) : Alerting.AlertClock :=
  {| Alerting.at_check := t; Alerting.at_id := timestamp_text t;
     Alerting.at_stamp := t; Alerting.at_cooldown := t |}.

(** A high-CPU alert for ["p"], requested at [t]. *)
Definition high_cpu (t : datetime) : Alerting.Call :=
  Alerting.CreateAlert Alerting.HIGH_CPU Alerting.WARNING
    "High CPU usage for p" "Process p is using 90.0% CPU (threshold: 50.0%)"
    (Some "p") None (alert_clock_at t).

(** A clock that is set back by 100 s after the timestamp of the alert
    is read and before the new cooldown is. *)
Definition clock_stepping_back : Alerting.AlertClock :=
  {| Alerting.at_check := 100 * sec; Alerting.at_id := timestamp_text (100 * sec);
     Alerting.at_stamp := 100 * sec; Alerting.at_cooldown := 0 |}.

(** A high-CPU alert for ["q"], requested at [t]. *)
Definition high_cpu_q (t : datetime) : Alerting.Call :=
  Alerting.CreateAlert Alerting.HIGH_CPU Alerting.WARNING
    "High CPU usage for q" "Process q is using 95.0% CPU (threshold: 80.0%)"
    (Some "q") None (alert_clock_at t).

(** High-CPU alerts for ["p"] and for ["q"] requested at one reading of
    the clock: the keys differ and the ids are the same. *)
Definition same_id_alerts : list Alerting.Call := [high_cpu 0; high_cpu_q 0].

(** The manager after one accepted high-CPU alert at 0 s. *)
Definition one_active_alert : Alerting.AlertManager :=
  Alerting.run [high_cpu 0] Alerting.init.

(** Floats are rendered by a fixed text in the examples. *)
Definition fmt : AlertChecks.Formatting :=
  {| AlertChecks.fixed1 := λ _, "95.0"; AlertChecks.repr := λ _, "80.0" |}.

(** Every reading of the clock during a system check is [t]. *)
Definition system_clocks_at (t : datetime) : AlertChecks.SystemClocks :=
  {| AlertChecks.cpu_clock := alert_clock_at t;
     AlertChecks.memory_clock := alert_clock_at t;
     AlertChecks.disk_clock := λ _, alert_clock_at t |}.

(** A quiet system whose two mount points are both 95 % full. *)
Definition full_disks : AlertChecks.SystemMetrics :=
  let usage := {| AlertChecks.du_total := 100; AlertChecks.du_used := 95;
                  AlertChecks.du_free := 5; AlertChecks.du_percent := 95%Q |} in
  {| AlertChecks.s_timestamp := 0; AlertChecks.s_cpu_percent := 10%Q;
     AlertChecks.s_memory_percent := 10%Q; AlertChecks.s_memory_total := 100;
     AlertChecks.s_memory_available := 90;
     AlertChecks.s_disk_usage := [("/", usage); ("/data", usage)];
     AlertChecks.s_network_io := []; AlertChecks.s_load_average := [];
     AlertChecks.s_uptime := 0%Q; AlertChecks.s_active_connections := 0 |}.

(** Two high-CPU alerts for ["p"] and ["q"] whose ids are built from the
    readings 0 s and 1 s. *)
Definition two_alerts : list Alerting.Call :=
  [high_cpu 0;
   Alerting.CreateAlert Alerting.HIGH_CPU Alerting.WARNING
     "High CPU usage for q" "Process q is using 95.0% CPU (threshold: 80.0%)"
     (Some "q") None (alert_clock_at sec)].
End Examples.

(* ===================================================================== *)
(** * Part II: properties *)
(* ===================================================================== *)

(** ** Lists that keep their newest elements *)
Section KeepNewest.
Context {A : Type}.
Implicit Types (l : list A) (n : nat).

Lemma last_drop l n : n < length l → last (drop n l) = last l.
Proof.
  intros Hn. rewrite !last_lookup, lookup_drop, length_drop.
  f_equal. lia.
Qed.


(** Dropping a prefix leaves a suffix: the elements that go are the
    oldest. *)
Lemma drop_is_suffix l n : take n l ++ drop n l = l.
Proof. apply take_drop. Qed.
End KeepNewest.

(** ** Crash policy engine *)
Section CrashPolicyEngine.
Import Python Datetime Crash.
Local Open Scope Z_scope.

Implicit Types (cm : CrashManager) (name : string) (clk : CrashClock).

Lemma ring_append_crash name ev cm :
  ring (append_crash name ev cm) name = deque_append 100 ev (ring cm name).
Proof. unfold ring, append_crash; simpl. by rewrite lookup_insert_eq. Qed.

Lemma ring_append_crash_ne name name' ev cm :
  name ≠ name' → ring (append_crash name ev cm) name' = ring cm name'.
Proof. intros Hne. unfold ring, append_crash; simpl. by rewrite lookup_insert_ne. Qed.

Lemma policy_for_append_crash name name' ev cm :
  policy_for (append_crash name ev cm) name' = policy_for cm name'.
Proof. reflexivity. Qed.

(** The ring never holds more than 100 events. *)
Lemma deque_append_length {A} (n : nat) (x : A) (d : list A) :
  (length d ≤ n → length (deque_append n x d) ≤ n)%nat.
Proof.
  intros Hd. unfold deque_append. rewrite length_drop, length_app. simpl. lia.
Qed.

(** The appended element is the newest of a ring of positive capacity. *)
Lemma deque_append_last {A} (n : nat) (x : A) (d : list A) :
  (0 < n)%nat → last (deque_append n x d) = Some x.
Proof.
  intros Hn. unfold deque_append.
  rewrite last_drop by (rewrite length_app; simpl; lia).
  apply last_snoc.
Qed.

Lemma evaluate_in_range name now cm :
  window_in_range (policy_for cm name) now →
  _evaluate_crash_policy name now cm
  = Returned
      (if bool_decide
            (max_crashes (policy_for cm name)
             ≤ Z.of_nat (length (recent_crashes
                                   (now - minutes (time_window_minutes (policy_for cm name)))
                                   (ring cm name))))
       then action_on_threshold (policy_for cm name)
       else RESTART).
Proof.
  intros [Hd Ht].
  unfold _evaluate_crash_policy, timedelta_minutes, new_timedelta, datetime_sub, minutes.
  rewrite (bool_decide_eq_true_2 _ Hd). simpl.
  by rewrite (bool_decide_eq_true_2 _ Ht).
Qed.

Lemma evaluate_out_of_range name now cm :
  ¬ window_in_range (policy_for cm name) now →
  _evaluate_crash_policy name now cm = Raised OverflowError.
Proof.
  intros Hno.
  unfold _evaluate_crash_policy, timedelta_minutes, new_timedelta, datetime_sub, minutes.
  destruct (decide (timedelta_min ≤ time_window_minutes (policy_for cm name) * 60000000
                    ≤ timedelta_max)) as [Hd | Hd].
  - rewrite (bool_decide_eq_true_2 _ Hd). simpl.
    rewrite bool_decide_eq_false_2; [done |]. intros Ht. by apply Hno.
  - by rewrite (bool_decide_eq_false_2 _ Hd).
Qed.

Lemma evaluate_at_threshold name now cm :
  window_in_range (policy_for cm name) now →
  max_crashes (policy_for cm name)
    ≤ Z.of_nat (length (recent_crashes
                   (now - minutes (time_window_minutes (policy_for cm name)))
                   (ring cm name))) →
  _evaluate_crash_policy name now cm = Returned (action_on_threshold (policy_for cm name)).
Proof. intros Hw H. rewrite evaluate_in_range by done. by rewrite bool_decide_eq_true_2. Qed.

Lemma evaluate_below_threshold name now cm :
  window_in_range (policy_for cm name) now →
  Z.of_nat (length (recent_crashes
              (now - minutes (time_window_minutes (policy_for cm name)))
              (ring cm name)))
    < max_crashes (policy_for cm name) →
  _evaluate_crash_policy name now cm = Returned RESTART.
Proof.
  intros Hw H. rewrite evaluate_in_range by done.
  rewrite bool_decide_eq_false_2; [done | lia].
Qed.

Lemma quarantine_process_in_range name now cm :
  quarantine_in_range (policy_for cm name) now →
  _quarantine_process name now cm
  = (Returned tt,
     with_quarantined
       (<[name := now + minutes (quarantine_duration_minutes (policy_for cm name))]>
          (quarantined_processes cm)) cm).
Proof.
  intros [Hd Ht].
  unfold _quarantine_process, timedelta_minutes, new_timedelta, datetime_add, minutes.
  rewrite (bool_decide_eq_true_2 _ Hd). simpl.
  by rewrite (bool_decide_eq_true_2 _ Ht).
Qed.

Lemma quarantine_process_out_of_range name now cm :
  ¬ quarantine_in_range (policy_for cm name) now →
  _quarantine_process name now cm = (Raised OverflowError, cm).
Proof.
  intros Hno.
  unfold _quarantine_process, timedelta_minutes, new_timedelta, datetime_add, minutes.
  destruct (decide (timedelta_min
                    ≤ quarantine_duration_minutes (policy_for cm name) * 60000000
                    ≤ timedelta_max)) as [Hd | Hd].
  - rewrite (bool_decide_eq_true_2 _ Hd). simpl.
    rewrite bool_decide_eq_false_2; [done |]. intros Ht. by apply Hno.
  - by rewrite (bool_decide_eq_false_2 _ Hd).
Qed.

(** Whatever its outcome, [_quarantine_process] leaves the disabled set,
    the rings, the policies and the dependencies as they are, and an
    exception leaves the quarantined set as it is, too. *)
Lemma quarantine_process_frame name now cm :
  let r := _quarantine_process name now cm in
  disabled_processes r.2 = disabled_processes cm
  ∧ crash_history r.2 = crash_history cm
  ∧ crash_policies r.2 = crash_policies cm
  ∧ dependencies r.2 = dependencies cm
  ∧ (∀ e, r.1 = Raised e → r.2 = cm).
Proof.
  unfold _quarantine_process.
  destruct (_ ← timedelta_minutes _; datetime_add now _); simpl; repeat split; done.
Qed.

Lemma execute_crash_action_history name action clk cm :
  crash_history (_execute_crash_action name action clk cm).2 = crash_history cm.
Proof.
  destruct action; simpl; try done.
  by destruct (quarantine_process_frame name (at_action clk) cm) as (_ & ? & _).
Qed.

(** Whatever its outcome, [record_crash] appends the event to the ring of
    the process and leaves the other rings as they are. *)
Lemma record_crash_history name reason code clk cm :
  crash_history (record_crash name reason code clk cm).2
  = crash_history (append_crash name (crash_event_of name reason code clk) cm).
Proof.
  unfold record_crash.
  destruct (_evaluate_crash_policy _ _ _) as [action | e]; [| done].
  pose proof (execute_crash_action_history name action clk
                (append_crash name (crash_event_of name reason code clk) cm)) as Hh.
  by destruct (_execute_crash_action name action clk _) as [[[] | e] cm2].
Qed.

Lemma record_crash_ring name reason code clk cm :
  ring (record_crash name reason code clk cm).2 name
  = deque_append 100 (crash_event_of name reason code clk) (ring cm name).
Proof.
  unfold ring at 1. rewrite record_crash_history. apply ring_append_crash.
Qed.

Lemma record_crash_ring_ne name name' reason code clk cm :
  name ≠ name' →
  ring (record_crash name reason code clk cm).2 name' = ring cm name'.
Proof.
  intros Hne. unfold ring at 1. rewrite record_crash_history.
  by apply ring_append_crash_ne.
Qed.

(** The outcome of [_execute_crash_action] when the quarantine, if it is
    the action, stays within the ranges. *)
Lemma execute_in_range name action clk cm :
  (action = QUARANTINE → quarantine_in_range (policy_for cm name) (at_action clk)) →
  (_execute_crash_action name action clk cm).1 = Returned tt.
Proof.
  intros Hq. destruct action; simpl; try done.
  by rewrite quarantine_process_in_range by by apply Hq.
Qed.

(** The event just recorded is among those counted when it lies within
    the window at the time of the evaluation. *)
Lemma new_crash_is_counted name (ev : CrashEvent) cutoff cm :
  cutoff < timestamp ev →
  ev ∈ recent_crashes cutoff (deque_append 100 ev (ring cm name)).
Proof.
  intros Hlt. unfold recent_crashes. apply list_elem_of_filter. split; [done |].
  eapply last_Some_elem_of, deque_append_last. lia.
Qed.

(** The outcome of [record_crash] within the ranges. *)
Lemma record_crash_in_range name reason code clk cm :
  policy_in_range (policy_for cm name) clk →
  (record_crash name reason code clk cm).1
  = Returned
      (if bool_decide
            (max_crashes (policy_for cm name)
             ≤ Z.of_nat (length (recent_crashes
                                   (at_eval clk
                                    - minutes (time_window_minutes (policy_for cm name)))
                                   (deque_append 100 (crash_event_of name reason code clk)
                                      (ring cm name)))))
       then action_on_threshold (policy_for cm name)
       else RESTART).
Proof.
  intros [Hw Hq]. unfold record_crash.
  rewrite evaluate_in_range by done.
  rewrite ring_append_crash, policy_for_append_crash.
  set (action := if bool_decide _ then _ else _).
  pose proof (execute_in_range name action clk
                (append_crash name (crash_event_of name reason code clk) cm)) as He.
  destruct (_execute_crash_action name action clk _) as [[[] | e] cm2]; simpl in *.
  - done.
  - discriminate He. intros Ha. apply Hq. unfold action in Ha.
    case_bool_decide; [done | discriminate].
Qed.

(** C5 (amended). [record_crash] keeps the 100 newest of the events
    recorded for the process, the new one included, and counts those of
    them whose timestamp is strictly later than the reading at the
    evaluation minus [time_window_minutes] minutes.  Let the policy's
    window and, when its action is [QUARANTINE], its quarantine stay within
    the ranges of [timedelta] and [datetime]: when the count equals
    [max_crashes] (or exceeds it) [record_crash] returns the policy's
    [action_on_threshold]; when it equals [max_crashes - 1] (or is smaller)
    it returns [RESTART].  When the window leaves these ranges,
    [record_crash] raises [OverflowError] after it has appended the event,
    and leaves the disabled and the quarantined set as they are. *)
Theorem C5_threshold_boundary name reason code clk cm :
  let policy := policy_for cm name in
  let recorded :=
    ring cm name
    ++ [{| timestamp := at_event clk; process_name := name; crash_reason := reason;
           exit_code := code; restart_attempt := 0 |}] in
  let kept := drop (length recorded - 100) recorded in
  let counted :=
    filter (λ ev, at_eval clk - time_window_minutes policy * 60000000 < timestamp ev)
      kept in
  let count := Z.of_nat (length counted) in
  let r := record_crash name reason code clk cm in
  ring r.2 name = kept
  ∧ (policy_in_range policy clk →
     (count = max_crashes policy → r.1 = Returned (action_on_threshold policy))
     ∧ (count = max_crashes policy - 1 → r.1 = Returned RESTART)
     ∧ (max_crashes policy ≤ count → r.1 = Returned (action_on_threshold policy))
     ∧ (count < max_crashes policy → r.1 = Returned RESTART))
  ∧ (¬ window_in_range policy (at_eval clk) →
     r.1 = Raised OverflowError
     ∧ disabled_processes r.2 = disabled_processes cm
     ∧ quarantined_processes r.2 = quarantined_processes cm).
Proof.
  intros policy recorded kept counted count r.
  assert (Hring : ring r.2 name = kept) by apply record_crash_ring.
  split; [exact Hring |]. split.
  - intros Hrange.
    pose proof (record_crash_in_range name reason code clk cm Hrange) as Hr.
    fold r in Hr.
    change (Z.of_nat (length (recent_crashes _ _))) with count in Hr.
    assert (Hge : max_crashes policy ≤ count →
                  r.1 = Returned (action_on_threshold policy)).
    { intros Hc. rewrite Hr. fold policy. by rewrite bool_decide_eq_true_2. }
    assert (Hlt : count < max_crashes policy → r.1 = Returned RESTART).
    { intros Hc. rewrite Hr. fold policy. rewrite bool_decide_eq_false_2; [done | lia]. }
    split; [intros Hc; apply Hge; lia |]. split; [intros Hc; apply Hlt; lia |]. done.
  - intros Hout. unfold r, record_crash.
    rewrite evaluate_out_of_range by (by rewrite policy_for_append_crash).
    done.
Qed.

Lemma C5_threshold_boundary_witness :
  let clk := Examples.crash_clock_at (2 * Examples.sec) in
  (policy_in_range (policy_for Examples.svc_two_crashes "svc") clk
   ∧ (record_crash "svc" "unexpected_exit" (Some 1) clk Examples.svc_two_crashes).1
     = Returned QUARANTINE)
  ∧ (policy_in_range (policy_for Examples.svc_one_crash "svc") clk
     ∧ (record_crash "svc" "unexpected_exit" (Some 1) clk Examples.svc_one_crash).1
       = Returned RESTART).
Proof.
  intros clk.
  assert (Hin : ∀ cm, policy_for cm "svc" = Examples.policy 3 QUARANTINE →
                      policy_in_range (policy_for cm "svc") clk).
  { intros cm ->. split; [| intros _]; vm_compute; repeat split; discriminate. }
  assert (H2 : policy_in_range (policy_for Examples.svc_two_crashes "svc") clk)
    by (apply Hin; vm_compute; reflexivity).
  assert (H1 : policy_in_range (policy_for Examples.svc_one_crash "svc") clk)
    by (apply Hin; vm_compute; reflexivity).
  split; (split; [assumption |]).
  - destruct (C5_threshold_boundary "svc" "unexpected_exit" (Some 1) clk
                Examples.svc_two_crashes) as (_ & Hin2 & _).
    destruct (Hin2 H2) as (Hat & _).
    apply Hat. vm_compute. reflexivity.
  - destruct (C5_threshold_boundary "svc" "unexpected_exit" (Some 1) clk
                Examples.svc_one_crash) as (_ & Hin1 & _).
    destruct (Hin1 H1) as (_ & Hbelow & _).
    apply Hbelow. vm_compute. reflexivity.
Defined.

(** Under a policy of 101 crashes in ten minutes, ["svc"] has crashed
    100 times between 1 s and 100 s and crashes again at 101 s: all 101
    crashes lie within the window, the ring holds the 100 newest, and
    [record_crash] returns [RESTART]. *)
Lemma C5_counterexample :
  let cm := Examples.svc_hundred_crashes in
  let clk := Examples.crash_clock_at (101 * Examples.sec) in
  let r := record_crash "svc" "unexpected_exit" (Some 1) clk cm in
  max_crashes (policy_for cm "svc") = 101
  ∧ time_window_minutes (policy_for cm "svc") = 10
  ∧ action_on_threshold (policy_for cm "svc") = DISABLE
  ∧ length (ring cm "svc") = 100%nat
  ∧ Forall (λ ev, at_eval clk - minutes 10 < timestamp ev) (ring cm "svc")
  ∧ at_eval clk - minutes 10 < at_event clk
  ∧ r.1 = Returned RESTART
  ∧ length (ring r.2 "svc") = 100%nat.
Proof.
  vm_compute. repeat split; try reflexivity.
  repeat (constructor; [reflexivity |]). constructor.
Qed.

(** *** The gate *)

Lemma can_restart_false_iff name now now' cm :
  (can_restart_process name now now' cm).1.1 = false
  ↔ is_disabled cm name
    ∨ ∃ expiry, quarantined_processes cm !! name = Some expiry ∧ now < expiry.
Proof.
  unfold can_restart_process, is_disabled.
  destruct (disabled_processes cm !! name) as [d|] eqn:Hd; simpl.
  { split; [eauto | done]. }
  destruct (quarantined_processes cm !! name) as [u|] eqn:Hq; simpl.
  - case_bool_decide as Hlt; simpl.
    + split; [| done]. intros _. right. eauto.
    + split; [done |]. intros [[? [=]] | (u' & [= <-] & ?)]. lia.
  - split; [done |]. intros [[? [=]] | (u' & [=] & ?)].
Qed.

Lemma can_restart_expired name now now' cm expiry :
  ¬ is_disabled cm name →
  quarantined_processes cm !! name = Some expiry →
  expiry ≤ now →
  can_restart_process name now now' cm
  = ((true, CanBeRestarted),
     with_quarantined (delete name (quarantined_processes cm)) cm).
Proof.
  intros Hd Hq Hle. unfold can_restart_process, is_disabled in *.
  destruct (disabled_processes cm !! name) as [d|]; [by destruct Hd |].
  rewrite Hq. rewrite bool_decide_eq_false_2; [done | lia].
Qed.

(** C6 (amended). [can_restart(name)] answers [false] exactly when the
    name is disabled or is quarantined with an expiry strictly later than
    [now]; for a name that is not disabled, a quarantine entry whose expiry
    is at most [now] is removed by the call, which answers [true] and
    changes nothing else. *)
Theorem C6_gate name now now' cm :
  ((can_restart_process name now now' cm).1.1 = false
   ↔ is_disabled cm name
     ∨ ∃ expiry, quarantined_processes cm !! name = Some expiry ∧ now < expiry)
  ∧ (∀ expiry,
       ¬ is_disabled cm name →
       quarantined_processes cm !! name = Some expiry →
       expiry ≤ now →
       let cm' := (can_restart_process name now now' cm).2 in
       (can_restart_process name now now' cm).1.1 = true
       ∧ ¬ is_quarantined cm' name
       ∧ quarantined_processes cm' = delete name (quarantined_processes cm)
       ∧ disabled_processes cm' = disabled_processes cm
       ∧ crash_history cm' = crash_history cm).
Proof.
  split; [apply can_restart_false_iff |].
  intros expiry Hd Hq Hle cm'. unfold cm'.
  rewrite (can_restart_expired _ _ _ _ _ Hd Hq Hle). simpl.
  repeat split; try done.
  unfold is_quarantined; simpl. rewrite lookup_delete_eq. by intros [? [=]].
Qed.

Lemma C6_gate_witness :
  let cm := Examples.svc_quarantined in
  let now := 3600 * Examples.sec in
  (¬ is_disabled cm "svc"
   ∧ quarantined_processes cm !! "svc" = Some now
   ∧ now ≤ now)
  ∧ (can_restart_process "svc" now now cm).1.1 = true
  ∧ ¬ is_quarantined (can_restart_process "svc" now now cm).2 "svc".
Proof.
  intros cm now.
  assert (Hd : ¬ is_disabled cm "svc") by (intros [? H]; vm_compute in H; discriminate).
  assert (Hq : quarantined_processes cm !! "svc" = Some now) by (vm_compute; reflexivity).
  assert (Hle : now ≤ now) by lia.
  split; [done |].
  destruct (proj2 (C6_gate "svc" now now cm) now Hd Hq Hle) as (Ht & Hn & _).
  split; assumption.
Defined.

(** On the state that the dependency cascade leaves, ["api"] is disabled
    and its quarantine expires exactly at [now]: the gate answers
    [false] and the expired entry stays in the quarantined set. *)
Lemma C6_counterexample :
  let cm := Examples.after_cascade in
  let now := 3600 * Examples.sec in
  disabled_processes cm !! "api" = Some Examples.sec
  ∧ quarantined_processes cm !! "api" = Some now
  ∧ (can_restart_process "api" now now cm).1.1 = false
  ∧ quarantined_processes (can_restart_process "api" now now cm).2 !! "api" = Some now.
Proof. vm_compute. repeat split. Qed.

(** *** The disabled and the quarantined set *)

(** Each call leaves one of the two sets without a new member. *)
Lemma step_grows_one_set cm c :
  (∀ name, is_disabled (step cm c) name → is_disabled cm name)
  ∨ (∀ name, is_quarantined (step cm c) name → is_quarantined cm name).
Proof.
  destruct c as [n r code clk | n pol | n d | n d | n now now' | n | now | n]; simpl.
  - unfold record_crash.
    destruct (_evaluate_crash_policy _ _ _) as [action | e]; [| by left].
    destruct action; simpl; [by left | by right | by right |].
    destruct (quarantine_process_frame n (at_action clk)
                (append_crash n (crash_event_of n r code clk) cm)) as (Hd & _).
    left. intros name. unfold is_disabled.
    destruct (_quarantine_process n (at_action clk) _) as [[[] | e] cm2];
      simpl in *; by rewrite Hd.
  - by left.
  - by left.
  - left. unfold remove_dependency. by destruct (dependencies cm !! d).
  - left. unfold can_restart_process.
    destruct (disabled_processes cm !! n); [done |].
    destruct (quarantined_processes cm !! n); [| done].
    by case_bool_decide.
  - right. intros name. unfold force_enable_process, is_quarantined; simpl.
    repeat case_bool_decide; simpl; try done;
      rewrite ?lookup_delete; repeat case_decide; try done; by intros [? [=]].
  - by left.
  - left. unfold reset_crash_history. by destruct (crash_history cm !! n).
Qed.

(** C2 (amended). A call never puts a name into both sets: a name that
    is disabled and quarantined after a call was already in one of the
    two sets before it. *)
Theorem C2_one_set_per_call cm c name :
  is_disabled (step cm c) name →
  is_quarantined (step cm c) name →
  is_disabled cm name ∨ is_quarantined cm name.
Proof.
  intros Hd Hq. destruct (step_grows_one_set cm c) as [H | H]; [left | right]; auto.
Qed.

Lemma C2_one_set_per_call_witness :
  let cm := Crash.run (take 4 Examples.cascade_calls) Crash.init in
  let c := Examples.crash "db" Examples.sec in
  (is_disabled (step cm c) "api" ∧ is_quarantined (step cm c) "api")
  ∧ (is_disabled cm "api" ∨ is_quarantined cm "api").
Proof.
  intros cm c.
  assert (Hd : is_disabled (step cm c) "api") by (vm_compute; eauto).
  assert (Hq : is_quarantined (step cm c) "api") by (vm_compute; eauto).
  split; [done |].
  exact (C2_one_set_per_call cm c "api" Hd Hq).
Defined.

(** After the dependency cascade ["api"] is in both sets. *)
Lemma C2_counterexample : ¬ disjoint_sets Examples.after_cascade.
Proof.
  intros H. apply (H "api"). split; vm_compute; eauto.
Qed.

(** So it is after a change of policy between two crashes. *)
Lemma policy_change_breaks_disjointness : ¬ disjoint_sets Examples.after_policy_change.
Proof.
  intros H. apply (H "svc"). split; vm_compute; eauto.
Qed.

(** [force_enable] takes the name out of both sets. *)
Lemma force_enable_clears name cm :
  let cm' := (force_enable_process name cm).2 in
  ¬ is_disabled cm' name ∧ ¬ is_quarantined cm' name.
Proof.
  unfold force_enable_process, is_disabled, is_quarantined; simpl.
  repeat case_bool_decide; simpl;
    rewrite ?lookup_delete_eq; split; try done; by intros [? [=]].
Qed.
End CrashPolicyEngine.

(** ** Supervisor *)
Section SupervisorFacts.
Import Python Datetime Models Supervisor.
Local Open Scope Z_scope.

Implicit Types (pm : ProcessManager) (n : string) (p : ManagedProcess).

(** *** Properties of every registered process *)

Lemma every_mutate P n f pm :
  (∀ p, P p → P (f p)) → every P pm → every P (mutate n f pm).
Proof.
  intros Hf Hpm n' p'. unfold mutate; simpl.
  rewrite lookup_alter. case_decide as Hn; [subst n' | by apply Hpm].
  destruct (processes pm !! n) as [p|] eqn:Hp; simpl; [| done].
  intros [= <-]. apply Hf. by eapply Hpm.
Qed.

Lemma every_with_handles P hs pm : every P pm → every P (with_handles hs pm).
Proof. done. Qed.

Lemma every_with_order P l pm : every P pm → every P (with_order l pm).
Proof. done. Qed.

Lemma every_delete P n pm :
  every P pm → every P (with_processes (delete n (processes pm)) pm).
Proof.
  intros Hpm n' p'; simpl. rewrite lookup_delete_Some. intros [_ H]. by eapply Hpm.
Qed.

Lemma every_insert P n p pm :
  P p → every P pm → every P (with_processes (<[n := p]> (processes pm)) pm).
Proof.
  intros Hp Hpm n' p'; simpl. rewrite lookup_insert_Some.
  intros [[_ <-] | [_ H]]; [done | by eapply Hpm].
Qed.

Lemma every_foldl P (f : ProcessManager → string → ProcessManager) (l : list string) pm :
  (∀ pm' n', every P pm' → every P (f pm' n')) →
  every P pm → every P (foldl f pm l).
Proof.
  intros Hf. revert pm. induction l as [| x l IH]; intros pm Hpm; simpl; [done |].
  apply IH. by apply Hf.
Qed.

(** The state that the body of the sweep's loop leaves. *)
Lemma auto_restart_one_state env pm n :
  (auto_restart_one env pm n).2
  = match processes pm !! n with
    | Some p =>
        if bool_decide (status p = FAILED) && auto_restart (config p)
           && bool_decide (restart_count p < max_restarts (config p))
        then (restart_process n (env n) pm).2
        else pm
    | None => pm
    end.
Proof.
  unfold auto_restart_one. destruct (processes pm !! n) as [p|]; [| done].
  destruct (_ && _); [| done].
  by destruct (restart_process n (env n) pm) as [[b | e] pm'].
Qed.

(** What every pass of the loop keeps, the sweep keeps, whether or not
    an exception ends it. *)
Lemma sweep_preserves (I : ProcessManager → Prop) env (l : list string) pm :
  (∀ pm' n', I pm' → I (auto_restart_one env pm' n').2) →
  I pm → I (sweep env l pm).2.
Proof.
  intros Hone. revert pm. induction l as [| n l IH]; intros pm Hpm; simpl; [done |].
  specialize (Hone pm n Hpm).
  destruct (auto_restart_one env pm n) as [[[] | e] pm']; simpl in *; [| done].
  by apply IH.
Qed.

(** *** The metrics history *)





(** What goes in a compaction is a prefix: the oldest samples. *)
Lemma append_metrics_suffix (m : ProcessMetrics) (h : list ProcessMetrics) :
  ∃ oldest, h ++ [m] = oldest ++ append_metrics m h.
Proof.
  unfold append_metrics. case_bool_decide.
  - eexists. symmetry. apply drop_is_suffix.
  - by exists [].
Qed.

















(** *** Starting a running process *)

(** C10. [start] on a process whose status is [RUNNING] answers [true]
    and leaves the manager as it was, whatever a spawn would have given:
    the registry (pid, status, [started_at], [restart_count]) and the
    handles are unchanged. *)
Theorem C10_start_running_unchanged n env pm process :
  processes pm !! n = Some process →
  status process = RUNNING →
  start_process n env pm = (true, pm).
Proof.
  intros Hp Hs. unfold start_process. rewrite Hp.
  by rewrite bool_decide_eq_true_2.
Qed.

Lemma C10_start_running_unchanged_witness :
  ∃ process,
    (processes Examples.svc_running !! "svc" = Some process ∧ status process = RUNNING)
    ∧ start_process "svc" (Examples.spawned 4343 Examples.sec) Examples.svc_running
      = (true, Examples.svc_running).
Proof.
  eexists. split.
  - split; vm_compute; reflexivity.
  - eapply C10_start_running_unchanged; vm_compute; reflexivity.
Defined.

(** *** pid and status *)

Lemma every_alter P n F pm pm' :
  processes pm' = alter F n (processes pm) →
  (∀ p, processes pm !! n = Some p → P p → P (F p)) →
  every P pm → every P pm'.
Proof.
  intros Heq HF H n' p' Hl. rewrite Heq, lookup_alter in Hl.
  case_decide as Hn; [subst n' | by eapply H].
  destruct (processes pm !! n) as [p|] eqn:Hp; simpl in Hl; [| done].
  injection Hl as <-. apply HF; [done |]. by eapply H.
Qed.

Lemma settled_matches p : settled p → pid_matches_status p.
Proof.
  intros [Hpid Hst]. unfold pid_matches_status. rewrite Hpid.
  split; [by left | by intros [? | ?]].
Qed.

Lemma start_process_settled n env pm :
  every settled pm → every settled (start_process n env pm).2.
Proof.
  intros H. unfold start_process.
  destruct (processes pm !! n) as [p|] eqn:Hp; [| done].
  case_bool_decide as Hs; [done |].
  destruct (spawn env) as [child|]; simpl.
  - eapply every_alter; [| | exact H].
    + unfold mutate; simpl. rewrite alter_alter_eq. reflexivity.
    + intros p0 _ _. unfold settled; simpl. split; [| done].
      split; [done | eauto].
  - eapply every_alter; [| | exact H].
    + unfold mutate; simpl. rewrite alter_alter_eq. reflexivity.
    + intros p0 Hp0 [Hpid _]. rewrite Hp in Hp0. injection Hp0 as <-.
      unfold settled; simpl. split; [| done].
      split; [| done]. intros Hsome. by apply Hpid in Hsome.
Qed.

Lemma stop_process_settled n force env pm :
  signalled env = true →
  every settled pm → every settled (stop_process n force env pm).2.
Proof.
  intros Hsig H. unfold stop_process.
  destruct (processes pm !! n) as [p|] eqn:Hp; [| done].
  case_bool_decide as Hs; [done |]. rewrite Hsig.
  assert (Hstopped : ∀ p0, settled (set_pid None (set_status STOPPED (set_status STOPPING p0)))).
  { intros p0. unfold settled; simpl. split; [| done]. split; [by intros [? [=]] | done]. }
  destruct (_subprocess_handles _ !! n); simpl.
  - eapply every_alter; [| | exact H].
    + unfold mutate; simpl. rewrite alter_alter_eq. reflexivity.
    + intros p0 _ _. apply Hstopped.
  - eapply every_alter; [| | exact H].
    + unfold mutate; simpl. rewrite alter_alter_eq. reflexivity.
    + intros p0 _ _. apply Hstopped.
Qed.

Lemma restart_process_settled n env pm :
  (∀ p, processes pm !! n = Some p → status p = RUNNING →
        signalled (restart_stop env) = true) →
  every settled pm → every settled (restart_process n env pm).2.
Proof.
  intros Hsig H. unfold restart_process.
  destruct (processes pm !! n) as [p|] eqn:Hp; [| done].
  destruct (if bool_decide (status p = RUNNING)
            then stop_process n false (restart_stop env) pm else (true, pm))
    as [stopped pm1] eqn:E.
  assert (H1 : every settled pm1).
  { case_bool_decide as Hs.
    - pose proof (stop_process_settled n false (restart_stop env) pm
                    (Hsig p eq_refl Hs) H) as Hstop.
      by rewrite E in Hstop.
    - by injection E as _ <-. }
  destruct stopped; simpl; [| done].
  destruct (sleep _) as [[] | e]; [| done].
  pose proof (start_process_settled n (restart_start env) pm1 H1) as Hstart.
  destruct (start_process n (restart_start env) pm1) as [started pm2].
  destruct started; simpl in *; [| done].
  apply every_mutate; [| done]. by intros p0 Hp0.
Qed.

Lemma step_settled pm op :
  signals_delivered op → every settled pm → every settled (step pm op).
Proof.
  intros Hsig H. destruct op; simpl in *.
  - unfold add_process. destruct (processes pm !! name cfg); [done |]. simpl.
    apply every_with_order, every_insert; [| done].
    unfold settled; simpl. split; [| done]. split; [by intros [? [=]] | done].
  - unfold remove_process. destruct (processes pm !! n) as [p|]; [| done]. simpl.
    apply every_with_handles, every_with_order, every_delete.
    case_bool_decide; [by apply stop_process_settled | done].
  - by apply start_process_settled.
  - by apply stop_process_settled.
  - apply restart_process_settled; auto.
  - unfold get_process_metrics. destruct (processes pm !! n) as [p|]; [| done].
    destruct (no_pid _); [done |].
    destruct (probe env); simpl.
    + apply every_mutate; [| done]. by intros p0 Hp0.
    + apply every_mutate; [| done]. intros p0 _. unfold settled; simpl.
      split; [| done]. split; [by intros [? [=]] | done].
  - unfold check_process_health. destruct (processes pm !! n) as [p|]; [| done].
    destruct (_subprocess_handles pm !! n); [destruct (poll env) |]; simpl; try done.
    apply every_with_handles, every_mutate; [| done]. intros p0 _. unfold settled; simpl.
    split; [| done]. split; [by intros [? [=]] | done].
  - unfold auto_restart_failed_processes.
    apply sweep_preserves; [| done]. intros pm' n' H'.
    rewrite auto_restart_one_state.
    destruct (processes pm' !! n') as [p|] eqn:Hp; [| done].
    destruct (bool_decide (status p = FAILED)) eqn:Hf; simpl; [| done].
    destruct (_ && _); [| done].
    apply restart_process_settled; [| done].
    intros p0 Hp0 Hrun. rewrite Hp in Hp0. injection Hp0 as <-.
    apply bool_decide_eq_true in Hf. congruence.
  - apply every_foldl; [| done]. intros pm' n' H'. unfold cleanup_one.
    destruct (processes pm' !! n'); [| done].
    case_bool_decide; [by apply stop_process_settled | done].
Qed.

(** As long as every signal is delivered, the pid is present exactly in
    the states [RUNNING] and [STOPPING] in every state the supervisor
    reaches. *)
Lemma pid_matches_status_when_signals_delivered ops :
  Forall signals_delivered ops →
  every pid_matches_status (run ops Supervisor.init).
Proof.
  intros Hops.
  assert (H : every settled (run ops Supervisor.init)).
  { assert (H0 : every settled Supervisor.init).
    { intros n p. simpl. by rewrite lookup_empty. }
    revert H0. generalize Supervisor.init.
    induction Hops as [| op ops Hop _ IH]; intros pm H0; simpl; [done |].
    apply IH. by apply step_settled. }
  intros n p Hp. apply settled_matches. by eapply H.
Qed.

(** C9 fails on the code.  ["svc"] is started (pid 4242); a stop request
    whose signal cannot be delivered leaves it [STOPPING] with its pid; a
    start that then fails to spawn sets [FAILED] and keeps the pid, where
    the other transitions into [FAILED] clear it. *)
Theorem C9_failed_start_keeps_pid :
  ∃ p,
    processes (run Examples.stale_pid_ops Supervisor.init) !! "svc" = Some p
    ∧ status p = FAILED
    ∧ pid p = Some 4242
    ∧ ¬ pid_matches_status p.
Proof.
  eexists. split; [vm_compute; reflexivity |]. simpl.
  split; [done |]. split; [done |].
  unfold pid_matches_status; simpl. intros [H _].
  destruct H as [[=] | [=]]. eauto.
Qed.
End SupervisorFacts.

(** ** Restarts and the crash manager *)
Section RestartsAndCrashes.
Import Python Datetime Models Enhanced.
Local Open Scope Z_scope.

Implicit Types (m : EnhancedProcessManager) (n name : string).

Lemma inherited_crash_manager {A}
    (f : Supervisor.ProcessManager → A * Supervisor.ProcessManager) m :
  crash_manager (inherited f m).2 = crash_manager m.
Proof. unfold inherited. by destruct (f (base m)). Qed.

Lemma can_restart_history name now now' cm :
  Crash.crash_history (Crash.can_restart_process name now now' cm).2
  = Crash.crash_history cm.
Proof.
  unfold Crash.can_restart_process.
  destruct (Crash.disabled_processes cm !! name); [done |].
  destruct (Crash.quarantined_processes cm !! name); [| done].
  by case_bool_decide.
Qed.

Lemma can_restart_ring n name now now' cm :
  Crash.ring (Crash.can_restart_process n now now' cm).2 name = Crash.ring cm name.
Proof. unfold Crash.ring. by rewrite can_restart_history. Qed.

(** The crash manager after [intelligent_restart], when the process is
    registered: that of the gate if the gate refuses, and otherwise that
    of [record_crash] run after the gate. *)
Lemma intelligent_restart_crash_manager n env m process :
  Supervisor.processes (base m) !! n = Some process →
  let gate := Crash.can_restart_process n (gate_now env) (gate_now' env)
                (crash_manager m) in
  crash_manager (intelligent_restart n env m).2
  = if gate.1.1
    then (Crash.record_crash n "restart_requested" None (crash_clock env) gate.2).2
    else gate.2.
Proof.
  intros Hp gate. unfold intelligent_restart. rewrite Hp. fold gate.
  destruct gate as [[can reason] cm1]; simpl.
  destruct can; simpl; [| done].
  destruct (Crash.record_crash n "restart_requested" None (crash_clock env) cm1)
    as [[recorded | e] cm2]; simpl; [| done].
  destruct (_ && _).
  - destruct (action _); try done; unfold restart_process;
      by rewrite inherited_crash_manager.
  - unfold restart_process. by rewrite inherited_crash_manager.
Qed.

(** C4 (amended). [restart_process] and the auto-restart sweep leave the
    crash manager, and so every crash ring, as it was.
    [intelligent_restart] of a registered process leaves every ring as it
    was when its gate refuses; when its gate allows the restart it appends
    one ["restart_requested"] event to the ring of the process and leaves
    the other rings as they were. *)
Theorem C4_restarts_and_crash_ring n env renv senv m process name :
  Supervisor.processes (base m) !! n = Some process →
  let allowed := (Crash.can_restart_process n (gate_now env) (gate_now' env)
                    (crash_manager m)).1.1 in
  crash_manager (restart_process n renv m).2 = crash_manager m
  ∧ crash_manager (auto_restart_failed_processes senv m).2 = crash_manager m
  ∧ (allowed = false →
     crash_ring (intelligent_restart n env m).2 name = crash_ring m name)
  ∧ (allowed = true →
     crash_ring (intelligent_restart n env m).2 n
     = Crash.deque_append 100
         (Crash.crash_event_of n "restart_requested" None (crash_clock env))
         (crash_ring m n)
     ∧ (n ≠ name →
        crash_ring (intelligent_restart n env m).2 name = crash_ring m name)).
Proof.
  intros Hp allowed.
  split; [apply inherited_crash_manager |].
  split; [apply inherited_crash_manager |].
  unfold crash_ring. rewrite (intelligent_restart_crash_manager _ _ _ _ Hp).
  cbv zeta. fold allowed. split; intros ->; cbv iota.
  - apply can_restart_ring.
  - split.
    + by rewrite record_crash_ring, can_restart_ring.
    + intros Hne. by rewrite record_crash_ring_ne, can_restart_ring.
Qed.

Lemma C4_restarts_and_crash_ring_witness :
  let m := Examples.enhanced_running in
  let env := Examples.intelligent_env Examples.sec in
  (∃ process, Supervisor.processes (base m) !! "svc" = Some process)
  ∧ (Crash.can_restart_process "svc" (gate_now env) (gate_now' env)
       (crash_manager m)).1.1 = true
  ∧ crash_ring (intelligent_restart "svc" env m).2 "svc"
    = Crash.deque_append 100
        (Crash.crash_event_of "svc" "restart_requested" None (crash_clock env))
        (crash_ring m "svc").
Proof.
  intros m env.
  assert (Hp : Supervisor.processes (base m) !! "svc"
               = Some (set_status RUNNING (set_started_at (Some 0)
                         (set_pid (Some 4242) (set_status STARTING
                            (new_process (Examples.config_of "svc")))))))
    by (vm_compute; reflexivity).
  assert (Hg : (Crash.can_restart_process "svc" (gate_now env) (gate_now' env)
                  (crash_manager m)).1.1 = true) by (vm_compute; reflexivity).
  split; [eauto |]. split; [done |].
  destruct (C4_restarts_and_crash_ring "svc" env (restart_env env)
              (λ _, restart_env env) m _ "svc" Hp) as (_ & _ & _ & H).
  exact (proj1 (H Hg)).
Defined.

(** [intelligent_restart] of a running process without crashes records
    a crash event: the ring is empty before the call and holds one
    ["restart_requested"] event after it. *)
Lemma C4_counterexample :
  let m := Examples.enhanced_running in
  let env := Examples.intelligent_env Examples.sec in
  crash_ring m "svc" = []
  ∧ (intelligent_restart "svc" env m).1 = Returned true
  ∧ crash_ring (intelligent_restart "svc" env m).2 "svc"
    = [Crash.crash_event_of "svc" "restart_requested" None (crash_clock env)].
Proof. vm_compute. repeat split. Qed.

(** *** The auto-restart sweep *)

(** C1 fails on the code.  ["svc"] is [FAILED], has [auto_restart] and
    one restart out of five, and is in the disabled set, so the gate
    refuses it; the sweep restarts it all the same. *)
Theorem C1_sweep_restarts_disabled_process :
  let m := Examples.failed_and_disabled in
  let now := 2 * Examples.sec in
  let m' := (auto_restart_failed_processes (λ _, Examples.restart_with 4444 now) m).2 in
  (∃ p, Supervisor.processes (base m) !! "svc" = Some p
        ∧ status p = FAILED
        ∧ auto_restart (config p) = true
        ∧ restart_count p < max_restarts (config p))
  ∧ Crash.is_disabled (crash_manager m) "svc"
  ∧ (Crash.can_restart_process "svc" now now (crash_manager m)).1.1 = false
  ∧ (∃ p', Supervisor.processes (base m') !! "svc" = Some p'
           ∧ status p' = RUNNING
           ∧ pid p' = Some 4444
           ∧ restart_count p' = 2).
Proof.
  intros m now m'. split; [| split; [| split]].
  - eexists. split; [vm_compute; reflexivity |]. simpl. repeat split; lia.
  - vm_compute. eauto.
  - vm_compute. reflexivity.
  - eexists. split; [vm_compute; reflexivity |]. simpl. repeat split.
Qed.
End RestartsAndCrashes.

(** ** Alert manager *)
Section AlertManagerFacts.
Import Datetime Alerting.
Local Open Scope Z_scope.

Implicit Types (am : AlertManager) (a : Alert) (c : Call) (alert_id : AlertId).

Lemma cooldown_duration_nonneg : 0 ≤ _cooldown_duration.
Proof. unfold _cooldown_duration, minutes. lia. Qed.

(** *** Cooldown *)

Lemma set_acknowledged_keeps b : keeps_identity (set_acknowledged b).
Proof. by intros a. Qed.

Lemma set_resolved_keeps b : keeps_identity (set_resolved b).
Proof. by intros a. Qed.

Lemma lookup_alter_flag f (objs : list Alert) (ref r : nat) a' :
  keeps_identity f →
  alter f ref objs !! r = Some a' →
  ∃ a, objs !! r = Some a ∧ id a' = id a ∧ key_of a' = key_of a
       ∧ timestamp a' = timestamp a.
Proof.
  intros Hf. rewrite list_lookup_alter. case_decide as Hr.
  - subst r. destruct (objs !! ref) as [a|]; simpl; [| done].
    intros [= <-]. exists a. split; [done |]. apply Hf.
  - intros H. by exists a'.
Qed.

Lemma flags_keep_spacing f (ref : nat) l h am :
  keeps_identity f →
  spaced am ∧ cooldown_covers am →
  let am' := {| objects := alter f ref (objects am); alerts := l;
                alert_history := h; _alert_cooldowns := _alert_cooldowns am |} in
  spaced am' ∧ cooldown_covers am'.
Proof.
  intros Hf [Hs Hc] am'. split.
  - intros i j a a' Hij Hi Hj Hk. simpl in Hi, Hj.
    apply (lookup_alter_flag _ _ _ _ _ Hf) in Hi as (a0 & Hi & _ & Hki & Hti).
    apply (lookup_alter_flag _ _ _ _ _ Hf) in Hj as (a0' & Hj & _ & Hkj & Htj).
    rewrite Hti, Htj. eapply Hs; [done | done | done | congruence].
  - intros r a Hr. simpl in Hr.
    apply (lookup_alter_flag _ _ _ _ _ Hf) in Hr as (a0 & Hr & _ & Hkr & Htr).
    simpl. rewrite Hkr, Htr. by eapply Hc.
Qed.

Lemma not_in_cooldown key now am expiry :
  in_cooldown key now am = false →
  _alert_cooldowns am !! key = Some expiry →
  expiry ≤ now.
Proof.
  unfold in_cooldown. intros H Hk. rewrite Hk in H.
  apply bool_decide_eq_false in H. lia.
Qed.

Lemma in_cooldown_before key now am expiry :
  _alert_cooldowns am !! key = Some expiry →
  now < expiry →
  in_cooldown key now am = true.
Proof.
  unfold in_cooldown. intros -> Hlt. by apply bool_decide_eq_true.
Qed.

Lemma in_cooldown_over key now am :
  _alert_cooldowns am !! key = None
  ∨ (∃ expiry, _alert_cooldowns am !! key = Some expiry ∧ expiry ≤ now) →
  in_cooldown key now am = false.
Proof.
  unfold in_cooldown, datetime. intros [Hnone | (expiry & Hsome & Hle)].
  - by rewrite Hnone.
  - rewrite Hsome. apply bool_decide_eq_false. lia.
Qed.

Lemma create_alert_keeps_spacing t lvl ttl msg pname meta clk am :
  monotone clk →
  spaced am ∧ cooldown_covers am →
  let am' := (create_alert t lvl ttl msg pname meta clk am).2 in
  spaced am' ∧ cooldown_covers am'.
Proof.
  intros [Hm1 Hm2] [Hs Hc]. unfold create_alert.
  destruct (in_cooldown _ _ _) eqn:Hcool; [done |]. simpl.
  pose proof cooldown_duration_nonneg as Hcd.
  split.
  - intros i j a a' Hij Hi Hj Hk. simpl in Hi, Hj.
    pose proof (lookup_lt_Some _ _ _ Hj) as Hjl.
    rewrite length_app in Hjl; simpl in Hjl.
    rewrite lookup_app_l in Hi by lia.
    destruct (decide (j < length (objects am))%nat) as [Hlt | Hge].
    + rewrite lookup_app_l in Hj by lia. exact (Hs i j a a' Hij Hi Hj Hk).
    + assert (j = length (objects am)) as -> by lia.
      rewrite list_lookup_middle in Hj by done. injection Hj as <-.
      destruct (Hc _ _ Hi) as (expiry & Hexp & Hle).
      rewrite Hk in Hexp. unfold key_of in Hexp; simpl in Hexp.
      pose proof (not_in_cooldown _ _ _ _ Hcool Hexp). simpl. lia.
  - intros r a Hr. simpl in Hr. simpl.
    destruct (decide (r < length (objects am))%nat) as [Hlt | Hge].
    + rewrite lookup_app_l in Hr by lia.
      destruct (Hc _ _ Hr) as (expiry & Hexp & Hle).
      destruct (decide (alert_key t pname = key_of a)) as [Heq | Hne].
      * rewrite <- Heq in *. rewrite lookup_insert_eq. eexists. split; [done |].
        pose proof (not_in_cooldown _ _ _ _ Hcool Hexp). lia.
      * rewrite lookup_insert_ne by done. eauto.
    + pose proof (lookup_lt_Some _ _ _ Hr) as Hrl.
      rewrite length_app in Hrl; simpl in Hrl.
      assert (r = length (objects am)) as -> by lia.
      rewrite list_lookup_middle in Hr by done. injection Hr as <-.
      unfold key_of; simpl. rewrite lookup_insert_eq. eexists. split; [done |]. lia.
Qed.

Lemma step_keeps_spacing am c :
  monotone_call c →
  spaced am ∧ cooldown_covers am →
  spaced (step am c) ∧ cooldown_covers (step am c).
Proof.
  intros Hm H. destruct c as [t lvl ttl msg pname meta clk | alert_id | alert_id]; simpl.
  - by apply create_alert_keeps_spacing.
  - unfold acknowledge_alert. destruct (find_active _ _) as [[i ref]|]; [| done].
    apply flags_keep_spacing; [apply set_acknowledged_keeps | done].
  - unfold resolve_alert. destruct (find_active _ _) as [[i ref]|]; [| done].
    apply flags_keep_spacing; [apply set_resolved_keeps | done].
Qed.

Lemma run_keeps_spacing calls am :
  Forall monotone_call calls →
  spaced am ∧ cooldown_covers am →
  spaced (run calls am) ∧ cooldown_covers (run calls am).
Proof.
  intros Hm. revert am. induction Hm as [| c calls Hc _ IH]; intros am H; simpl; [done |].
  apply IH. by apply step_keeps_spacing.
Qed.

Lemma init_spacing : spaced Alerting.init ∧ cooldown_covers Alerting.init.
Proof. split; intros ?; intros; simpl in *; by rewrite ?lookup_nil in *. Qed.

(** A call that does not ask for the key leaves its cooldown as it is. *)
Lemma step_cooldown_other key am c :
  ¬ creates_key key c →
  _alert_cooldowns (step am c) !! key = _alert_cooldowns am !! key.
Proof.
  intros Hk. destruct c as [t lvl ttl msg pname meta clk | alert_id | alert_id]; simpl.
  - unfold create_alert. destruct (in_cooldown _ _ _); [done |]. simpl.
    by apply lookup_insert_ne.
  - unfold acknowledge_alert. by destruct (find_active _ _) as [[i ref]|].
  - unfold resolve_alert. by destruct (find_active _ _) as [[i ref]|].
Qed.

Lemma run_cooldown_other key calls am :
  Forall (λ c, ¬ creates_key key c) calls →
  _alert_cooldowns (run calls am) !! key = _alert_cooldowns am !! key.
Proof.
  intros H. revert am. induction H as [| c calls Hc _ IH]; intros am; simpl; [done |].
  by rewrite IH, step_cooldown_other.
Qed.

Lemma create_alert_suppressed t lvl ttl msg pname meta clk am :
  in_cooldown (alert_key t pname) (at_check clk) am = true →
  create_alert t lvl ttl msg pname meta clk am = (None, am).
Proof. intros H. unfold create_alert. by rewrite H. Qed.

Lemma create_alert_accepted t lvl ttl msg pname meta clk am :
  in_cooldown (alert_key t pname) (at_check clk) am = false →
  create_alert t lvl ttl msg pname meta clk am
  = (Some (length (objects am)),
     {| objects :=
          objects am
          ++ [{| id := alert_id_of t clk; alert_type := t; level := lvl;
                 title := ttl; message := msg; process_name := pname;
                 timestamp := at_stamp clk; acknowledged := false;
                 resolved := false; metadata := default ∅ meta |}];
        alerts := alerts am ++ [length (objects am)];
        alert_history := compact (alert_history am ++ [length (objects am)]);
        _alert_cooldowns :=
          <[alert_key t pname := at_cooldown clk + _cooldown_duration]>
            (_alert_cooldowns am) |}).
Proof. intros H. unfold create_alert. by rewrite H. Qed.

(** C3 (amended). Let the clock never go back during a call of
    [create_alert], from its cooldown test to the timestamp of the alert
    and on to the new cooldown.  In every state the alert manager reaches,
    two accepted alerts with the same key have timestamps at least
    5 minutes apart.  A call whose key has a cooldown that ends after the
    reading of its cooldown test returns [None] and leaves the manager as
    it was.  A call whose key has no cooldown, or one that has ended at
    that reading, is accepted: it returns the new alert, built from its
    arguments and unacknowledged and unresolved, puts it at the end of the
    active list, and sets the cooldown of the key to 5 minutes after its
    last reading of the clock; a later call with the same key whose
    cooldown test is read before that, with no other request for the key
    between the two, returns [None].  The first request for a key is
    accepted. *)
Theorem C3_cooldown calls t lvl ttl msg pname meta clk :
  Forall monotone_call calls →
  let am := run calls Alerting.init in
  let key := alert_key t pname in
  let r := create_alert t lvl ttl msg pname meta clk am in
  let alert := {| id := alert_id_of t clk; alert_type := t; level := lvl;
                  title := ttl; message := msg; process_name := pname;
                  timestamp := at_stamp clk; acknowledged := false;
                  resolved := false; metadata := default ∅ meta |} in
  (∀ (i j : nat) a a', (i < j)%nat →
     objects am !! i = Some a → objects am !! j = Some a' →
     key_of a = key_of a' →
     timestamp a + minutes 5 ≤ timestamp a')
  ∧ (∀ expiry, _alert_cooldowns am !! key = Some expiry →
       at_check clk < expiry → r = (None, am))
  ∧ (_alert_cooldowns am !! key = None
     ∨ (∃ expiry, _alert_cooldowns am !! key = Some expiry ∧ expiry ≤ at_check clk) →
     r.1 = Some (length (objects am))
     ∧ objects r.2 = objects am ++ [alert]
     ∧ alerts r.2 = alerts am ++ [length (objects am)]
     ∧ _alert_cooldowns r.2 !! key = Some (at_cooldown clk + minutes 5)
     ∧ ∀ between t' lvl' ttl' msg' pname' meta' clk',
         Forall (λ c, ¬ creates_key key c) between →
         alert_key t' pname' = key →
         at_check clk' < at_cooldown clk + minutes 5 →
         let am' := run between r.2 in
         create_alert t' lvl' ttl' msg' pname' meta' clk' am' = (None, am'))
  ∧ (Forall (λ c, ¬ creates_key key c) calls →
     r.1 = Some (length (objects am)) ∧ objects r.2 = objects am ++ [alert]).
Proof.
  intros Hm am key r alert.
  assert (Hacc : _alert_cooldowns am !! key = None
            ∨ (∃ expiry, _alert_cooldowns am !! key = Some expiry
                         ∧ expiry ≤ at_check clk) →
            r = (Some (length (objects am)),
                 {| objects := objects am ++ [alert];
                    alerts := alerts am ++ [length (objects am)];
                    alert_history := compact (alert_history am ++ [length (objects am)]);
                    _alert_cooldowns :=
                      <[key := at_cooldown clk + _cooldown_duration]>
                        (_alert_cooldowns am) |})).
  { intros Hfree. apply create_alert_accepted. by apply in_cooldown_over. }
  split; [| split; [| split]].
  - apply (run_keeps_spacing calls Alerting.init Hm init_spacing).
  - intros expiry Hexp Hlt. apply create_alert_suppressed.
    by apply (in_cooldown_before _ _ _ expiry).
  - intros Hfree. specialize (Hacc Hfree).
    assert (Hcd : _alert_cooldowns r.2 !! key = Some (at_cooldown clk + minutes 5)).
    { rewrite Hacc. simpl. by rewrite lookup_insert_eq. }
    split; [by rewrite Hacc |]. split; [by rewrite Hacc |].
    split; [by rewrite Hacc |]. split; [exact Hcd |].
    intros between t' lvl' ttl' msg' pname' meta' clk' Hb Hk Hlt am'.
    apply create_alert_suppressed. rewrite Hk.
    apply (in_cooldown_before _ _ _ (at_cooldown clk + minutes 5)); [| exact Hlt].
    unfold am'. by rewrite (run_cooldown_other key between _ Hb).
  - intros Hfirst. rewrite Hacc; [done |]. left.
    unfold am. by rewrite (run_cooldown_other key calls _ Hfirst).
Qed.

Lemma C3_cooldown_witness :
  let calls := [Examples.high_cpu 0] in
  let am := run calls Alerting.init in
  let clk := Examples.alert_clock_at (301 * Examples.sec) in
  let r := create_alert HIGH_CPU WARNING "High CPU usage for p" "still high"
             (Some "p") None clk am in
  Forall monotone_call calls
  ∧ r.1 = Some 1%nat
  ∧ (timestamp <$> objects r.2) = [0; 301 * Examples.sec]
  ∧ create_alert HIGH_CPU WARNING "High CPU usage for p" "high again" (Some "p") None
      (Examples.alert_clock_at (600 * Examples.sec)) r.2
    = (None, r.2).
Proof.
  intros calls am clk r.
  assert (Hm : Forall monotone_call calls).
  { repeat constructor; simpl; lia. }
  split; [exact Hm |].
  destruct (C3_cooldown calls HIGH_CPU WARNING "High CPU usage for p" "still high"
              (Some "p") None clk Hm) as (_ & _ & Haccepted & _).
  destruct Haccepted as (Hr & Hobj & _ & _ & Hnext).
  { right. exists (300 * Examples.sec). split; [vm_compute; reflexivity |].
    vm_compute. discriminate. }
  split; [exact Hr |]. split.
  - fold am r in Hobj. rewrite Hobj. vm_compute. reflexivity.
  - apply (Hnext []); [constructor | reflexivity | vm_compute; reflexivity].
Defined.

(** When the clock is set back by 100 s between the timestamp of the
    first alert (100 s) and its new cooldown (read as 0 s), the cooldown
    ends at 300 s: a request with the same key at 300 s is accepted, 200 s
    after the first alert. *)
Lemma C3_counterexample :
  let first := CreateAlert HIGH_CPU WARNING "High CPU usage for p" "high" (Some "p")
                 None Examples.clock_stepping_back in
  let am := run [first; Examples.high_cpu (300 * Examples.sec)] Alerting.init in
  ∃ a a', objects am !! 0%nat = Some a ∧ objects am !! 1%nat = Some a'
          ∧ key_of a = key_of a'
          ∧ timestamp a' - timestamp a = 200 * Examples.sec
          ∧ timestamp a' < timestamp a + minutes 5.
Proof.
  intros first am. eexists _, _.
  split; [vm_compute; reflexivity |]. split; [vm_compute; reflexivity |].
  split; [vm_compute; reflexivity |]. split; vm_compute; reflexivity.
Qed.

(** *** Resolve and acknowledge *)

Lemma has_id_alter f (objs : list Alert) (r ref : nat) alert_id :
  keeps_identity f →
  has_id (alter f r objs) alert_id ref ↔ has_id objs alert_id ref.
Proof.
  intros Hf. unfold has_id. rewrite list_lookup_alter.
  case_decide as Hr; [subst r | done].
  destruct (objs !! ref) as [a|]; simpl; [| done].
  by rewrite (proj1 (Hf a)).
Qed.

Lemma find_alter f (objs : list Alert) (r : nat) alert_id (l : list nat) :
  keeps_identity f →
  list_find (has_id (alter f r objs) alert_id) l = list_find (has_id objs alert_id) l.
Proof. intros Hf. apply list_find_ext. intros ref. by apply has_id_alter. Qed.

Lemma alter_is_insert {A} (f : A → A) (l : list A) (i : nat) (x : A) :
  l !! i = Some x → alter f i l = <[i := f x]> l.
Proof.
  intros Hi. rewrite list_insert_alter. apply list_alter_ext; [| done].
  intros y Hy. congruence.
Qed.

Lemma is_active_find alert_id am :
  is_active alert_id am ↔ ∃ i ref, find_active alert_id am = Some (i, ref).
Proof.
  unfold is_active, find_active. split.
  - intros (ref & Hin & Hid).
    destruct (list_find_elem_of _ _ _ Hin Hid) as [[i r] Hf]. eauto.
  - intros (i & ref & (Hi & Hid & _)%list_find_Some).
    exists ref. split; [| done]. by eapply list_elem_of_lookup_2.
Qed.

Lemma not_active_find alert_id am :
  ¬ is_active alert_id am ↔ find_active alert_id am = None.
Proof.
  rewrite is_active_find. destruct (find_active alert_id am) as [[i ref]|].
  - split; [| done]. intros H. destruct H. eauto.
  - split; [done |]. by intros _ (i & ref & [=]).
Qed.

Lemma not_active_Forall alert_id am :
  ¬ is_active alert_id am
  ↔ Forall (λ ref, ¬ has_id (objects am) alert_id ref) (alerts am).
Proof. rewrite not_active_find. apply list_find_None. Qed.

(** An id is active exactly when it is counted. *)
Lemma active_with_pos alert_id am :
  is_active alert_id am ↔ (0 < active_with alert_id am)%nat.
Proof.
  unfold is_active, active_with. split.
  - intros (ref & Hin & Hid).
    assert (Hf : ref ∈ filter (has_id (objects am) alert_id) (alerts am))
      by by apply list_elem_of_filter.
    destruct (filter _ _); [by apply elem_of_nil in Hf | simpl; lia].
  - intros Hpos.
    destruct (filter (has_id (objects am) alert_id) (alerts am)) as [| ref l] eqn:Hf;
      [simpl in Hpos; lia |].
    assert (Hin : ref ∈ filter (has_id (objects am) alert_id) (alerts am))
      by (rewrite Hf; left).
    apply list_elem_of_filter in Hin as [Hid Hin]. eauto.
Qed.

Lemma resolve_alert_found alert_id am (i ref : nat) :
  find_active alert_id am = Some (i, ref) →
  resolve_alert alert_id am
  = (true, {| objects := alter (set_resolved true) ref (objects am);
              alerts := delete i (alerts am);
              alert_history := alert_history am;
              _alert_cooldowns := _alert_cooldowns am |}).
Proof. intros H. unfold resolve_alert. by rewrite H. Qed.

Lemma acknowledge_alert_found alert_id am (i ref : nat) :
  find_active alert_id am = Some (i, ref) →
  acknowledge_alert alert_id am
  = (true, {| objects := alter (set_acknowledged true) ref (objects am);
              alerts := alerts am;
              alert_history := alert_history am;
              _alert_cooldowns := _alert_cooldowns am |}).
Proof. intros H. unfold acknowledge_alert. by rewrite H. Qed.

Lemma resolve_alert_absent alert_id am :
  ¬ is_active alert_id am → resolve_alert alert_id am = (false, am).
Proof. rewrite not_active_find. intros H. unfold resolve_alert. by rewrite H. Qed.

Lemma acknowledge_alert_absent alert_id am :
  ¬ is_active alert_id am → acknowledge_alert alert_id am = (false, am).
Proof. rewrite not_active_find. intros H. unfold acknowledge_alert. by rewrite H. Qed.

(** [resolve_alert] answers [true] exactly for an active id. *)
Lemma resolve_alert_answer alert_id am :
  (resolve_alert alert_id am).1 = true ↔ is_active alert_id am.
Proof.
  rewrite is_active_find. unfold resolve_alert.
  destruct (find_active _ _) as [[i ref]|]; simpl.
  - split; eauto.
  - split; [done |]. by intros (i & ref & [=]).
Qed.

(** Resolving takes one of the active alerts with the id away. *)
Lemma resolve_alert_count alert_id am :
  is_active alert_id am →
  active_with alert_id (resolve_alert alert_id am).2
  = (active_with alert_id am - 1)%nat.
Proof.
  intros (i & ref & Hfind)%is_active_find.
  rewrite (resolve_alert_found _ _ _ _ Hfind). unfold active_with. simpl.
  apply list_find_Some in Hfind as (Hi & Hid & _).
  rewrite (list_filter_iff _ (has_id (objects am) alert_id))
    by (intros r; apply has_id_alter, set_resolved_keeps).
  rewrite delete_take_drop.
  rewrite <- (take_drop_middle _ _ _ Hi) at 3.
  rewrite !filter_app, filter_cons_True by done.
  rewrite !length_app. simpl. lia.
Qed.

(** An id that is not active stays so until an alert with that id is
    created. *)
Lemma step_not_active alert_id am c :
  ¬ creates_id alert_id c →
  ¬ is_active alert_id am → ¬ is_active alert_id (step am c).
Proof.
  intros Hc. rewrite !not_active_Forall. intros Hna.
  destruct c as [t lvl ttl msg pname meta clk | x | x]; simpl.
  - unfold create_alert. destruct (in_cooldown _ _ _); [done |]. simpl.
    simpl in Hc.
    assert (Hnew : ∀ a' ref, id a' ≠ alert_id →
              ¬ has_id (objects am) alert_id ref →
              ¬ has_id (objects am ++ [a']) alert_id ref).
    { intros a' ref Ha' Hold Hid. unfold has_id in *.
      destruct (decide (ref < length (objects am))%nat) as [Hlt | Hge].
      - rewrite lookup_app_l in Hid by done. done.
      - destruct (decide (ref = length (objects am))) as [-> | Hne].
        + rewrite list_lookup_middle in Hid by done. simpl in Hid. congruence.
        + rewrite lookup_ge_None_2 in Hid; [done |].
          rewrite length_app; simpl. lia. }
    apply Forall_app. split.
    + eapply Forall_impl; [exact Hna |]. intros ref Hold. by apply Hnew.
    + apply Forall_singleton. intros Hid. unfold has_id in Hid.
      rewrite list_lookup_middle in Hid by done. simpl in Hid. congruence.
  - unfold acknowledge_alert. destruct (find_active x am) as [[i ref]|]; [| done].
    simpl. eapply Forall_impl; [exact Hna |]. intros r Hold Hid.
    apply Hold. by eapply has_id_alter, Hid; apply set_acknowledged_keeps.
  - unfold resolve_alert. destruct (find_active x am) as [[i ref]|]; [| done].
    simpl. apply Forall_delete.
    eapply Forall_impl; [exact Hna |]. intros r Hold Hid.
    apply Hold. by eapply has_id_alter, Hid; apply set_resolved_keeps.
Qed.

Lemma run_not_active alert_id calls am :
  Forall (λ c, ¬ creates_id alert_id c) calls →
  ¬ is_active alert_id am → ¬ is_active alert_id (run calls am).
Proof.
  intros H. revert am. induction H as [| c calls Hc _ IH]; intros am Hna; simpl; [done |].
  apply IH. by apply step_not_active.
Qed.

Lemma acknowledge_alert_idempotent alert_id am :
  acknowledge_alert alert_id (acknowledge_alert alert_id am).2
  = acknowledge_alert alert_id am.
Proof.
  unfold acknowledge_alert at 2 3.
  destruct (find_active alert_id am) as [[i ref]|] eqn:Hfind; simpl.
  - unfold acknowledge_alert, find_active; simpl.
    rewrite find_alter by apply set_acknowledged_keeps.
    unfold find_active in Hfind. rewrite Hfind.
    by rewrite list_alter_alter_eq.
  - unfold acknowledge_alert. by rewrite Hfind.
Qed.

(** C7 (amended). Let [id] be the id of an alert of the active list, and
    [a] the first active alert with that id.  [resolve(id)] is one
    transition that sets the [resolved] flag of [a], leaves its other
    fields and the other alerts as they are, removes [a] from the active
    list, leaves the history list and the cooldowns as they are, and
    answers [true]; it takes one away from the number of active alerts with
    that id.  The next [resolve(id)] answers [true] exactly when another
    active alert had the same id; when [a] was the only one, every later
    [resolve(id)], as long as no alert with that id has been created in
    between, answers [false] and leaves the manager unchanged.
    [acknowledge(id)] sets the [acknowledged] flag of [a], leaves its other
    fields, the other alerts, the active list, the history list and the
    cooldowns as they are, and answers [true].  For an id that is not
    active both answer [false] and leave the manager unchanged.  A second
    [acknowledge(id)] gives the same answer and the same state as the
    first. *)
Theorem C7_resolve_and_acknowledge alert_id am :
  (is_active alert_id am →
     ∃ (i ref : nat) a,
       alerts am !! i = Some ref
       ∧ objects am !! ref = Some a
       ∧ id a = alert_id
       ∧ (∀ (j ref' : nat), (j < i)%nat → alerts am !! j = Some ref' →
            ¬ has_id (objects am) alert_id ref')
       ∧ resolve_alert alert_id am
         = (true,
            {| objects :=
                 <[ref := {| id := id a; alert_type := alert_type a;
                             level := level a; title := title a;
                             message := message a;
                             process_name := process_name a;
                             timestamp := timestamp a;
                             acknowledged := acknowledged a;
                             resolved := true; metadata := metadata a |}]>
                   (objects am);
               alerts := delete i (alerts am);
               alert_history := alert_history am;
               _alert_cooldowns := _alert_cooldowns am |})
       ∧ acknowledge_alert alert_id am
         = (true,
            {| objects :=
                 <[ref := {| id := id a; alert_type := alert_type a;
                             level := level a; title := title a;
                             message := message a;
                             process_name := process_name a;
                             timestamp := timestamp a;
                             acknowledged := true;
                             resolved := resolved a; metadata := metadata a |}]>
                   (objects am);
               alerts := alerts am;
               alert_history := alert_history am;
               _alert_cooldowns := _alert_cooldowns am |})
       ∧ active_with alert_id (resolve_alert alert_id am).2
         = (active_with alert_id am - 1)%nat
       ∧ ((resolve_alert alert_id (resolve_alert alert_id am).2).1 = true
          ↔ (1 < active_with alert_id am)%nat)
       ∧ (active_with alert_id am = 1%nat →
            ∀ later, Forall (λ c, ¬ creates_id alert_id c) later →
              let am' := run later (resolve_alert alert_id am).2 in
              resolve_alert alert_id am' = (false, am')))
  ∧ (¬ is_active alert_id am →
     resolve_alert alert_id am = (false, am)
     ∧ acknowledge_alert alert_id am = (false, am))
  ∧ acknowledge_alert alert_id (acknowledge_alert alert_id am).2
    = acknowledge_alert alert_id am.
Proof.
  split; [| split].
  - intros Hact. pose proof Hact as (i & ref & Hfind)%is_active_find.
    pose proof Hfind as (Hi & Hid & Hfirst)%list_find_Some.
    unfold has_id in Hid.
    destruct (objects am !! ref) as [a|] eqn:Ha; simpl in Hid; [| done].
    injection Hid as Hid.
    pose proof (resolve_alert_count alert_id am Hact) as Hcount.
    exists i, ref, a. split; [done |]. split; [done |]. split; [done |].
    split; [intros j ref' Hj Hl; by apply (Hfirst j ref') |].
    split; [| split; [| split; [| split]]].
    + rewrite (resolve_alert_found _ _ _ _ Hfind).
      by rewrite (alter_is_insert _ _ _ _ Ha).
    + rewrite (acknowledge_alert_found _ _ _ _ Hfind).
      by rewrite (alter_is_insert _ _ _ _ Ha).
    + exact Hcount.
    + rewrite resolve_alert_answer, active_with_pos, Hcount. lia.
    + intros Hone later Hl am'. apply resolve_alert_absent.
      apply run_not_active; [done |]. rewrite active_with_pos, Hcount, Hone. lia.
  - intros Hna. split; [by apply resolve_alert_absent | by apply acknowledge_alert_absent].
  - apply acknowledge_alert_idempotent.
Qed.

Lemma C7_resolve_and_acknowledge_witness :
  let am := Examples.one_active_alert in
  let alert_id : AlertId := "high_cpu_0.0" in
  let acked := (acknowledge_alert alert_id am).2 in
  is_active alert_id am
  ∧ (acknowledged <$> objects am) = [false]
  ∧ (acknowledge_alert alert_id am).1 = true
  ∧ (acknowledged <$> objects acked) = [true]
  ∧ alerts acked = [0%nat]
  ∧ (resolve_alert alert_id am).1 = true
  ∧ (resolved <$> objects (resolve_alert alert_id am).2) = [true]
  ∧ alerts (resolve_alert alert_id am).2 = []
  ∧ resolve_alert alert_id (resolve_alert alert_id am).2
    = (false, (resolve_alert alert_id am).2).
Proof.
  intros am alert_id acked.
  assert (Ha : is_active alert_id am).
  { apply is_active_find. exists 0%nat, 0%nat. vm_compute. reflexivity. }
  split; [exact Ha |]. split; [vm_compute; reflexivity |].
  destruct (proj1 (C7_resolve_and_acknowledge alert_id am) Ha)
    as (i & ref & a & _ & _ & _ & _ & Hres & Hack & Hcount & _ & Hafter).
  assert (Hone : active_with alert_id am = 1%nat) by (vm_compute; reflexivity).
  split; [by rewrite Hack |]. split; [vm_compute; reflexivity |].
  split; [vm_compute; reflexivity |]. split; [by rewrite Hres |].
  split; [vm_compute; reflexivity |]. split; [vm_compute; reflexivity |].
  exact (Hafter Hone [] (Forall_nil_2 _)).
Defined.

(** High-CPU alerts for ["p"] and ["q"] built from one reading of the
    clock have different keys and the same id, so both are accepted and
    both are active: [resolve] of that id answers [true] twice, and the
    second call changes the flags and the active list. *)
Lemma C7_counterexample :
  let am := run Examples.same_id_alerts Alerting.init in
  let alert_id : AlertId := "high_cpu_0.0" in
  let once := (resolve_alert alert_id am).2 in
  let twice := resolve_alert alert_id once in
  (id <$> objects am) = [alert_id; alert_id]
  ∧ alerts am = [0%nat; 1%nat]
  ∧ (resolve_alert alert_id am).1 = true
  ∧ twice.1 = true
  ∧ alerts once = [1%nat] ∧ alerts twice.2 = []
  ∧ (resolved <$> objects once) = [true; false]
  ∧ (resolved <$> objects twice.2) = [true; true].
Proof. vm_compute. repeat split. Qed.
End AlertManagerFacts.

(* ===================================================================== *)
(** * Part III: further properties of the code *)
(* ===================================================================== *)

(** ** The registry and the supervisor's operations *)
Section SupervisorOperations.
Import Python Datetime Models Supervisor SupervisorProps.
Local Open Scope Z_scope.

Implicit Types (pm : ProcessManager) (n : string) (p : ManagedProcess).

(** *** The bookkeeping of the registry *)

Lemma well_formed_mutate n f pm : well_formed pm → well_formed (mutate n f pm).
Proof.
  intros (Hnd & Hord & Hh). split; [done |]. split.
  - intros n'. simpl. rewrite lookup_alter_is_Some. apply Hord.
  - intros n'. simpl. rewrite lookup_alter_is_Some. apply Hh.
Qed.

Lemma well_formed_delete_handle n pm :
  well_formed pm → well_formed (with_handles (delete n (_subprocess_handles pm)) pm).
Proof.
  intros (Hnd & Hord & Hh). split; [done |]. split; [done |].
  intros n'. simpl. rewrite lookup_delete_is_Some. intros [_ H]. by apply Hh.
Qed.

Lemma well_formed_insert_handle n child pm :
  is_Some (processes pm !! n) →
  well_formed pm →
  well_formed (with_handles (<[n := child]> (_subprocess_handles pm)) pm).
Proof.
  intros Hn (Hnd & Hord & Hh). split; [done |]. split; [done |].
  intros n'. simpl. rewrite lookup_insert_is_Some.
  intros [<- | [_ H]]; [done | by apply Hh].
Qed.

Lemma start_process_well_formed n env pm :
  well_formed pm → well_formed (start_process n env pm).2.
Proof.
  intros H. unfold start_process.
  destruct (processes pm !! n) as [p|] eqn:Hp; [| done].
  case_bool_decide; [done |].
  destruct (spawn env) as [child|]; simpl.
  - apply well_formed_mutate.
    apply (well_formed_insert_handle n child (mutate n (set_status STARTING) pm)).
    + simpl. rewrite lookup_alter_is_Some. by rewrite Hp.
    + by apply well_formed_mutate.
  - by apply well_formed_mutate, well_formed_mutate.
Qed.

Lemma stop_process_well_formed n force env pm :
  well_formed pm → well_formed (stop_process n force env pm).2.
Proof.
  intros H. unfold stop_process.
  destruct (processes pm !! n) as [p|]; [| done].
  case_bool_decide; [done |].
  destruct (_subprocess_handles _ !! n); [destruct (signalled env) |]; simpl.
  - apply well_formed_mutate.
    apply (well_formed_delete_handle n (mutate n (set_status STOPPING) pm)).
    by apply well_formed_mutate.
  - by apply well_formed_mutate.
  - by apply well_formed_mutate, well_formed_mutate.
Qed.

Lemma restart_process_well_formed n env pm :
  well_formed pm → well_formed (restart_process n env pm).2.
Proof.
  intros H. unfold restart_process.
  destruct (processes pm !! n) as [p|]; [| done].
  pose proof (stop_process_well_formed n false (restart_stop env) pm H) as Hstop.
  destruct (if bool_decide (status p = RUNNING)
            then stop_process n false (restart_stop env) pm else (true, pm))
    as [stopped pm1] eqn:E.
  assert (H1 : well_formed pm1).
  { case_bool_decide; [by rewrite E in Hstop | by injection E as _ <-]. }
  destruct stopped; simpl; [| done].
  destruct (sleep _) as [[] | e]; [| done].
  pose proof (start_process_well_formed n (restart_start env) pm1 H1) as Hstart.
  destruct (start_process n (restart_start env) pm1) as [started pm2].
  destruct started; simpl in *; [by apply well_formed_mutate | done].
Qed.

Lemma well_formed_foldl (f : ProcessManager → string → ProcessManager)
    (l : list string) pm :
  (∀ pm' n', well_formed pm' → well_formed (f pm' n')) →
  well_formed pm → well_formed (foldl f pm l).
Proof.
  intros Hf. revert pm. induction l as [| x l IH]; intros pm Hpm; simpl; [done |].
  apply IH. by apply Hf.
Qed.

Lemma add_process_well_formed cfg pm :
  well_formed pm → well_formed (add_process cfg pm).2.
Proof.
  intros (Hnd & Hord & Hh). unfold add_process.
  destruct (processes pm !! name cfg) as [p|] eqn:Hp; [done |]. simpl.
  split; [| split]; simpl.
  - apply NoDup_app. split; [done |]. split; [| apply NoDup_singleton].
    intros x Hx ->%list_elem_of_singleton. apply Hord in Hx.
    rewrite Hp in Hx. by destruct Hx.
  - intros n. rewrite elem_of_app, list_elem_of_singleton, lookup_insert_is_Some, Hord.
    split.
    + intros [H | ->]; [| by left].
      destruct (decide (name cfg = n)); [by left | by right].
    + intros [<- | [_ H]]; [by right | by left].
  - intros n Hn. rewrite lookup_insert_is_Some.
    destruct (decide (name cfg = n)); [by left | right; split; [done | by apply Hh]].
Qed.

Lemma remove_process_well_formed n env pm :
  well_formed pm → well_formed (remove_process n env pm).2.
Proof.
  intros H. unfold remove_process.
  destruct (processes pm !! n) as [p|]; [| done]. simpl.
  assert (H1 : well_formed (if bool_decide (status p = RUNNING)
                            then (stop_process n false env pm).2 else pm)).
  { case_bool_decide; [by apply stop_process_well_formed | done]. }
  destruct H1 as (Hnd & Hord & Hh).
  split; [| split]; simpl.
  - by apply NoDup_filter.
  - intros n'. rewrite list_elem_of_filter, lookup_delete_is_Some, Hord.
    split; intros [Hne Hs]; (split; [congruence | done]).
  - intros n'. rewrite !lookup_delete_is_Some. intros [Hne Hs]. split; [done | by apply Hh].
Qed.

Lemma step_well_formed pm op : well_formed pm → well_formed (step pm op).
Proof.
  intros H. destruct op; simpl.
  - by apply add_process_well_formed.
  - by apply remove_process_well_formed.
  - by apply start_process_well_formed.
  - by apply stop_process_well_formed.
  - by apply restart_process_well_formed.
  - unfold get_process_metrics. destruct (processes pm !! n); [| done].
    destruct (no_pid _); [done |].
    destruct (probe env); simpl; by apply well_formed_mutate.
  - unfold check_process_health. destruct (processes pm !! n); [| done].
    destruct (_subprocess_handles pm !! n); [destruct (poll env) |]; simpl; try done.
    apply (well_formed_delete_handle n (mutate n _ pm)). by apply well_formed_mutate.
  - unfold auto_restart_failed_processes.
    apply sweep_preserves; [| done]. intros pm' n' H'.
    rewrite auto_restart_one_state.
    destruct (processes pm' !! n'); [| done].
    destruct (_ && _); [by apply restart_process_well_formed | done].
  - apply well_formed_foldl; [| done]. intros pm' n' H'. unfold cleanup_one.
    destruct (processes pm' !! n'); [| done].
    case_bool_decide; [by apply stop_process_well_formed | done].
Qed.

Lemma init_well_formed : well_formed Supervisor.init.
Proof.
  split; [apply NoDup_nil_2 |]. split.
  - intros n. simpl. rewrite lookup_empty, elem_of_nil. split; [done | by intros [? [=]]].
  - intros n. simpl. by rewrite lookup_empty.
Qed.

Lemma run_well_formed ops pm : well_formed pm → well_formed (run ops pm).
Proof.
  revert pm. induction ops as [| op ops IH]; intros pm H; simpl; [done |].
  apply IH. by apply step_well_formed.
Qed.

Lemma reachable_well_formed ops : well_formed (run ops Supervisor.init).
Proof. apply run_well_formed, init_well_formed. Qed.

(** *** Each operation as a change of one record *)

Lemma start_process_processes n env pm :
  processes (start_process n env pm).2 = alter (start_record env) n (processes pm).
Proof.
  unfold start_process. destruct (processes pm !! n) as [p|] eqn:Hp.
  - case_bool_decide as Hs.
    + simpl. symmetry. apply alter_id. intros x Hx. rewrite Hp in Hx. injection Hx as <-.
      unfold start_record. by rewrite bool_decide_eq_true_2.
    + destruct (spawn env) as [child|] eqn:Hsp; simpl;
        rewrite alter_alter_eq; apply alter_ext; intros x Hx;
        rewrite Hp in Hx; injection Hx as <-;
        unfold start_record; rewrite bool_decide_eq_false_2 by done;
        by rewrite Hsp.
  - simpl. symmetry. by apply alter_id'.
Qed.

Lemma start_process_result n env pm p :
  processes pm !! n = Some p →
  (start_process n env pm).1
  = bool_decide (status p = RUNNING) || bool_decide (is_Some (spawn env)).
Proof.
  intros Hp. unfold start_process. rewrite Hp.
  case_bool_decide; [done |]. destruct (spawn env) as [child|].
  - symmetry. apply bool_decide_eq_true. eauto.
  - symmetry. apply bool_decide_eq_false. by intros [? [=]].
Qed.

Lemma stop_process_processes n force env pm :
  processes (stop_process n force env pm).2
  = alter (stop_record (delivered n env pm)) n (processes pm).
Proof.
  unfold stop_process, delivered. destruct (processes pm !! n) as [p|] eqn:Hp.
  - case_bool_decide as Hs.
    + simpl. symmetry. apply alter_id. intros x Hx. rewrite Hp in Hx. injection Hx as <-.
      unfold stop_record. by rewrite bool_decide_eq_true_2.
    + simpl. destruct (_subprocess_handles pm !! n); [destruct (signalled env) |]; simpl;
        rewrite ?alter_alter_eq; apply alter_ext; intros x Hx;
        rewrite Hp in Hx; injection Hx as <-;
        unfold stop_record;
        by rewrite bool_decide_eq_false_2 by (intros Hne; by apply Hne).
  - simpl. symmetry. by apply alter_id'.
Qed.

Lemma stop_process_result n force env pm p :
  processes pm !! n = Some p →
  (stop_process n force env pm).1
  = bool_decide (status p ≠ RUNNING) || delivered n env pm.
Proof.
  intros Hp. unfold stop_process, delivered. rewrite Hp.
  case_bool_decide; [done |]. simpl.
  by destruct (_subprocess_handles pm !! n); [destruct (signalled env) |].
Qed.

Lemma eligible_failed p : eligible p = true → status p = FAILED.
Proof.
  unfold eligible. intros Hel. apply andb_prop in Hel as [Hel _].
  apply andb_prop in Hel as [Hel _]. by apply bool_decide_eq_true in Hel.
Qed.

(** The restart of a failed process stops nothing. *)
Lemma restart_process_failed n env pm p :
  processes pm !! n = Some p →
  status p = FAILED →
  restart_process n env pm
  = match sleep (restart_delay (config p)) with
    | Raised e => (Raised e, pm)
    | Returned _ =>
        let '(started, pm2) := start_process n (restart_start env) pm in
        if started
        then (Returned true,
              mutate n (λ p, set_last_restart (Some (restarted_now env))
                               (set_restart_count (restart_count p + 1) p)) pm2)
        else (Returned false, pm2)
    end.
Proof.
  intros Hp Hs. unfold restart_process. rewrite Hp.
  by rewrite (bool_decide_eq_false_2 (status p = RUNNING)) by (rewrite Hs; done).
Qed.

Lemma auto_restart_one_raises env pm n e :
  sweep_error pm n = Some e → auto_restart_one env pm n = (Raised e, pm).
Proof.
  unfold sweep_error, auto_restart_one.
  destruct (processes pm !! n) as [p|] eqn:Hp; [| done].
  fold (eligible p). destruct (eligible p) eqn:Hel; [| done].
  rewrite (restart_process_failed n (env n) pm p Hp (eligible_failed p Hel)).
  destruct (sleep _) as [[] | e']; [done |]. by intros [= ->].
Qed.

Lemma auto_restart_one_returns env pm n :
  sweep_error pm n = None →
  (auto_restart_one env pm n).1 = Returned tt
  ∧ processes (auto_restart_one env pm n).2 = alter (swept (env n)) n (processes pm).
Proof.
  unfold sweep_error, auto_restart_one.
  destruct (processes pm !! n) as [p|] eqn:Hp;
    [| intros _; split; [done | simpl; symmetry; by apply alter_id']].
  fold (eligible p). destruct (eligible p) eqn:Hel.
  - pose proof (eligible_failed p Hel) as Hs.
    rewrite (restart_process_failed n (env n) pm p Hp Hs).
    destruct (sleep _) as [[] | e']; [intros _ | done].
    unfold start_process. rewrite Hp.
    rewrite (bool_decide_eq_false_2 (status p = RUNNING)) by (rewrite Hs; done).
    destruct (spawn (restart_start (env n))) as [child|] eqn:Hsp; simpl.
    + split; [done |]. rewrite !alter_alter_eq. apply alter_ext. intros x Hx.
      rewrite Hp in Hx. injection Hx as <-.
      unfold swept. by rewrite Hel, Hsp.
    + split; [done |]. rewrite !alter_alter_eq. apply alter_ext. intros x Hx.
      rewrite Hp in Hx. injection Hx as <-.
      unfold swept. by rewrite Hel, Hsp.
  - intros _. split; [done |]. simpl. symmetry. apply alter_id. intros x Hx.
    rewrite Hp in Hx. injection Hx as <-. unfold swept. by rewrite Hel.
Qed.

Lemma list_find_ext_in {A} (P Q : A → Prop) `{!∀ x, Decision (P x)}
    `{!∀ x, Decision (Q x)} (l : list A) :
  (∀ x, x ∈ l → (P x ↔ Q x)) → list_find P l = list_find Q l.
Proof.
  induction l as [| x l IH]; intros Hext; [done |].
  assert (Hx : P x ↔ Q x) by (apply Hext; left).
  assert (Hl : list_find P l = list_find Q l).
  { apply IH. intros y Hy. apply Hext. by right. }
  simpl. rewrite Hl.
  destruct (decide (P x)), (decide (Q x)); tauto || done.
Qed.

Lemma not_elem_of_take {A} (l : list A) (k : nat) (x : A) :
  NoDup l → l !! k = Some x → x ∉ take k l.
Proof.
  intros Hnd Hk Hin. apply elem_of_take in Hin as (j & Hj & Hlt).
  pose proof (NoDup_lookup _ _ _ _ Hnd Hj Hk). lia.
Qed.

(** The sweep over distinct names: it ends at the first name whose
    restart raises, and has changed the record of each name before
    that one once. *)
Lemma sweep_records env (l : list string) pm :
  NoDup l →
  let first_error := list_find (λ n, is_Some (sweep_error pm n)) l in
  let reached := match first_error with
                 | Some (k, _) => take k l
                 | None => l
                 end in
  (sweep env l pm).1
  = match first_error with
    | Some (_, n0) => from_option Raised (Returned tt) (sweep_error pm n0)
    | None => Returned tt
    end
  ∧ ∀ n, processes (sweep env l pm).2 !! n
         = if decide (n ∈ reached)
           then swept (env n) <$> processes pm !! n
           else processes pm !! n.
Proof.
  revert pm. induction l as [| x l IH]; intros pm Hnd; cbn zeta.
  { split; [done |]. intros n. by rewrite decide_False by apply not_elem_of_nil. }
  apply NoDup_cons in Hnd as [Hx Hnd].
  cbn [sweep list_find].
  destruct (sweep_error pm x) as [e|] eqn:Herr.
  - rewrite (auto_restart_one_raises env pm x e Herr).
    rewrite decide_True by done.
    cbv beta iota. rewrite Herr. split; [done |]. by intros n.
  - destruct (auto_restart_one_returns env pm x Herr) as [Hr Hprocs].
    destruct (auto_restart_one env pm x) as [[[] | e] pm1]; simpl in Hr, Hprocs; [| done].
    rewrite decide_False by (by intros [? [=]]).
    assert (Hsame : ∀ n, n ∈ l → sweep_error pm1 n = sweep_error pm n).
    { intros n Hn. unfold sweep_error. rewrite Hprocs, lookup_alter_ne; [done |].
      by intros ->. }
    destruct (IH pm1 Hnd) as [IHr IHl].
    rewrite (list_find_ext_in (λ n, is_Some (sweep_error pm1 n))
               (λ n, is_Some (sweep_error pm n))) in IHr, IHl
      by (intros n Hn; by rewrite Hsame).
    destruct (list_find (λ n, is_Some (sweep_error pm n)) l) as [[k n0]|] eqn:Hfind;
      simpl.
    + pose proof Hfind as (Hk & _ & _)%list_find_Some.
      rewrite Hsame in IHr by by eapply list_elem_of_lookup_2.
      split; [exact IHr |]. intros n. rewrite IHl, Hprocs.
      destruct (decide (n = x)) as [-> | Hne].
      * rewrite decide_False by (intros Hin; by apply subseteq_take in Hin).
        rewrite decide_True by left. by rewrite lookup_alter_eq.
      * rewrite lookup_alter_ne by done.
        destruct (decide (n ∈ take k l)) as [Hin | Hnin].
        -- rewrite decide_True; [done | by right].
        -- rewrite decide_False; [done |]. by intros [? | ?]%elem_of_cons.
    + split; [exact IHr |]. intros n. rewrite IHl, Hprocs.
      destruct (decide (n = x)) as [-> | Hne].
      * rewrite decide_False by done.
        rewrite decide_True by left. by rewrite lookup_alter_eq.
      * rewrite lookup_alter_ne by done.
        destruct (decide (n ∈ l)) as [Hin | Hnin].
        -- rewrite decide_True; [done | by right].
        -- rewrite decide_False; [done |]. by intros [? | ?]%elem_of_cons.
Qed.

Lemma cleanup_one_processes env pm n :
  signalled (env n) = true →
  processes (cleanup_one env pm n) = alter force_stopped n (processes pm).
Proof.
  intros Hsig. unfold cleanup_one. destruct (processes pm !! n) as [p|] eqn:Hp;
    [| simpl; symmetry; by apply alter_id'].
  case_bool_decide as Hs.
  - rewrite stop_process_processes. apply alter_ext. intros x Hx.
    rewrite Hp in Hx. injection Hx as <-.
    unfold stop_record, force_stopped, delivered.
    rewrite bool_decide_eq_false_2 by (intros Hne; by apply Hne).
    rewrite bool_decide_eq_true_2 by done.
    destruct (_subprocess_handles pm !! n); [by rewrite Hsig | done].
  - simpl. symmetry. apply alter_id. intros x Hx. rewrite Hp in Hx. injection Hx as <-.
    unfold force_stopped. by rewrite bool_decide_eq_false_2.
Qed.

(** A loop over distinct names whose iterations each change the record
    of their own name changes every record once. *)
Lemma foldl_alter_lookup (f : ProcessManager → string → ProcessManager)
    (g : string → ManagedProcess → ManagedProcess) (l : list string) pm n :
  (∀ pm' n', processes (f pm' n') = alter (g n') n' (processes pm')) →
  NoDup l →
  processes (foldl f pm l) !! n
  = if decide (n ∈ l) then g n <$> processes pm !! n else processes pm !! n.
Proof.
  intros Hf. revert pm. induction l as [| x l IH]; intros pm Hnd; cbn [foldl].
  { by destruct (decide (n ∈ [])) as [H%elem_of_nil |]. }
  apply NoDup_cons in Hnd as [Hx Hnd]. rewrite (IH _ Hnd), Hf.
  destruct (decide (n = x)) as [-> | Hne].
  - rewrite (decide_False (P := x ∈ l)) by done.
    rewrite (decide_True (P := x ∈ x :: l)) by apply list_elem_of_here.
    by rewrite lookup_alter_eq.
  - rewrite lookup_alter_ne by done.
    destruct (decide (n ∈ l)) as [Hin | Hnin].
    + rewrite decide_True; [done | by apply list_elem_of_further].
    + rewrite decide_False; [done |]. by intros [? | ?]%elem_of_cons.
Qed.

(** *** The auto-restart sweep and the final cleanup *)

(** X1. In every state the supervisor reaches, the auto-restart sweep
    goes through the registered processes in the order of their
    registration and ends early exactly when [time.sleep] rejects the
    [restart_delay] of an eligible process, one that is [FAILED], has
    [auto_restart] and has restarts left: the exception escapes from the
    sweep, and that process and the ones after it keep their records.
    This does not happen when the delays of the eligible processes are
    between 0 and 9223372036.  Each process that the sweep reaches is
    treated on its own and once: one that is not eligible keeps its
    record; an eligible one whose spawn succeeds is [RUNNING] with the new
    pid and exactly one more restart; an eligible one whose spawn fails
    stays [FAILED] with its restart count. *)
Theorem sweep_restarts_each_eligible_once ops env :
  let pm := run ops Supervisor.init in
  let r := auto_restart_failed_processes env pm in
  let first_error := list_find (λ n, is_Some (sweep_error pm n)) (registered pm) in
  let reached := match first_error with
                 | Some (k, _) => take k (registered pm)
                 | None => registered pm
                 end in
  ((∀ n p, processes pm !! n = Some p → eligible p = true →
      0 ≤ restart_delay (config p) ≤ 9223372036) →
   first_error = None)
  ∧ (first_error = None →
     r.1 = Returned tt ∧ ∀ n, is_Some (processes pm !! n) → n ∈ reached)
  ∧ (∀ k n0, first_error = Some (k, n0) →
       ∃ p0 e, processes pm !! n0 = Some p0 ∧ eligible p0 = true
               ∧ sleep (restart_delay (config p0)) = Raised e
               ∧ r.1 = Raised e
               ∧ reached = take k (registered pm)
               ∧ registered pm !! k = Some n0)
  ∧ ∀ n p, processes pm !! n = Some p →
      ∃ p', processes r.2 !! n = Some p'
        ∧ (n ∉ reached ∨ eligible p = false → p' = p)
        ∧ (n ∈ reached → eligible p = true →
           ∀ child, spawn (restart_start (env n)) = Some child →
             status p' = RUNNING ∧ pid p' = Some child
             ∧ restart_count p' = restart_count p + 1
             ∧ last_restart p' = Some (restarted_now (env n)))
        ∧ (n ∈ reached → eligible p = true →
           spawn (restart_start (env n)) = None →
             status p' = FAILED ∧ pid p' = pid p
             ∧ restart_count p' = restart_count p
             ∧ last_restart p' = last_restart p).
Proof.
  intros pm r first_error reached.
  destruct (reachable_well_formed ops) as (Hnd & Hord & _). fold pm in Hnd, Hord.
  destruct (sweep_records env (registered pm) pm Hnd) as [Hres Hlook].
  fold first_error reached in Hres, Hlook.
  change (sweep env (registered pm) pm) with r in Hres, Hlook.
  split; [| split; [| split]].
  - intros Hdelay. apply list_find_None, Forall_forall. intros n _ [e He].
    unfold sweep_error in He.
    destruct (processes pm !! n) as [p|] eqn:Hp; [| done].
    destruct (eligible p) eqn:Hel; [| done].
    specialize (Hdelay n p Hp Hel). unfold sleep in He.
    rewrite bool_decide_eq_false_2 in He by lia.
    by rewrite bool_decide_eq_false_2 in He by lia.
  - intros Hnone. unfold reached. rewrite Hnone in Hres |- *.
    split; [exact Hres |]. intros n Hn. by apply Hord.
  - intros k n0 Hfind. unfold reached. rewrite Hfind in Hres |- *.
    apply list_find_Some in Hfind as (Hk & [e He] & _).
    rewrite He in Hres. simpl in Hres. unfold sweep_error in He.
    destruct (processes pm !! n0) as [p0|] eqn:Hp0; [| done].
    destruct (eligible p0) eqn:Hel; [| done].
    exists p0, e. split; [done |]. split; [done |].
    split; [| by split].
    destruct (sleep _) as [[] | e']; [done | congruence].
  - intros n p Hp. exists (if decide (n ∈ reached) then swept (env n) p else p).
    split; [rewrite Hlook, Hp; by destruct (decide (n ∈ reached)) |].
    destruct (decide (n ∈ reached)) as [Hin | Hnin].
    + unfold swept. split; [| split].
      * intros [Hn | ->]; [done | done].
      * intros _ -> child ->. by simpl.
      * intros _ -> ->. by simpl.
    + split; [done |]. split; intros Hin; done.
Qed.

Lemma sweep_restarts_each_eligible_once_witness :
  let pm := run Examples.negative_delay_ops Supervisor.init in
  let env := λ _ : string, Examples.restart_with 4343 Examples.sec in
  let r := auto_restart_failed_processes env pm in
  registered pm = ["a"; "b"; "c"]
  ∧ r.1 = Raised ValueError
  ∧ (∃ p p', processes pm !! "a" = Some p ∧ processes r.2 !! "a" = Some p'
             ∧ status p = FAILED ∧ status p' = RUNNING
             ∧ restart_count p' = restart_count p + 1)
  ∧ processes r.2 !! "b" = processes pm !! "b"
  ∧ processes r.2 !! "c" = processes pm !! "c".
Proof.
  intros pm env r.
  destruct (sweep_restarts_each_eligible_once Examples.negative_delay_ops env)
    as (_ & _ & Hraise & Hrec).
  fold pm r in Hraise, Hrec.
  assert (Hfind : list_find (λ n, is_Some (sweep_error pm n)) (registered pm)
                  = Some (1%nat, "b")) by (vm_compute; reflexivity).
  rewrite Hfind in Hrec.
  destruct (Hraise _ _ Hfind) as (p0 & e & Hp0 & _ & Hsl & Hr & _).
  split; [vm_compute; reflexivity |]. split.
  { rewrite Hr. f_equal.
    assert (Hd : restart_delay (config p0) = -1)
      by (vm_compute in Hp0; injection Hp0 as <-; reflexivity).
    rewrite Hd in Hsl. vm_compute in Hsl. congruence. }
  assert (Hreached : take 1 (registered pm) = ["a"]) by (vm_compute; reflexivity).
  rewrite Hreached in Hrec.
  destruct (processes pm !! "a") as [pa|] eqn:Ha; [| by vm_compute in Ha].
  destruct (processes pm !! "b") as [pb|] eqn:Hb; [| by vm_compute in Hb].
  destruct (processes pm !! "c") as [pc|] eqn:Hc; [| by vm_compute in Hc].
  split; [| split].
  - destruct (Hrec "a" pa Ha) as (p' & Hp' & _ & Hyes & _).
    exists pa, p'. split; [done |]. split; [exact Hp' |].
    assert (Hel : eligible pa = true)
      by (vm_compute in Ha; injection Ha as <-; reflexivity).
    destruct (Hyes ltac:(left) Hel 4343 eq_refl) as (Hs & _ & Hc' & _).
    split; [by apply eligible_failed |]. by split.
  - destruct (Hrec "b" pb Hb) as (p' & Hp' & Hsame & _).
    rewrite Hp'. f_equal. apply Hsame. left.
    intros [Heq | Hin%elem_of_nil]%elem_of_cons; done.
  - destruct (Hrec "c" pc Hc) as (p' & Hp' & Hsame & _).
    rewrite Hp'. f_equal. apply Hsame. left.
    intros [Heq | Hin%elem_of_nil]%elem_of_cons; done.
Defined.

(** X2. In every state the supervisor reaches, [cleanup] with signals
    that are all delivered stops every running process and touches no
    other: a [RUNNING] process ends [STOPPED] without pid, every other
    record is unchanged, so no process is [RUNNING] afterwards. *)
Theorem cleanup_stops_every_running_process ops env n p :
  let pm := run ops Supervisor.init in
  (∀ n', signalled (env n') = true) →
  processes pm !! n = Some p →
  ∃ p', processes (cleanup env pm) !! n = Some p'
    ∧ status p' ≠ RUNNING
    ∧ (status p = RUNNING →
       p' = set_pid None (set_status STOPPED p) ∧ status p' = STOPPED ∧ pid p' = None)
    ∧ (status p ≠ RUNNING → p' = p).
Proof.
  intros pm Hsig Hp.
  destruct (reachable_well_formed ops) as (Hnd & Hord & _). fold pm in Hnd, Hord.
  exists (force_stopped p). split.
  - unfold cleanup, registered.
    rewrite (foldl_alter_lookup _ (λ _, force_stopped));
      [| intros; by apply cleanup_one_processes | done].
    rewrite decide_True; [by rewrite Hp |]. apply Hord. by rewrite Hp.
  - unfold force_stopped. case_bool_decide as Hs; simpl.
    + split; [done |]. split; [done | by intros []].
    + split; [done |]. split; [by intros ? | done].
Qed.

Lemma cleanup_stops_every_running_process_witness :
  let env := λ _ : string, {| signalled := true |} in
  ∃ p p',
    ((∀ n', signalled (env n') = true)
     ∧ processes Examples.svc_running !! "svc" = Some p)
    ∧ processes (cleanup env Examples.svc_running) !! "svc" = Some p'
    ∧ status p' ≠ RUNNING.
Proof.
  intros env.
  assert (Hsig : ∀ n', signalled (env n') = true) by done.
  destruct (cleanup_stops_every_running_process
              [AddProcess (Examples.config_of "svc");
               StartProcess "svc" (Examples.spawned 4242 0)]
              env "svc"
              (set_status RUNNING (set_started_at (Some 0)
                 (set_pid (Some 4242) (set_status STARTING
                    (new_process (Examples.config_of "svc"))))))
              Hsig)
    as (p' & Hp' & Hs & _); [vm_compute; reflexivity |].
  eexists _, p'. split; [split; [done | vm_compute; reflexivity] |].
  split; [exact Hp' | exact Hs].
Defined.

(** *** What a registered record goes through *)

Lemma evolves_refl p : evolves p p.
Proof. split; [done | lia]. Qed.

Lemma evolves_trans p1 p2 p3 : evolves p1 p2 → evolves p2 p3 → evolves p1 p3.
Proof. intros [Hc1 Hr1] [Hc2 Hr2]. split; [congruence | lia]. Qed.

Lemma keeps_refl pm : keeps evolves pm pm.
Proof. intros n p Hp. exists p. split; [done | apply evolves_refl]. Qed.

Lemma keeps_trans pm1 pm2 pm3 :
  keeps evolves pm1 pm2 → keeps evolves pm2 pm3 → keeps evolves pm1 pm3.
Proof.
  intros H12 H23 n p Hp. destruct (H12 n p Hp) as (p2 & Hp2 & He2).
  destruct (H23 n p2 Hp2) as (p3 & Hp3 & He3).
  exists p3. split; [done | by eapply evolves_trans].
Qed.

Lemma keeps_alter n F pm pm' :
  processes pm' = alter F n (processes pm) →
  (∀ p, evolves p (F p)) →
  keeps evolves pm pm'.
Proof.
  intros Heq HF n' p Hp. rewrite Heq, lookup_alter.
  case_decide as Hn; [subst n' |].
  - rewrite Hp. simpl. eauto.
  - exists p. split; [done | apply evolves_refl].
Qed.

Lemma keeps_foldl (f : ProcessManager → string → ProcessManager) (l : list string) pm :
  (∀ pm' n', keeps evolves pm' (f pm' n')) → keeps evolves pm (foldl f pm l).
Proof.
  intros Hf. revert pm. induction l as [| x l IH]; intros pm; simpl; [apply keeps_refl |].
  eapply keeps_trans; [apply Hf | apply IH].
Qed.

Lemma start_process_keeps n env pm : keeps evolves pm (start_process n env pm).2.
Proof.
  eapply keeps_alter; [apply start_process_processes |].
  intros p. unfold start_record. case_bool_decide; [apply evolves_refl |].
  destruct (spawn env); split; simpl; (done || lia).
Qed.

Lemma stop_process_keeps n force env pm : keeps evolves pm (stop_process n force env pm).2.
Proof.
  eapply keeps_alter; [apply stop_process_processes |].
  intros p. unfold stop_record. case_bool_decide; [apply evolves_refl |].
  destruct (delivered n env pm); split; simpl; (done || lia).
Qed.

Lemma restart_process_keeps n env pm : keeps evolves pm (restart_process n env pm).2.
Proof.
  unfold restart_process.
  destruct (processes pm !! n) as [p|]; [| apply keeps_refl].
  pose proof (stop_process_keeps n false (restart_stop env) pm) as Hstop.
  destruct (if bool_decide (status p = RUNNING)
            then stop_process n false (restart_stop env) pm else (true, pm))
    as [stopped pm1] eqn:E.
  assert (H1 : keeps evolves pm pm1).
  { case_bool_decide; [by rewrite E in Hstop | injection E as _ <-; apply keeps_refl]. }
  destruct stopped; simpl; [| done].
  destruct (sleep _) as [[] | e]; [| done].
  pose proof (start_process_keeps n (restart_start env) pm1) as Hstart.
  destruct (start_process n (restart_start env) pm1) as [started pm2].
  simpl in Hstart. destruct started; simpl; [| by eapply keeps_trans].
  eapply keeps_trans; [exact H1 |]. eapply keeps_trans; [exact Hstart |].
  eapply keeps_alter; [reflexivity |]. intros p0. split; simpl; [done | lia].
Qed.

Lemma step_keeps pm op n p :
  keeps_registered n op →
  processes pm !! n = Some p →
  ∃ p', processes (step pm op) !! n = Some p' ∧ evolves p p'.
Proof.
  intros Hop Hp.
  assert (Hk : ∀ pm', keeps evolves pm pm' →
                 ∃ p', processes pm' !! n = Some p' ∧ evolves p p') by (intros pm' H; eauto).
  destruct op as [cfg | n' env | n' env | n' force env | n' env | n' env | n' env | env | env];
    simpl in *.
  - unfold add_process. destruct (processes pm !! name cfg) as [q|] eqn:Hq; simpl.
    + apply Hk, keeps_refl.
    + exists p. split; [| apply evolves_refl].
      rewrite lookup_insert_ne; [done |]. intros Heq. congruence.
  - unfold remove_process. destruct (processes pm !! n') as [q|]; [| apply Hk, keeps_refl].
    simpl. rewrite lookup_delete_ne by done.
    case_bool_decide; [apply Hk, stop_process_keeps | apply Hk, keeps_refl].
  - apply Hk, start_process_keeps.
  - apply Hk, stop_process_keeps.
  - apply Hk, restart_process_keeps.
  - apply Hk. unfold get_process_metrics.
    destruct (processes pm !! n') as [q|]; [| apply keeps_refl].
    destruct (no_pid _); [apply keeps_refl |].
    destruct (probe env); simpl; (eapply keeps_alter; [reflexivity |]);
      intros p0; split; simpl; (done || lia).
  - apply Hk. unfold check_process_health.
    destruct (processes pm !! n') as [q|]; [| apply keeps_refl].
    destruct (_subprocess_handles pm !! n'); [destruct (poll env) |]; simpl;
      try apply keeps_refl.
    eapply keeps_alter; [reflexivity |]. intros p0; split; simpl; (done || lia).
  - apply Hk. unfold auto_restart_failed_processes.
    apply (sweep_preserves (keeps evolves pm)); [| apply keeps_refl].
    intros pm' n'' H'. rewrite auto_restart_one_state.
    destruct (processes pm' !! n''); [| done].
    destruct (_ && _); [| done].
    eapply keeps_trans; [exact H' | apply restart_process_keeps].
  - apply Hk, keeps_foldl. intros pm' n''. unfold cleanup_one.
    destruct (processes pm' !! n''); [| apply keeps_refl].
    case_bool_decide; [apply stop_process_keeps | apply keeps_refl].
Qed.

(** X3. As long as a process is not unregistered, no sequence of
    operations of the supervisor changes its configuration or lowers its
    restart count, and it stays registered. *)
Theorem registered_record_evolves ops pm n p :
  Forall (keeps_registered n) ops →
  processes pm !! n = Some p →
  ∃ p', processes (run ops pm) !! n = Some p'
        ∧ config p' = config p
        ∧ restart_count p ≤ restart_count p'.
Proof.
  intros Hops. revert pm p. induction Hops as [| op ops Hop _ IH]; intros pm p Hp; simpl.
  { exists p. split; [done |]. split; [done | lia]. }
  destruct (step_keeps pm op n p Hop Hp) as (p1 & Hp1 & Hc1 & Hr1).
  destruct (IH _ _ Hp1) as (p' & Hp' & Hc' & Hr').
  exists p'. split; [done |]. split; [congruence | lia].
Qed.

Lemma registered_record_evolves_witness :
  let ops := [RestartProcess "svc" (Examples.restart_with 4343 Examples.sec);
              StopProcess "svc" false {| signalled := true |}] in
  ∃ p p',
    (Forall (keeps_registered "svc") ops
     ∧ processes Examples.svc_running !! "svc" = Some p)
    ∧ processes (run ops Examples.svc_running) !! "svc" = Some p'
    ∧ config p' = config p
    ∧ restart_count p ≤ restart_count p'.
Proof.
  intros ops.
  assert (Hops : Forall (keeps_registered "svc") ops) by (repeat constructor).
  destruct (registered_record_evolves ops Examples.svc_running "svc"
              (set_status RUNNING (set_started_at (Some 0)
                 (set_pid (Some 4242) (set_status STARTING
                    (new_process (Examples.config_of "svc"))))))
              Hops)
    as (p' & Hp' & Hc & Hr); [vm_compute; reflexivity |].
  eexists _, p'. split; [split; [done | vm_compute; reflexivity] |]. by split.
Defined.

(** *** Restart *)

Lemma restart_from_stopped n env pm1 p1 :
  processes pm1 !! n = Some p1 →
  status p1 ≠ RUNNING →
  let r := (let '(started, pm2) := start_process n (restart_start env) pm1 in
            if started
            then (Returned true,
                  mutate n (λ p, set_last_restart (Some (restarted_now env))
                                   (set_restart_count (restart_count p + 1) p)) pm2)
            else (Returned false, pm2)) in
  r.1 = Returned (bool_decide (is_Some (spawn (restart_start env))))
  ∧ processes r.2 !! n = Some (restarted env p1).
Proof.
  intros Hp1 Hs r. unfold r.
  pose proof (start_process_result n (restart_start env) pm1 p1 Hp1) as Hres.
  pose proof (start_process_processes n (restart_start env) pm1) as Hprocs.
  destruct (start_process n (restart_start env) pm1) as [started pm2].
  simpl in Hres, Hprocs.
  rewrite (bool_decide_eq_false_2 (status p1 = RUNNING)) in Hres by done.
  simpl in Hres. subst started.
  unfold restarted. destruct (spawn (restart_start env)) as [child|] eqn:Hsp.
  - rewrite bool_decide_eq_true_2 by eauto. simpl. split; [done |].
    rewrite lookup_alter_eq, Hprocs, lookup_alter_eq, Hp1. simpl.
    unfold start_record. rewrite bool_decide_eq_false_2 by done. by rewrite Hsp.
  - rewrite bool_decide_eq_false_2 by (by intros [? [=]]). simpl. split; [done |].
    rewrite Hprocs, lookup_alter_eq, Hp1. simpl.
    unfold start_record. rewrite bool_decide_eq_false_2 by done. by rewrite Hsp.
Qed.

Local Ltac settle_cases :=
  repeat match goal with
         | |- _ ∧ _ => split
         | |- _ ↔ _ => split
         | |- ∀ _, _ => intro
         | H : _ ∧ _ |- _ => destruct H
         | H : _ ∨ _ |- _ => destruct H
         | H : ∃ _, _ |- _ => destruct H
         | H : is_Some None |- _ => destruct H as [? [=]]
         end;
  simplify_eq; try done; eauto; try (by left); try (by right).

(** [restart_process] of a registered process, step by step: the stop,
    the sleep, the start and the count. *)
Lemma restart_process_steps n env pm p :
  processes pm !! n = Some p →
  let r := restart_process n env pm in
  let stop_ok := bool_decide (status p ≠ RUNNING) || delivered n (restart_stop env) pm in
  let p1 := stop_record true p in
  (stop_ok = false →
   r.1 = Returned false ∧ processes r.2 !! n = Some (set_status STOPPING p))
  ∧ (∀ e, stop_ok = true → sleep (restart_delay (config p)) = Raised e →
       r.1 = Raised e ∧ processes r.2 !! n = Some p1)
  ∧ (stop_ok = true → sleep (restart_delay (config p)) = Returned tt →
       r.1 = Returned (bool_decide (is_Some (spawn (restart_start env))))
       ∧ processes r.2 !! n = Some (restarted env p1)).
Proof.
  intros Hp r stop_ok p1.
  assert (Hs1 : status p1 ≠ RUNNING).
  { unfold p1, stop_record. by case_bool_decide. }
  assert (Htail : ∀ pm1,
            processes pm1 !! n = Some p1 →
            let t := match sleep (restart_delay (config p)) with
                     | Raised e => (Raised e, pm1)
                     | Returned _ =>
                         let '(started, pm2) :=
                           start_process n (restart_start env) pm1 in
                         if started
                         then (Returned true,
                               mutate n (λ p, set_last_restart (Some (restarted_now env))
                                                (set_restart_count (restart_count p + 1) p))
                                 pm2)
                         else (Returned false, pm2)
                     end in
            (∀ e, sleep (restart_delay (config p)) = Raised e →
               t.1 = Raised e ∧ processes t.2 !! n = Some p1)
            ∧ (sleep (restart_delay (config p)) = Returned tt →
               t.1 = Returned (bool_decide (is_Some (spawn (restart_start env))))
               ∧ processes t.2 !! n = Some (restarted env p1))).
  { intros pm1 Hp1 t. unfold t.
    destruct (sleep (restart_delay (config p))) as [[] | e0].
    - split; [by intros e [=] |]. intros _.
      by apply restart_from_stopped.
    - split; [| by intros [=]]. by intros e [= ->]. }
  unfold r, restart_process. rewrite Hp.
  destruct (decide (status p = RUNNING)) as [Hrun | Hrun].
  - rewrite (bool_decide_eq_true_2 _ Hrun).
    pose proof (stop_process_result n false (restart_stop env) pm p Hp) as Hres.
    pose proof (stop_process_processes n false (restart_stop env) pm) as Hprocs.
    destruct (stop_process n false (restart_stop env) pm) as [stopped pm1].
    simpl in Hres, Hprocs.
    assert (Hok : stop_ok = delivered n (restart_stop env) pm).
    { unfold stop_ok. by rewrite bool_decide_eq_false_2 by (intros Hne; by apply Hne). }
    rewrite (bool_decide_eq_false_2 (status p ≠ RUNNING)) in Hres
      by (intros Hne; by apply Hne).
    simpl in Hres. rewrite <- Hok in Hres. subst stopped.
    assert (Hp1 : processes pm1 !! n
                  = Some (stop_record (delivered n (restart_stop env) pm) p))
      by (by rewrite Hprocs, lookup_alter_eq, Hp).
    rewrite <- Hok in Hp1.
    destruct stop_ok; simpl.
    + destruct (Htail pm1 Hp1) as [Hraise Hret].
      split; [done |]. split; [intros e _; apply Hraise | intros _; apply Hret].
    + split; [| split; by intros].
      intros _. split; [done |]. rewrite Hp1. unfold stop_record.
      by rewrite bool_decide_eq_false_2 by (intros Hne; by apply Hne).
  - rewrite (bool_decide_eq_false_2 _ Hrun).
    assert (Hok : stop_ok = true) by (unfold stop_ok; by rewrite bool_decide_eq_true_2).
    assert (Hp1 : processes pm !! n = Some p1).
    { unfold p1, stop_record. by rewrite bool_decide_eq_true_2. }
    rewrite Hok. simpl.
    destruct (Htail pm Hp1) as [Hraise Hret].
    split; [done |]. split; [intros e _; apply Hraise | intros _; apply Hret].
Qed.

(** X4. [restart_process] of a registered process stops it if it is
    running, sleeps for [restart_delay], starts it and counts the restart.
    It answers [true] exactly when the stop got its signal through (or the
    process was not running), [time.sleep] accepted the delay and the spawn
    succeeded: the process is then [RUNNING] with the new pid, one more
    restart and [last_restart] set.  It answers [false] exactly when the
    stop failed, which leaves the process [STOPPING] with its pid, or the
    spawn failed, which leaves it [FAILED].  It raises exactly when the
    stop succeeded and [time.sleep] rejects the delay: a process that was
    running is then left [STOPPED] without pid, and any other keeps its
    record.  Unless it answers [true] the restart count and
    [last_restart] are as before.  The configuration and the metrics
    history are never touched. *)
Theorem restart_process_outcome n env pm p :
  processes pm !! n = Some p →
  let r := restart_process n env pm in
  let stop_ok := bool_decide (status p ≠ RUNNING) || delivered n (restart_stop env) pm in
  let slept := sleep (restart_delay (config p)) in
  ∃ p', processes r.2 !! n = Some p'
    ∧ config p' = config p
    ∧ metrics_history p' = metrics_history p
    ∧ (r.1 = Returned true
       ↔ stop_ok = true ∧ slept = Returned tt ∧ is_Some (spawn (restart_start env)))
    ∧ (r.1 = Returned false
       ↔ stop_ok = false ∨ (slept = Returned tt ∧ spawn (restart_start env) = None))
    ∧ (∀ e, r.1 = Raised e ↔ stop_ok = true ∧ slept = Raised e)
    ∧ (r.1 = Returned true →
       status p' = RUNNING
       ∧ pid p' = spawn (restart_start env)
       ∧ started_at p' = Some (started_now (restart_start env))
       ∧ restart_count p' = restart_count p + 1
       ∧ last_restart p' = Some (restarted_now env))
    ∧ (r.1 ≠ Returned true →
       restart_count p' = restart_count p ∧ last_restart p' = last_restart p)
    ∧ (stop_ok = false →
       status p = RUNNING ∧ status p' = STOPPING ∧ pid p' = pid p)
    ∧ (stop_ok = true → slept = Returned tt → spawn (restart_start env) = None →
       status p' = FAILED)
    ∧ (stop_ok = true → (∃ e, slept = Raised e) →
       (status p = RUNNING → status p' = STOPPED ∧ pid p' = None)
       ∧ (status p ≠ RUNNING → p' = p)).
Proof.
  intros Hp r stop_ok slept.
  destruct (restart_process_steps n env pm p Hp) as (Hfail & Hraise & Hret).
  fold r stop_ok slept in Hfail, Hraise, Hret.
  assert (Hrun : stop_ok = false → status p = RUNNING).
  { unfold stop_ok. intros [H _]%orb_false_elim.
    apply bool_decide_eq_false in H. by destruct (decide (status p = RUNNING)). }
  assert (Hp1 : ∀ q, q = stop_record true p →
            config q = config p ∧ metrics_history q = metrics_history p
            ∧ restart_count q = restart_count p ∧ last_restart q = last_restart p
            ∧ (status p = RUNNING → status q = STOPPED ∧ pid q = None)
            ∧ (status p ≠ RUNNING → q = p)).
  { intros q ->. unfold stop_record.
    destruct (decide (status p ≠ RUNNING)) as [Hs | Hs].
    - rewrite (bool_decide_eq_true_2 _ Hs). repeat split; done.
    - rewrite (bool_decide_eq_false_2 _ Hs). simpl. repeat split; done. }
  destruct stop_ok eqn:Hok.
  - destruct slept as [[] | e] eqn:Hsl.
    + destruct (Hret eq_refl eq_refl) as [Hr Hlook].
      destruct (Hp1 _ eq_refl) as (Hc & Hm & Hrc & Hlr & _).
      exists (restarted env (stop_record true p)). split; [exact Hlook |].
      rewrite Hr. unfold restarted.
      destruct (spawn (restart_start env)) as [child|] eqn:Hsp; simpl;
        [rewrite Hrc |]; settle_cases.
    + destruct (Hraise e eq_refl eq_refl) as [Hr Hlook].
      destruct (Hp1 _ eq_refl) as (Hc & Hm & Hrc & Hlr & Hst & Hsame).
      exists (stop_record true p). split; [exact Hlook |]. rewrite Hr.
      settle_cases; by apply Hst.
  - destruct (Hfail eq_refl) as [Hr Hlook]. specialize (Hrun eq_refl).
    exists (set_status STOPPING p). split; [exact Hlook |]. rewrite Hr. simpl.
    settle_cases.
Qed.

Lemma restart_process_outcome_witness :
  let env := Examples.restart_with 4343 Examples.sec in
  let r := restart_process "svc" env Examples.svc_running in
  let r' := restart_process "b" env Examples.negative_delay_running in
  (∃ p p',
     processes Examples.svc_running !! "svc" = Some p
     ∧ processes r.2 !! "svc" = Some p'
     ∧ status p = RUNNING ∧ pid p = Some 4242
     ∧ r.1 = Returned true
     ∧ status p' = RUNNING ∧ pid p' = Some 4343
     ∧ restart_count p' = restart_count p + 1)
  ∧ (∃ p p',
       processes Examples.negative_delay_running !! "b" = Some p
       ∧ processes r'.2 !! "b" = Some p'
       ∧ status p = RUNNING
       ∧ r'.1 = Raised ValueError
       ∧ status p' = STOPPED ∧ pid p' = None).
Proof.
  intros env r r'. split.
  - destruct (processes Examples.svc_running !! "svc") as [p|] eqn:Hp;
      [| by vm_compute in Hp].
    destruct (restart_process_outcome "svc" env Examples.svc_running p Hp)
      as (p' & Hp' & _ & _ & Htrue & _ & _ & Hrunning & _).
    assert (Hr : r.1 = Returned true).
    { apply Htrue. vm_compute in Hp. injection Hp as <-.
      split; [reflexivity |]. split; [reflexivity | by eexists]. }
    destruct (Hrunning Hr) as (Hs & Hpid & _ & Hrc & _).
    exists p, p'. split; [done |]. split; [exact Hp' |].
    split; [vm_compute in Hp; by injection Hp as <- |].
    split; [vm_compute in Hp; by injection Hp as <- |].
    split; [exact Hr |]. split; [exact Hs |]. split; [by rewrite Hpid |]. exact Hrc.
  - destruct (processes Examples.negative_delay_running !! "b") as [p|] eqn:Hp;
      [| by vm_compute in Hp].
    destruct (restart_process_outcome "b" env Examples.negative_delay_running p Hp)
      as (p' & Hp' & _ & _ & _ & _ & Hraise & _ & _ & _ & _ & Hleft).
    assert (Hrun : status p = RUNNING) by (vm_compute in Hp; by injection Hp as <-).
    assert (Hok : bool_decide (status p ≠ RUNNING)
                  || delivered "b" (restart_stop env) Examples.negative_delay_running
                  = true) by (rewrite orb_true_iff; right; reflexivity).
    assert (Hsl : sleep (restart_delay (config p)) = Raised ValueError)
      by (vm_compute in Hp; by injection Hp as <-).
    exists p, p'. split; [done |]. split; [exact Hp' |]. split; [exact Hrun |].
    split; [by apply Hraise |].
    exact (proj1 (Hleft Hok (ex_intro _ ValueError Hsl)) Hrun).
Defined.

(** *** Stop *)

(** X5. A stop whose signal cannot be delivered leaves the process
    [STOPPING] with its pid and its handle.  While the process is left so,
    [stop_process] for it, forced or not, answers [true] without doing
    anything, so repeating the stop does not stop it.  [start_process]
    takes it out of that state: with a successful spawn the process is
    [RUNNING] with the new pid, and a stop whose signal is delivered then
    leaves it [STOPPED] without pid. *)
Theorem failed_stop_leaves_stopping n force env pm p :
  processes pm !! n = Some p →
  (stop_process n force env pm).1 = false →
  let pm' := (stop_process n force env pm).2 in
  status p = RUNNING
  ∧ processes pm' !! n = Some (set_status STOPPING p)
  ∧ _subprocess_handles pm' = _subprocess_handles pm
  ∧ (∀ force' env', stop_process n force' env' pm' = (true, pm'))
  ∧ (∀ senv child, spawn senv = Some child →
       let started := start_process n senv pm' in
       started.1 = true
       ∧ (∃ p1, processes started.2 !! n = Some p1
                ∧ status p1 = RUNNING ∧ pid p1 = Some child)
       ∧ ∀ force' env', signalled env' = true →
           let stopped := stop_process n force' env' started.2 in
           stopped.1 = true
           ∧ ∃ p2, processes stopped.2 !! n = Some p2
                   ∧ status p2 = STOPPED ∧ pid p2 = None).
Proof.
  intros Hp Hfalse pm'.
  assert (Hfirst : status p = RUNNING
            ∧ processes pm' !! n = Some (set_status STOPPING p)
            ∧ _subprocess_handles pm' = _subprocess_handles pm
            ∧ (∀ force' env', stop_process n force' env' pm' = (true, pm'))).
  { revert Hfalse. unfold pm', stop_process. rewrite Hp.
    case_bool_decide as Hs; [done |]. simpl.
    destruct (_subprocess_handles pm !! n) as [popen|]; [| done].
    destruct (signalled env); [done |]. simpl. intros _.
    split; [by destruct (decide (status p = RUNNING)) |].
    split; [by rewrite lookup_alter_eq, Hp |]. split; [done |].
    intros force' env'. simpl. rewrite lookup_alter_eq, Hp. simpl.
    first [done | by rewrite bool_decide_eq_true_2]. }
  destruct Hfirst as (Hrun & Hlook & Hh & Hstop).
  split; [done |]. split; [done |]. split; [done |]. split; [done |].
  intros senv child Hsp started.
  pose proof (start_process_result n senv pm' _ Hlook) as Hres.
  pose proof (start_process_processes n senv pm') as Hprocs.
  fold started in Hres, Hprocs.
  assert (Hp1 : processes started.2 !! n
                = Some (set_status RUNNING
                          (set_started_at (Some (started_now senv))
                             (set_pid (Some child) (set_status STOPPING p))))).
  { rewrite Hprocs, lookup_alter_eq, Hlook. simpl. unfold start_record.
    rewrite bool_decide_eq_false_2 by done. by rewrite Hsp. }
  split.
  { rewrite Hres, Hsp. rewrite (bool_decide_eq_true_2 (is_Some (Some child))) by eauto.
    apply orb_true_r. }
  split; [eexists; split; [exact Hp1 | done] |].
  intros force' env' Hsig stopped.
  pose proof (stop_process_result n force' env' started.2 _ Hp1) as Hres'.
  pose proof (stop_process_processes n force' env' started.2) as Hprocs'.
  fold stopped in Hres', Hprocs'.
  assert (Hd : delivered n env' started.2 = true).
  { unfold delivered. by destruct (_subprocess_handles started.2 !! n). }
  rewrite Hd in Hres', Hprocs'. split; [by rewrite Hres', orb_true_r |].
  eexists. split.
  { rewrite Hprocs', lookup_alter_eq, Hp1. reflexivity. }
  unfold stop_record. rewrite bool_decide_eq_false_2 by (intros Hne; by apply Hne).
  done.
Qed.

Lemma failed_stop_leaves_stopping_witness :
  let env := {| signalled := false |} in
  let pm' := (stop_process "svc" false env Examples.svc_running).2 in
  let started := start_process "svc" (Examples.spawned 4343 Examples.sec) pm' in
  ∃ p,
    (processes Examples.svc_running !! "svc" = Some p
     ∧ (stop_process "svc" false env Examples.svc_running).1 = false)
    ∧ stop_process "svc" true {| signalled := true |} pm' = (true, pm')
    ∧ (status <$> processes pm' !! "svc") = Some STOPPING
    ∧ started.1 = true
    ∧ (status <$> processes started.2 !! "svc") = Some RUNNING
    ∧ (stop_process "svc" false {| signalled := true |} started.2).1 = true.
Proof.
  intros env pm' started.
  assert (Hp : processes Examples.svc_running !! "svc"
               = Some (set_status RUNNING (set_started_at (Some 0)
                         (set_pid (Some 4242) (set_status STARTING
                            (new_process (Examples.config_of "svc")))))))
    by (vm_compute; reflexivity).
  assert (Hf : (stop_process "svc" false env Examples.svc_running).1 = false)
    by (vm_compute; reflexivity).
  eexists. split; [split; [exact Hp | exact Hf] |].
  destruct (failed_stop_leaves_stopping "svc" false env Examples.svc_running _ Hp Hf)
    as (_ & Hlook & _ & Hlater & Hstart).
  fold pm' in Hlook, Hlater, Hstart.
  destruct (Hstart (Examples.spawned 4343 Examples.sec) 4343 eq_refl)
    as (Hst & (p1 & Hp1 & Hs1 & _) & Hthen).
  fold started in Hst, Hp1, Hthen.
  split; [apply Hlater |]. split; [by rewrite Hlook |]. split; [exact Hst |].
  split; [by rewrite Hp1, <- Hs1 |].
  exact (proj1 (Hthen false {| signalled := true |} eq_refl)).
Defined.

(** *** Register and unregister *)

Lemma filter_all {A} (P : A → Prop) `{!∀ x, Decision (P x)} (l : list A) :
  (∀ x, x ∈ l → P x) → filter P l = l.
Proof.
  induction l as [| x l IH]; intros Hall; [done |].
  rewrite filter_cons_True by (apply Hall; left).
  f_equal. apply IH. intros y Hy. apply Hall. by right.
Qed.

(** X6. In every state the supervisor reaches, registering a process
    under a free name and unregistering it again gives back the manager as
    it was: registry, enumeration order and handles. *)
Theorem add_then_remove_restores ops cfg env :
  let pm := run ops Supervisor.init in
  processes pm !! name cfg = None →
  (add_process cfg pm).1 = true
  ∧ remove_process (name cfg) env (add_process cfg pm).2 = (true, pm).
Proof.
  intros pm Hfree.
  destruct (reachable_well_formed ops) as (Hnd & Hord & Hh).
  fold pm in Hnd, Hord, Hh.
  unfold add_process. rewrite Hfree. simpl. split; [done |].
  unfold remove_process. simpl. rewrite lookup_insert_eq. simpl.
  f_equal. destruct pm as [ps ord hs]. simpl in *.
  unfold with_handles, with_order, with_processes. simpl. f_equal.
  - by apply delete_insert_id.
  - rewrite filter_app. rewrite filter_cons_False by (intros H; by apply H).
    rewrite filter_nil, app_nil_r. apply filter_all.
    intros x Hx ->. apply Hord in Hx. rewrite Hfree in Hx. by destruct Hx.
  - apply delete_id. destruct (hs !! name cfg) eqn:E; [| done].
    assert (Hs : is_Some (ps !! name cfg)) by (apply Hh; by rewrite E).
    rewrite Hfree in Hs. by destruct Hs.
Qed.

Lemma add_then_remove_restores_witness :
  let cfg := Examples.config_of "db" in
  let env := {| signalled := true |} in
  processes Examples.svc_running !! name cfg = None
  ∧ remove_process (name cfg) env (add_process cfg Examples.svc_running).2
    = (true, Examples.svc_running).
Proof.
  intros cfg env.
  assert (Hfree : processes Examples.svc_running !! name cfg = None)
    by (vm_compute; reflexivity).
  split; [exact Hfree |].
  exact (proj2 (add_then_remove_restores
                  [AddProcess (Examples.config_of "svc");
                   StartProcess "svc" (Examples.spawned 4242 0)]
                  cfg env Hfree)).
Defined.

(** *** The states a process is left in *)

Lemma resting_start env p : resting p → resting (start_record env p).
Proof.
  intros H. unfold start_record. case_bool_decide; [done |].
  by destruct (spawn env).
Qed.

Lemma resting_stop d p : resting p → resting (stop_record d p).
Proof.
  intros H. unfold stop_record. case_bool_decide; [done |]. by destruct d.
Qed.

Lemma restart_process_resting n env pm :
  every resting pm → every resting (restart_process n env pm).2.
Proof.
  intros H. unfold restart_process.
  destruct (processes pm !! n) as [p|]; [| done].
  assert (Hstop : every resting (stop_process n false (restart_stop env) pm).2).
  { eapply every_alter; [apply stop_process_processes | | exact H].
    intros p0 _. apply resting_stop. }
  destruct (if bool_decide (status p = RUNNING)
            then stop_process n false (restart_stop env) pm else (true, pm))
    as [stopped pm1] eqn:E.
  assert (H1 : every resting pm1).
  { case_bool_decide; [by rewrite E in Hstop | by injection E as _ <-]. }
  destruct stopped; simpl; [| done].
  destruct (sleep _) as [[] | e]; [| done].
  assert (Hstart : every resting (start_process n (restart_start env) pm1).2).
  { eapply every_alter; [apply start_process_processes | | exact H1].
    intros p0 _. apply resting_start. }
  destruct (start_process n (restart_start env) pm1) as [started pm2].
  destruct started; simpl in *; [| done].
  apply every_mutate; [| done]. by intros p0 Hp0.
Qed.

Lemma step_resting pm op : every resting pm → every resting (step pm op).
Proof.
  intros H. destruct op; simpl.
  - unfold add_process. destruct (processes pm !! name cfg); [done |]. simpl.
    by apply every_with_order, every_insert.
  - unfold remove_process. destruct (processes pm !! n) as [p|]; [| done]. simpl.
    apply every_with_handles, every_with_order, every_delete.
    case_bool_decide; [| done].
    eapply every_alter; [apply stop_process_processes | | exact H].
    intros p0 _. apply resting_stop.
  - eapply every_alter; [apply start_process_processes | | exact H].
    intros p0 _. apply resting_start.
  - eapply every_alter; [apply stop_process_processes | | exact H].
    intros p0 _. apply resting_stop.
  - by apply restart_process_resting.
  - unfold get_process_metrics. destruct (processes pm !! n) as [p|]; [| done].
    destruct (no_pid _); [done |].
    destruct (probe env); simpl; (apply every_mutate; [| done]); by intros p0 Hp0.
  - unfold check_process_health. destruct (processes pm !! n) as [p|]; [| done].
    destruct (_subprocess_handles pm !! n); [destruct (poll env) |]; simpl; try done.
    apply every_with_handles, every_mutate; [| done]. by intros p0 Hp0.
  - unfold auto_restart_failed_processes.
    apply sweep_preserves; [| done]. intros pm' n' H'.
    rewrite auto_restart_one_state.
    destruct (processes pm' !! n'); [| done].
    destruct (_ && _); [by apply restart_process_resting | done].
  - apply every_foldl; [| done]. intros pm' n' H'. unfold cleanup_one.
    destruct (processes pm' !! n'); [| done].
    case_bool_decide; [| done].
    eapply every_alter; [apply stop_process_processes | | exact H'].
    intros p0 _. apply resting_stop.
Qed.

Lemma reachable_resting ops : every resting (run ops Supervisor.init).
Proof.
  assert (H0 : every resting Supervisor.init).
  { intros n' p'. simpl. by rewrite lookup_empty. }
  revert H0. generalize Supervisor.init.
  induction ops as [| op ops IH]; intros pm H0; simpl; [done |].
  apply IH. by apply step_resting.
Qed.

Lemma reachable_settled ops :
  Forall signals_delivered ops → every settled (run ops Supervisor.init).
Proof.
  intros Hops.
  assert (H0 : every settled Supervisor.init).
  { intros n' p'. simpl. by rewrite lookup_empty. }
  revert H0. generalize Supervisor.init.
  induction Hops as [| op ops Hop _ IH]; intros pm H0; simpl; [done |].
  apply IH. by apply step_settled.
Qed.

(** X12. No operation of the supervisor leaves a process [STARTING] or
    [UNKNOWN]: in every state it reaches, each registered process is
    [STOPPED], [RUNNING], [STOPPING] or [FAILED]. *)
Theorem starting_is_transient_and_unknown_unused ops n p :
  processes (run ops Supervisor.init) !! n = Some p →
  status p = STOPPED ∨ status p = RUNNING ∨ status p = STOPPING ∨ status p = FAILED.
Proof.
  intros Hp.
  destruct (reachable_resting ops n p Hp) as [Hs Hu]. destruct (status p); auto; done.
Qed.

Lemma starting_is_transient_and_unknown_unused_witness :
  ∃ p,
    processes (run Examples.stale_pid_ops Supervisor.init) !! "svc" = Some p
    ∧ (status p = STOPPED ∨ status p = RUNNING ∨ status p = STOPPING
       ∨ status p = FAILED).
Proof.
  eexists. split; [vm_compute; reflexivity |].
  eapply (starting_is_transient_and_unknown_unused Examples.stale_pid_ops "svc").
  vm_compute; reflexivity.
Defined.

(** X13. As long as every signal that a stop sends is delivered, each
    registered process has a pid exactly while it is [RUNNING], and it is
    [STOPPED], [RUNNING] or [FAILED], in every state the supervisor
    reaches. *)
Theorem delivered_signals_keep_pid_with_running ops n p :
  Forall signals_delivered ops →
  processes (run ops Supervisor.init) !! n = Some p →
  (is_Some (pid p) ↔ status p = RUNNING)
  ∧ (status p = STOPPED ∨ status p = RUNNING ∨ status p = FAILED).
Proof.
  intros Hops Hp.
  destruct (reachable_settled ops Hops n p Hp) as [Hpid Hst]. split; [done |].
  destruct (reachable_resting ops n p Hp) as [Hs Hu].
  destruct (status p); auto; done.
Qed.

Lemma delivered_signals_keep_pid_with_running_witness :
  let ops := [AddProcess (Examples.config_of "svc");
              StartProcess "svc" (Examples.spawned 4242 0);
              StopProcess "svc" false {| signalled := true |};
              StartProcess "svc" (Examples.spawn_fails Examples.sec)] in
  ∃ p,
    (Forall signals_delivered ops
     ∧ processes (run ops Supervisor.init) !! "svc" = Some p)
    ∧ (is_Some (pid p) ↔ status p = RUNNING).
Proof.
  intros ops.
  assert (Hops : Forall signals_delivered ops) by (repeat constructor).
  eexists. split; [split; [exact Hops | vm_compute; reflexivity] |].
  eapply (proj1 (delivered_signals_keep_pid_with_running ops "svc" _ Hops _)).
  Unshelve. vm_compute; reflexivity.
Defined.
End SupervisorOperations.

(** ** The crash policy engine's operations *)
Section CrashOperations.
Import Python Datetime Crash CrashReports.
Local Open Scope Z_scope.

Implicit Types (cm : CrashManager) (name : string) (clk : CrashClock).

(** *** Force-enable *)

(** The answer of the gate for a name that is in neither set. *)
Lemma can_restart_free name now now' cm :
  ¬ is_disabled cm name → ¬ is_quarantined cm name →
  can_restart_process name now now' cm = ((true, CanBeRestarted), cm).
Proof.
  unfold is_disabled, is_quarantined, can_restart_process. intros Hd Hq.
  destruct (disabled_processes cm !! name); [by destruct Hd |].
  destruct (quarantined_processes cm !! name); [by destruct Hq | done].
Qed.

(** X7. [force_enable_process] answers [true] exactly when the name was
    disabled or quarantined.  Afterwards the name is in neither set, the
    gate lets it restart and finds nothing to change, and a second
    [force_enable_process] answers [false] and changes nothing.  The crash
    ring of the name is emptied when the answer is [true]; when it is
    [false] the manager is untouched.  The other names keep their place in
    the two sets and their rings. *)
Theorem force_enable_opens_the_gate name now now' cm :
  let r := force_enable_process name cm in
  (r.1 = true ↔ is_disabled cm name ∨ is_quarantined cm name)
  ∧ ¬ is_disabled r.2 name ∧ ¬ is_quarantined r.2 name
  ∧ can_restart_process name now now' r.2 = ((true, CanBeRestarted), r.2)
  ∧ force_enable_process name r.2 = (false, r.2)
  ∧ (r.1 = true → ring r.2 name = [])
  ∧ (r.1 = false → r.2 = cm)
  ∧ (∀ name', name' ≠ name →
       disabled_processes r.2 !! name' = disabled_processes cm !! name'
       ∧ quarantined_processes r.2 !! name' = quarantined_processes cm !! name'
       ∧ ring r.2 name' = ring cm name').
Proof.
  intros r.
  assert (Hd : ¬ is_disabled r.2 name).
  { unfold r, force_enable_process, is_disabled; simpl.
    repeat case_bool_decide; simpl; rewrite ?lookup_delete_eq; try done;
      by intros [? [=]]. }
  assert (Hq : ¬ is_quarantined r.2 name).
  { unfold r, force_enable_process, is_quarantined; simpl.
    repeat case_bool_decide; simpl; rewrite ?lookup_delete_eq; try done;
      by intros [? [=]]. }
  split; [| split; [done | split; [done | split; [by apply can_restart_free | split;
    [| split; [| split]]]]]].
  - unfold r, force_enable_process, is_disabled, is_quarantined; simpl.
    repeat case_bool_decide; simpl in *; split; try done; eauto; intros [? | ?]; done.
  - unfold force_enable_process at 1.
    unfold is_disabled in Hd. unfold is_quarantined in Hq.
    rewrite (bool_decide_eq_false_2 _ Hd). simpl.
    by rewrite (bool_decide_eq_false_2 _ Hq).
  - unfold r, force_enable_process, ring; simpl. intros ->. simpl.
    by rewrite lookup_insert_eq.
  - unfold r, force_enable_process; simpl.
    repeat case_bool_decide; simpl; done.
  - intros name' Hne. unfold r, force_enable_process, ring; simpl.
    repeat case_bool_decide; simpl;
      rewrite ?lookup_delete_ne, ?lookup_insert_ne by done; done.
Qed.

(** *** The capacity of the rings *)

Lemma step_rings_bounded cm c : rings_bounded cm → rings_bounded (step cm c).
Proof.
  intros H name. unfold ring.
  destruct c as [n r code clk | n pol | n d | n d | n now now' | n | now | n]; simpl.
  - rewrite record_crash_history. simpl.
    destruct (decide (n = name)) as [-> | Hne].
    + rewrite lookup_insert_eq. simpl. apply deque_append_length, H.
    + rewrite lookup_insert_ne by done. apply H.
  - apply H.
  - apply H.
  - unfold remove_dependency. destruct (dependencies cm !! d); apply H.
  - rewrite can_restart_history. apply H.
  - unfold force_enable_process; simpl.
    repeat case_bool_decide; simpl; try apply H;
      (destruct (decide (n = name)) as [-> | Hne];
       [rewrite lookup_insert_eq; simpl; lia | rewrite lookup_insert_ne by done; apply H]).
  - apply H.
  - unfold reset_crash_history. destruct (crash_history cm !! n); [| apply H]. simpl.
    destruct (decide (n = name)) as [-> | Hne];
      [rewrite lookup_insert_eq; simpl; lia | rewrite lookup_insert_ne by done; apply H].
Qed.

Lemma reachable_rings_bounded calls : rings_bounded (run calls Crash.init).
Proof.
  assert (H0 : rings_bounded Crash.init).
  { intros name. unfold ring. simpl. rewrite lookup_empty. simpl. lia. }
  revert H0. generalize Crash.init.
  induction calls as [| c calls IH]; intros cm H; simpl; [done |].
  apply IH. by apply step_rings_bounded.
Qed.

(** X8. In every state the engine reaches, no ring holds more than 100
    events; so under a policy whose [max_crashes] is above 100 the
    threshold is never reached, however fast the process crashes:
    [record_crash] answers [RESTART], or raises [OverflowError] when the
    policy's window leaves the ranges of [timedelta] and [datetime], and in
    both cases leaves the disabled and the quarantined set as they are. *)
Theorem threshold_above_ring_capacity_never_fires calls name reason code clk :
  let cm := run calls Crash.init in
  let r := record_crash name reason code clk cm in
  (length (ring cm name) ≤ 100)%nat
  ∧ (100 < max_crashes (policy_for cm name) →
     (window_in_range (policy_for cm name) (at_eval clk) → r.1 = Returned RESTART)
     ∧ (¬ window_in_range (policy_for cm name) (at_eval clk) →
        r.1 = Raised OverflowError)
     ∧ disabled_processes r.2 = disabled_processes cm
     ∧ quarantined_processes r.2 = quarantined_processes cm).
Proof.
  intros cm r. pose proof (reachable_rings_bounded calls name) as Hb. fold cm in Hb.
  split; [done |]. intros Hmax.
  set (cm1 := append_crash name (crash_event_of name reason code clk) cm).
  assert (Hin : window_in_range (policy_for cm name) (at_eval clk) →
                r = (Returned RESTART, cm1)).
  { intros Hw. unfold r, record_crash. fold cm1.
    rewrite evaluate_below_threshold;
      [done | unfold cm1; by rewrite policy_for_append_crash |].
    unfold cm1. rewrite ring_append_crash, policy_for_append_crash.
    pose proof (deque_append_length 100 (crash_event_of name reason code clk)
                  (ring cm name) Hb) as Hlen.
    pose proof (length_filter
                  (λ crash, at_eval clk - minutes (time_window_minutes (policy_for cm name))
                            < timestamp crash)
                  (deque_append 100 (crash_event_of name reason code clk) (ring cm name)))
      as Hf.
    unfold recent_crashes. lia. }
  assert (Hout : ¬ window_in_range (policy_for cm name) (at_eval clk) →
                 r = (Raised OverflowError, cm1)).
  { intros Hw. unfold r, record_crash. fold cm1.
    by rewrite evaluate_out_of_range
      by (unfold cm1; by rewrite policy_for_append_crash). }
  split; [by intros ->%Hin |]. split; [by intros ->%Hout |].
  assert (Hdec : Decision (window_in_range (policy_for cm name) (at_eval clk)))
    by (unfold window_in_range; apply _).
  destruct Hdec as [Hw | Hw]; [rewrite (Hin Hw) | rewrite (Hout Hw)]; done.
Qed.

Lemma threshold_above_ring_capacity_never_fires_witness :
  let calls := [SetCrashPolicy "svc" (Examples.policy 101 DISABLE);
                Examples.crash "svc" 0] in
  let cm := run calls Crash.init in
  let clk := Examples.crash_clock_at Examples.sec in
  (100 < max_crashes (policy_for cm "svc")
   ∧ window_in_range (policy_for cm "svc") (at_eval clk))
  ∧ (record_crash "svc" "unexpected_exit" (Some 1) clk cm).1 = Returned RESTART.
Proof.
  intros calls cm clk.
  assert (Hmax : 100 < max_crashes (policy_for cm "svc")) by (vm_compute; reflexivity).
  assert (Hw : window_in_range (policy_for cm "svc") (at_eval clk)).
  { vm_compute. repeat split; discriminate. }
  split; [by split |].
  exact (proj1 (proj2 (threshold_above_ring_capacity_never_fires calls "svc"
                         "unexpected_exit" (Some 1) clk) Hmax) Hw).
Defined.

(** *** The dependency cascade *)

Lemma disable_all_lookup (now : string → datetime) (ds : list string)
    (disabled : gmap string datetime) (q : string) :
  disable_all now ds disabled !! q
  = if decide (q ∈ ds) then Some (now q) else disabled !! q.
Proof.
  revert disabled. induction ds as [| d ds IH]; intros disabled; unfold disable_all;
    cbn [foldl].
  { by destruct (decide (q ∈ [])) as [H%elem_of_nil |]. }
  fold (disable_all now ds (<[d := now d]> disabled)). rewrite IH.
  destruct (decide (q ∈ ds)) as [Hin | Hnin].
  - rewrite decide_True; [done | by right].
  - destruct (decide (q = d)) as [-> | Hne].
    + rewrite lookup_insert_eq. rewrite decide_True; [done | by left].
    + rewrite lookup_insert_ne by done.
      rewrite decide_False; [done |]. by intros [? | ?]%elem_of_cons.
Qed.

(** X9. When [record_crash] answers [KILL_DEPENDENCIES], the disabled
    processes afterwards are the crashed one, its direct dependents and
    those disabled before, and nothing else: the cascade is one level deep.
    Each direct dependent is stamped with its own clock reading, and the
    quarantined set is untouched. *)
Theorem cascade_disables_direct_dependents name reason code clk cm :
  (record_crash name reason code clk cm).1 = Returned KILL_DEPENDENCIES →
  let cm' := (record_crash name reason code clk cm).2 in
  (∀ q, is_disabled cm' q
        ↔ q = name ∨ q ∈ dependents cm name ∨ is_disabled cm q)
  ∧ (∀ q, q ∈ dependents cm name →
          disabled_processes cm' !! q = Some (at_dependent clk q))
  ∧ (name ∉ dependents cm name →
     disabled_processes cm' !! name = Some (at_action clk))
  ∧ quarantined_processes cm' = quarantined_processes cm.
Proof.
  unfold record_crash.
  destruct (_evaluate_crash_policy _ _ _) as [action | e]; [| done].
  destruct action; try (by simpl);
    try (by (cbn [_execute_crash_action];
             destruct (_quarantine_process _ _ _) as [[[] | e] cm2])).
  simpl. intros _. unfold dependents, is_disabled.
  set (deps := default ∅ (dependencies cm !! name)).
  assert (Hl : ∀ q,
            disable_all (at_dependent clk) (elements deps)
              (<[name := at_action clk]> (disabled_processes cm)) !! q
            = if decide (q ∈ deps) then Some (at_dependent clk q)
              else <[name := at_action clk]> (disabled_processes cm) !! q).
  { intros q. rewrite disable_all_lookup.
    destruct (decide (q ∈ elements deps)) as [Hin | Hnin];
      destruct (decide (q ∈ deps)) as [Hin' | Hnin']; try done.
    - by apply elem_of_elements in Hin.
    - by apply elem_of_elements in Hin'. }
  split; [| split; [| split]].
  - intros q. rewrite Hl. destruct (decide (q ∈ deps)) as [Hin | Hnin].
    + split; [by intros _; right; left | eauto].
    + rewrite lookup_insert_is_Some. split.
      * intros [<- | [_ H]]; [by left | by right; right].
      * intros [-> | [? | H]]; [by left | done |].
        destruct (decide (name = q)); [by left | by right].
  - intros q Hq. rewrite Hl. by rewrite decide_True.
  - intros Hn. rewrite Hl. rewrite decide_False by done. by rewrite lookup_insert_eq.
  - done.
Qed.

Lemma cascade_disables_direct_dependents_witness :
  let cm := run (take 4 Examples.cascade_calls) Crash.init in
  let clk := Examples.crash_clock_at Examples.sec in
  (record_crash "db" "unexpected_exit" (Some 1) clk cm).1 = Returned KILL_DEPENDENCIES
  ∧ (is_disabled (record_crash "db" "unexpected_exit" (Some 1) clk cm).2 "api"
     ↔ "api" = "db" ∨ "api" ∈ dependents cm "db" ∨ is_disabled cm "api").
Proof.
  intros cm clk.
  assert (Hk : (record_crash "db" "unexpected_exit" (Some 1) clk cm).1
               = Returned KILL_DEPENDENCIES)
    by (vm_compute; reflexivity).
  split; [exact Hk |].
  exact (proj1 (cascade_disables_direct_dependents "db" "unexpected_exit" (Some 1)
                  clk cm Hk) "api").
Defined.

(** *** Reaping quarantines *)

(** X10. [cleanup_expired_quarantines] at [now] keeps exactly the
    quarantine entries whose expiry is later than [now] and touches nothing
    else.  It draws the line where the gate draws it: for a name that is
    not disabled the gate at the same [now] refuses exactly the names that
    are still quarantined after the cleanup, and after the cleanup the gate
    finds no entry to remove. *)
Theorem cleanup_keeps_unexpired_quarantines now cm :
  let cm' := cleanup_expired_quarantines now cm in
  (∀ name expiry,
     quarantined_processes cm' !! name = Some expiry
     ↔ quarantined_processes cm !! name = Some expiry ∧ now < expiry)
  ∧ disabled_processes cm' = disabled_processes cm
  ∧ crash_history cm' = crash_history cm
  ∧ crash_policies cm' = crash_policies cm
  ∧ dependencies cm' = dependencies cm
  ∧ (∀ name now', ¬ is_disabled cm name →
       ((can_restart_process name now now' cm).1.1 = false ↔ is_quarantined cm' name))
  ∧ (∀ name now', (can_restart_process name now now' cm').2 = cm').
Proof.
  intros cm'.
  assert (Hq : ∀ name expiry,
            quarantined_processes cm' !! name = Some expiry
            ↔ quarantined_processes cm !! name = Some expiry ∧ now < expiry).
  { intros name expiry. unfold cm', cleanup_expired_quarantines; simpl.
    rewrite map_lookup_filter_Some. simpl. split; intros [? ?]; split; (done || lia). }
  split; [done |]. do 4 (split; [done |]). split.
  - intros name now' Hd. rewrite can_restart_false_iff. unfold is_quarantined. split.
    + intros [? | (expiry & He & Hlt)]; [done |]. exists expiry. by apply Hq.
    + intros [expiry (He & Hlt)%Hq]. right. eauto.
  - intros name now'. unfold can_restart_process.
    destruct (disabled_processes cm' !! name); [done |].
    destruct (quarantined_processes cm' !! name) as [expiry|] eqn:He; [| done].
    apply Hq in He as [_ Hlt]. by rewrite bool_decide_eq_true_2.
Qed.

(** *** Dependencies *)

(** X11. [add_dependency(a, b)] adds [a] to the dependents of [b] and
    [remove_dependency(a, b)] takes it out again, each leaving the
    dependents of every other process as they are; removing a dependency
    of a process without any entry changes nothing.  Adding a dependency
    that was not there and removing it gives back every process its
    dependents. *)
Theorem add_and_remove_dependency a b cm :
  (∀ b', dependents (add_dependency a b cm) b'
         = if decide (b' = b) then {[a]} ∪ dependents cm b else dependents cm b')
  ∧ (∀ b', dependents (remove_dependency a b cm) b'
           = if decide (b' = b) then dependents cm b ∖ {[a]} else dependents cm b')
  ∧ (dependencies cm !! b = None → remove_dependency a b cm = cm)
  ∧ (a ∉ dependents cm b →
     ∀ b', dependents (remove_dependency a b (add_dependency a b cm)) b'
           = dependents cm b').
Proof.
  assert (Hadd : ∀ cm0 b', dependents (add_dependency a b cm0) b'
            = if decide (b' = b) then {[a]} ∪ dependents cm0 b else dependents cm0 b').
  { intros cm0 b'. unfold dependents, add_dependency; simpl.
    destruct (decide (b' = b)) as [-> | Hne].
    - by rewrite lookup_insert_eq.
    - by rewrite lookup_insert_ne. }
  assert (Hrem : ∀ cm0 b', dependents (remove_dependency a b cm0) b'
            = if decide (b' = b) then dependents cm0 b ∖ {[a]} else dependents cm0 b').
  { intros cm0 b'. unfold dependents, remove_dependency.
    destruct (dependencies cm0 !! b) as [ds|] eqn:Hb; simpl.
    - destruct (decide (b' = b)) as [-> | Hne].
      + by rewrite lookup_insert_eq.
      + by rewrite lookup_insert_ne.
    - destruct (decide (b' = b)) as [-> | Hne]; [| done].
      rewrite Hb. simpl. by rewrite empty_difference_L. }
  split; [apply Hadd |]. split; [apply Hrem |]. split.
  - intros Hb. unfold remove_dependency. by rewrite Hb.
  - intros Ha b'. rewrite Hrem. destruct (decide (b' = b)) as [-> | Hne].
    + rewrite Hadd. rewrite decide_True by done.
      rewrite difference_union_distr_l_L, difference_diag_L, (left_id_L ∅ (∪)).
      apply difference_disjoint_L. by apply disjoint_singleton_r.
    + rewrite Hadd. by rewrite decide_False.
Qed.

Lemma add_and_remove_dependency_witness :
  ("api" ∉ dependents Crash.init "db")
  ∧ dependents (remove_dependency "api" "db" (add_dependency "api" "db" Crash.init)) "db"
    = dependents Crash.init "db".
Proof.
  assert (Ha : "api" ∉ dependents Crash.init "db").
  { unfold dependents. simpl. rewrite lookup_empty. simpl. apply not_elem_of_empty. }
  split; [exact Ha |].
  exact (proj2 (proj2 (proj2 (add_and_remove_dependency "api" "db" Crash.init))) Ha "db").
Defined.

(** *** The statistics report *)

Lemma touch_ring name name' cm : ring (touch name cm) name' = ring cm name'.
Proof.
  unfold touch, ring. destruct (crash_history cm !! name) as [d|] eqn:Hd; [done |].
  simpl. destruct (decide (name = name')) as [<- | Hne].
  - by rewrite lookup_insert_eq, Hd.
  - by rewrite lookup_insert_ne.
Qed.

Lemma touch_sets name cm :
  disabled_processes (touch name cm) = disabled_processes cm
  ∧ quarantined_processes (touch name cm) = quarantined_processes cm
  ∧ crash_policies (touch name cm) = crash_policies cm
  ∧ dependencies (touch name cm) = dependencies cm.
Proof. unfold touch. by destruct (crash_history cm !! name). Qed.

Lemma can_restart_frame name now now' cm :
  let cm' := (can_restart_process name now now' cm).2 in
  disabled_processes cm' = disabled_processes cm
  ∧ crash_policies cm' = crash_policies cm
  ∧ dependencies cm' = dependencies cm.
Proof.
  unfold can_restart_process.
  destruct (disabled_processes cm !! name); [done |].
  destruct (quarantined_processes cm !! name); [| done].
  by case_bool_decide.
Qed.

Lemma sub_hours_in_range hrs now :
  cutoff_in_range hrs now →
  (span ← timedelta_hours hrs; datetime_sub now span) = Returned (now - hours hrs).
Proof.
  intros [Hd Ht]. unfold timedelta_hours, new_timedelta, datetime_sub, hours.
  rewrite (bool_decide_eq_true_2 _ Hd). simpl.
  by rewrite (bool_decide_eq_true_2 _ Ht).
Qed.

Lemma sub_hours_out_of_range hrs now :
  ¬ cutoff_in_range hrs now →
  (span ← timedelta_hours hrs; datetime_sub now span) = Raised OverflowError.
Proof.
  intros Hno. unfold timedelta_hours, new_timedelta, datetime_sub, hours.
  destruct (decide (timedelta_min ≤ hrs * 3600000000 ≤ timedelta_max)) as [Hd | Hd].
  - rewrite (bool_decide_eq_true_2 _ Hd). simpl.
    rewrite bool_decide_eq_false_2; [done |]. intros Ht. by apply Hno.
  - by rewrite (bool_decide_eq_false_2 _ Hd).
Qed.

Lemma sub_window_in_range policy now :
  window_in_range policy now →
  (window ← timedelta_minutes (time_window_minutes policy); datetime_sub now window)
  = Returned (now - minutes (time_window_minutes policy)).
Proof.
  intros [Hd Ht]. unfold timedelta_minutes, new_timedelta, datetime_sub, minutes.
  rewrite (bool_decide_eq_true_2 _ Hd). simpl.
  by rewrite (bool_decide_eq_true_2 _ Ht).
Qed.

Lemma sub_window_out_of_range policy now :
  ¬ window_in_range policy now →
  (window ← timedelta_minutes (time_window_minutes policy); datetime_sub now window)
  = Raised OverflowError.
Proof.
  intros Hno. unfold timedelta_minutes, new_timedelta, datetime_sub, minutes.
  destruct (decide (timedelta_min ≤ time_window_minutes policy * 60000000
                    ≤ timedelta_max)) as [Hd | Hd].
  - rewrite (bool_decide_eq_true_2 _ Hd). simpl.
    rewrite bool_decide_eq_false_2; [done |]. intros Ht. by apply Hno.
  - by rewrite (bool_decide_eq_false_2 _ Hd).
Qed.

Lemma policy_for_touch name name' cm : policy_for (touch name cm) name' = policy_for cm name'.
Proof. unfold policy_for. by rewrite (proj1 (proj2 (proj2 (touch_sets name cm)))). Qed.

(** X14. Let the cutoff of [get_crash_statistics] and the window of the
    policy stay within the ranges of [timedelta] and [datetime].  The
    report then counts at most as many recent crashes as crashes in the
    last hours, and at most as many of those as the ring holds; its flags
    tell whether the name is disabled and quarantined, and [can_restart] is
    the answer of the gate.  The report is not read-only: for a name that
    is not disabled and whose quarantine has expired it says both
    [is_quarantined] and [can_restart], and the call removes the quarantine
    entry.  When the cutoff leaves these ranges the call raises
    [OverflowError] and leaves the engine as it was; when only the window
    does, it raises [OverflowError] and leaves the two sets as they were.
    In every case it changes no ring, policy, dependency or disabled
    entry. *)
Theorem crash_statistics_consult_the_gate name hrs sclk iteration cm :
  let r := get_crash_statistics name hrs sclk iteration cm in
  let in_range := cutoff_in_range hrs (at_cutoff sclk)
                  ∧ window_in_range (policy_for cm name) (at_policy_cutoff sclk) in
  (in_range →
   ∃ stats, r.1 = Returned stats
     ∧ (stat_recent_crashes stats ≤ total_crashes_24h stats
        ∧ total_crashes_24h stats ≤ length (ring cm name))%nat
     ∧ (stat_is_disabled stats = true ↔ is_disabled cm name)
     ∧ (stat_is_quarantined stats = true ↔ is_quarantined cm name)
     ∧ (can_restart stats = false
        ↔ is_disabled cm name
          ∨ ∃ expiry, quarantined_processes cm !! name = Some expiry
                      ∧ at_gate sclk < expiry)
     ∧ (∀ expiry, ¬ is_disabled cm name →
          quarantined_processes cm !! name = Some expiry →
          expiry ≤ at_gate sclk →
          stat_is_quarantined stats = true ∧ can_restart stats = true
          ∧ ¬ is_quarantined r.2 name))
  ∧ (¬ cutoff_in_range hrs (at_cutoff sclk) → r = (Raised OverflowError, cm))
  ∧ (cutoff_in_range hrs (at_cutoff sclk) →
     ¬ window_in_range (policy_for cm name) (at_policy_cutoff sclk) →
     r.1 = Raised OverflowError
     ∧ quarantined_processes r.2 = quarantined_processes cm)
  ∧ (∀ name', ring r.2 name' = ring cm name')
  ∧ disabled_processes r.2 = disabled_processes cm
  ∧ crash_policies r.2 = crash_policies cm
  ∧ dependencies r.2 = dependencies cm.
Proof.
  intros r in_range.
  destruct (touch_sets name cm) as (Hd & Hq & Hp & Hdep).
  assert (Hdec : Decision (cutoff_in_range hrs (at_cutoff sclk)))
    by (unfold cutoff_in_range; apply _).
  assert (Hdec' : Decision (window_in_range (policy_for cm name) (at_policy_cutoff sclk)))
    by (unfold window_in_range; apply _).
  destruct Hdec as [Hc | Hc].
  2:{ assert (Hr : r = (Raised OverflowError, cm)).
      { unfold r, get_crash_statistics. by rewrite sub_hours_out_of_range. }
      rewrite Hr. simpl. split; [by intros [? _] |]. repeat split; done. }
  destruct Hdec' as [Hw | Hw].
  2:{ assert (Hr : r = (Raised OverflowError, touch name cm)).
      { unfold r, get_crash_statistics. rewrite sub_hours_in_range by done.
        by rewrite policy_for_touch, sub_window_out_of_range. }
      rewrite Hr. simpl. split; [by intros [_ ?] |]. split; [done |].
      split; [done |]. split; [intros name'; apply touch_ring |]. done. }
  assert (Hr : r = get_crash_statistics name hrs sclk iteration cm) by done.
  unfold get_crash_statistics in Hr.
  rewrite sub_hours_in_range in Hr by done.
  rewrite policy_for_touch, sub_window_in_range in Hr by done.
  rewrite Hr. simpl.
  split; [| split; [done |]; split; [done |]; split; [| split; [| split]]].
  - intros _. eexists. split; [reflexivity |]. simpl.
    split; [| split; [| split; [| split]]].
    + unfold recent_crashes. split.
      * apply length_filter.
      * rewrite touch_ring. apply length_filter.
    + rewrite Hd. apply bool_decide_eq_true.
    + rewrite Hq. apply bool_decide_eq_true.
    + rewrite can_restart_false_iff. unfold is_disabled. by rewrite Hd, Hq.
    + intros expiry Hnd Hexp Hle.
      assert (Hnd' : ¬ is_disabled (touch name cm) name)
        by (unfold is_disabled; by rewrite Hd).
      assert (Hexp' : quarantined_processes (touch name cm) !! name = Some expiry)
        by (by rewrite Hq).
      rewrite (can_restart_expired _ _ _ _ _ Hnd' Hexp' Hle). simpl.
      split; [apply bool_decide_eq_true_2; exists expiry; exact Hexp' |].
      split; [done |]. unfold is_quarantined; simpl.
      rewrite lookup_delete_eq. by intros [? [=]].
  - intros name'. rewrite can_restart_ring. apply touch_ring.
  - destruct (can_restart_frame name (at_gate sclk) (at_gate' sclk) (touch name cm))
      as (H1 & _ & _). cbv zeta in H1. by rewrite H1.
  - destruct (can_restart_frame name (at_gate sclk) (at_gate' sclk) (touch name cm))
      as (_ & H2 & _). cbv zeta in H2. by rewrite H2.
  - destruct (can_restart_frame name (at_gate sclk) (at_gate' sclk) (touch name cm))
      as (_ & _ & H3). cbv zeta in H3. by rewrite H3.
Qed.

Lemma crash_statistics_consult_the_gate_witness :
  let cm := Examples.svc_quarantined in
  let now := 3600 * Examples.sec in
  let sclk := {| at_cutoff := now; at_policy_cutoff := now;
                 at_gate := now; at_gate' := now |} in
  let r := get_crash_statistics "svc" 24 sclk ["unexpected_exit"] cm in
  (cutoff_in_range 24 (at_cutoff sclk)
   ∧ window_in_range (policy_for cm "svc") (at_policy_cutoff sclk))
  ∧ ∃ stats, r.1 = Returned stats
      ∧ stat_is_quarantined stats = true ∧ can_restart stats = true
      ∧ ¬ is_quarantined r.2 "svc".
Proof.
  intros cm now sclk r.
  assert (Hrange : cutoff_in_range 24 (at_cutoff sclk)
                   ∧ window_in_range (policy_for cm "svc") (at_policy_cutoff sclk)).
  { vm_compute. repeat split; discriminate. }
  split; [exact Hrange |].
  destruct (crash_statistics_consult_the_gate "svc" 24 sclk ["unexpected_exit"] cm)
    as (Hstats & _).
  destruct (Hstats Hrange) as (stats & Hr & _ & _ & _ & _ & Hexpired).
  exists stats. split; [exact Hr |].
  apply (Hexpired now).
  - intros [? Hd]. vm_compute in Hd. discriminate.
  - vm_compute. reflexivity.
  - simpl. lia.
Defined.

(** *** The most common reason *)

Lemma py_max_fold {A} (key : A → nat) (l : list A) (x : A) :
  let b := foldl (λ best y, if bool_decide (key best < key y)%nat then y else best) x l in
  (b = x ∨ b ∈ l) ∧ (key x ≤ key b)%nat ∧ ∀ y, y ∈ l → (key y ≤ key b)%nat.
Proof.
  revert x. induction l as [| z l IH]; intros x; cbn [foldl].
  { split; [by left |]. split; [lia |]. by intros y Hy%elem_of_nil. }
  cbv zeta in IH.
  destruct (IH (if bool_decide (key x < key z)%nat then z else x)) as (Hb & Hk & Hall).
  cbv zeta. split; [| split].
  - destruct Hb as [-> | Hin]; [| right; by right].
    case_bool_decide; [right; by left | by left].
  - case_bool_decide; lia.
  - intros y [-> | Hy]%elem_of_cons; [| by apply Hall].
    case_bool_decide; lia.
Qed.

Lemma py_max_spec {A} (key : A → nat) (l : list A) (b : A) :
  py_max key l = Some b → b ∈ l ∧ ∀ y, y ∈ l → (key y ≤ key b)%nat.
Proof.
  destruct l as [| x l]; [done |]. simpl. intros [= <-].
  destruct (py_max_fold key l x) as (Hb & Hk & Hall). cbv zeta in Hb, Hk, Hall.
  split.
  - destruct Hb as [-> | Hin]; [by left | by right].
  - intros y [-> | Hy]%elem_of_cons; [done | by apply Hall].
Qed.

(** X15. [_get_most_common_crash_reason] answers [None] exactly for an
    empty list of crashes; otherwise it answers a reason of one of the
    crashes that no other reason outnumbers, whatever the order in which
    the set of reasons is enumerated. *)
Theorem most_common_reason_is_a_plurality iteration crashes :
  (∀ r, r ∈ iteration ↔ r ∈ crash_reason <$> crashes) →
  let reasons := crash_reason <$> crashes in
  match _get_most_common_crash_reason iteration crashes with
  | None => crashes = []
  | Some r => r ∈ reasons ∧ ∀ r', (count_of r' reasons ≤ count_of r reasons)%nat
  end.
Proof.
  intros Hit reasons. unfold _get_most_common_crash_reason.
  destruct crashes as [| c crashes]; [done |].
  fold reasons.
  destruct (py_max (λ r, count_of r reasons) iteration) as [b|] eqn:Hmax.
  - apply py_max_spec in Hmax as [Hin Hall]. split; [by apply Hit |].
    intros r'. destruct (decide (r' ∈ reasons)) as [Hr | Hr].
    + apply Hall. by apply Hit.
    + assert (count_of r' reasons = 0%nat) as ->; [| lia].
      unfold count_of.
      destruct (filter (λ x, x = r') reasons) as [| y ys] eqn:E; [done |].
      assert (Hy : y ∈ filter (λ x, x = r') reasons) by (rewrite E; left).
      apply list_elem_of_filter in Hy as [-> Hy]. done.
  - destruct iteration as [| x it]; [| done].
    assert (Hc : crash_reason c ∈ []) by (apply Hit; unfold reasons; simpl; by left).
    by apply elem_of_nil in Hc.
Qed.

Lemma most_common_reason_is_a_plurality_witness :
  let crashes := ring Examples.svc_two_crashes "svc" in
  (∀ r, r ∈ ["unexpected_exit"] ↔ r ∈ crash_reason <$> crashes)
  ∧ _get_most_common_crash_reason ["unexpected_exit"] crashes = Some "unexpected_exit".
Proof.
  intros crashes.
  assert (Hc : crash_reason <$> crashes = ["unexpected_exit"; "unexpected_exit"])
    by (vm_compute; reflexivity).
  assert (Hit : ∀ r, r ∈ ["unexpected_exit"] ↔ r ∈ crash_reason <$> crashes).
  { intros r. rewrite Hc, !elem_of_cons, elem_of_nil. tauto. }
  split; [exact Hit |].
  pose proof (most_common_reason_is_a_plurality ["unexpected_exit"] crashes Hit) as H.
  cbv zeta in H.
  destruct (_get_most_common_crash_reason ["unexpected_exit"] crashes) as [r|] eqn:E.
  - destruct H as [Hr _]. rewrite Hc in Hr.
    rewrite !elem_of_cons, elem_of_nil in Hr. f_equal. tauto.
  - rewrite H in Hc. discriminate Hc.
Defined.
End CrashOperations.

(** ** The alert manager's operations and checks *)
Section AlertOperations.
Import Datetime Models Alerting AlertChecks.
Local Open Scope Z_scope.

Implicit Types (am : AlertManager) (a : Alert) (c : Call) (alert_id : AlertId).

(** *** The cap on the history *)

Lemma compact_append (h : list nat) (r : nat) :
  (length h ≤ 1000)%nat →
  ((length h < 1000)%nat → compact (h ++ [r]) = h ++ [r])
  ∧ (length h = 1000%nat →
     compact (h ++ [r]) = drop 501 h ++ [r] ∧ length (compact (h ++ [r])) = 500%nat)
  ∧ (length (compact (h ++ [r])) ≤ 1000)%nat
  ∧ last (compact (h ++ [r])) = Some r.
Proof.
  intros Hle. unfold compact. rewrite length_app. simpl.
  case_bool_decide as Hc.
  - assert (Hl : length h = 1000%nat) by lia. rewrite Hl.
    replace (1000 + 1 - 500)%nat with 501%nat by lia.
    rewrite drop_app_le by lia.
    split; [lia |]. split; [| split].
    + intros _. split; [done |]. rewrite length_app, length_drop. simpl. lia.
    + rewrite length_app, length_drop. simpl. lia.
    + by rewrite last_snoc.
  - split; [done |]. split; [lia |]. split.
    + rewrite length_app. simpl. lia.
    + by rewrite last_snoc.
Qed.

Lemma step_history_capped am c : history_capped am → history_capped (step am c).
Proof.
  unfold history_capped. intros H.
  destruct c as [t lvl ttl msg pname meta clk | x | x]; simpl.
  - unfold create_alert. destruct (in_cooldown _ _ _); [done |]. simpl.
    by apply compact_append.
  - unfold acknowledge_alert. by destruct (find_active _ _) as [[i ref]|].
  - unfold resolve_alert. by destruct (find_active _ _) as [[i ref]|].
Qed.

Lemma reachable_history_capped calls : history_capped (run calls Alerting.init).
Proof.
  assert (H : ∀ am, history_capped am → history_capped (run calls am)).
  { induction calls as [| c calls IH]; intros am Ham; simpl; [done |].
    apply IH. by apply step_history_capped. }
  apply H. unfold history_capped. simpl. lia.
Qed.

(** X16. In every state the alert manager reaches, the history holds at
    most 1000 alerts.  An accepted [create_alert] puts the new alert at the
    end of the active list and of the history; when the history already
    holds 1000 alerts, it is cut to its 499 newest followed by the new one,
    whether or not the alerts that are dropped are still active: the active
    list is never cut. *)
Theorem alert_history_is_capped calls t lvl ttl msg pname meta clk :
  let am := run calls Alerting.init in
  let r := create_alert t lvl ttl msg pname meta clk am in
  (length (alert_history am) ≤ 1000)%nat
  ∧ (in_cooldown (alert_key t pname) (at_check clk) am = false →
     alerts r.2 = alerts am ++ [length (objects am)]
     ∧ last (alert_history r.2) = Some (length (objects am))
     ∧ ((length (alert_history am) < 1000)%nat →
        alert_history r.2 = alert_history am ++ [length (objects am)])
     ∧ (length (alert_history am) = 1000%nat →
        alert_history r.2 = drop 501 (alert_history am) ++ [length (objects am)]
        ∧ length (alert_history r.2) = 500%nat)).
Proof.
  intros am r. pose proof (reachable_history_capped calls) as Hcap.
  fold am in Hcap. split; [exact Hcap |].
  intros Hfree. unfold r, create_alert. rewrite Hfree. simpl.
  destruct (compact_append (alert_history am) (length (objects am)) Hcap)
    as (Hlt & Heq & _ & Hlast).
  done.
Qed.

(** *** Active and resolved *)

Lemma filter_ext_in {A} (P Q : A → Prop) `{!∀ x, Decision (P x)}
    `{!∀ x, Decision (Q x)} (l : list A) :
  (∀ x, x ∈ l → (P x ↔ Q x)) → filter P l = filter Q l.
Proof.
  induction l as [| x l IH]; intros Hext; [done |].
  assert (Hx : P x ↔ Q x) by (apply Hext; left).
  assert (Hl : filter P l = filter Q l).
  { apply IH. intros y Hy. apply Hext. by right. }
  destruct (decide (P x)) as [HP | HP].
  - rewrite !filter_cons_True by tauto. by rewrite Hl.
  - rewrite !filter_cons_False by tauto. done.
Qed.

Lemma delete_is_filter {A} `{EqDecision A} (l : list A) (i : nat) (x : A) :
  NoDup l → l !! i = Some x → delete i l = filter (λ y, y ≠ x) l.
Proof.
  intros Hnd. revert i. induction Hnd as [| y l Hy Hnd IH]; intros i Hi; [done |].
  destruct i as [| i]; simpl in Hi.
  - injection Hi as ->. rewrite filter_cons_False by (intros Hne; by apply Hne).
    simpl. symmetry. apply filter_all. intros z Hz ->. done.
  - assert (y ≠ x).
    { intros ->. apply Hy. by eapply list_elem_of_lookup_2. }
    rewrite filter_cons_True by done. simpl. f_equal. by apply IH.
Qed.

Lemma unresolved_at_alter_ack objs (r ref : nat) :
  unresolved_at (alter (set_acknowledged true) r objs) ref ↔ unresolved_at objs ref.
Proof.
  unfold unresolved_at. rewrite list_lookup_alter. case_decide as Hr; [subst r | done].
  by destruct (objs !! ref).
Qed.

Lemma unresolved_at_alter_resolved objs (r ref : nat) :
  unresolved_at (alter (set_resolved true) r objs) ref
  ↔ unresolved_at objs ref ∧ ref ≠ r.
Proof.
  unfold unresolved_at. rewrite list_lookup_alter. case_decide as Hr.
  - subst r. destruct (objs !! ref); simpl; split; try done; by intros [_ ?].
  - split; [by intros ? | by intros [? _]].
Qed.

Lemma step_active_are_unresolved am c :
  active_are_unresolved am → active_are_unresolved (step am c).
Proof.
  unfold active_are_unresolved. intros H.
  destruct c as [t lvl ttl msg pname meta clk | x | x]; simpl.
  - unfold create_alert. destruct (in_cooldown _ _ _); [done |]. simpl.
    rewrite length_app. simpl. rewrite Nat.add_1_r, seq_S, filter_app. simpl.
    rewrite filter_cons_True, filter_nil.
    2:{ unfold unresolved_at. by rewrite list_lookup_middle. }
    f_equal. rewrite H. apply filter_ext_in. intros ref Hin.
    apply elem_of_seq in Hin. unfold unresolved_at.
    by rewrite lookup_app_l by lia.
  - unfold acknowledge_alert. destruct (find_active _ _) as [[i ref]|]; [| done].
    simpl. rewrite length_alter, H. apply list_filter_iff. intros r.
    symmetry. apply unresolved_at_alter_ack.
  - unfold resolve_alert. destruct (find_active x am) as [[i ref]|] eqn:Hfind; [| done].
    simpl. rewrite length_alter.
    apply list_find_Some in Hfind as (Hi & _ & _).
    rewrite (delete_is_filter (alerts am) i ref); [| | done].
    2:{ rewrite H. apply NoDup_filter, NoDup_seq. }
    rewrite H, list_filter_filter. apply list_filter_iff. intros r.
    rewrite unresolved_at_alter_resolved. tauto.
Qed.

Lemma reachable_active_are_unresolved calls :
  active_are_unresolved (run calls Alerting.init).
Proof.
  assert (H : ∀ am, active_are_unresolved am → active_are_unresolved (run calls am)).
  { induction calls as [| c calls IH]; intros am Ham; simpl; [done |].
    apply IH. by apply step_active_are_unresolved. }
  by apply H.
Qed.

Lemma deref_unresolved (l1 l2 : list Alert) :
  deref (l1 ++ l2)
    (filter (unresolved_at (l1 ++ l2)) (seq (length l1) (length l2)))
  = filter (λ a, resolved a = false) l2.
Proof.
  revert l1. induction l2 as [| x l2 IH]; intros l1; [done |].
  simpl. specialize (IH (l1 ++ [x])).
  rewrite <- app_assoc, length_app in IH. simpl in IH. rewrite Nat.add_1_r in IH.
  assert (Hx : unresolved_at (l1 ++ x :: l2) (length l1) ↔ resolved x = false).
  { unfold unresolved_at. rewrite list_lookup_middle by done. simpl.
    split; [by intros [= ->] | by intros ->]. }
  destruct (decide (resolved x = false)) as [Hr | Hr].
  - rewrite filter_cons_True by tauto. rewrite (filter_cons_True _ x) by done.
    unfold deref. simpl. rewrite list_lookup_middle by done. simpl.
    f_equal. exact IH.
  - rewrite filter_cons_False by tauto. rewrite (filter_cons_False _ x) by done.
    exact IH.
Qed.

(** X17. In every state the alert manager reaches, the active alerts
    are exactly the alerts built so far that are not resolved, in the order
    of their construction: [get_active_alerts] returns each of them once,
    its test of the [resolved] flag never drops an alert of the active
    list, and no unresolved alert ever leaves the active list, not even
    when the history drops it. *)
Theorem active_alerts_are_the_unresolved_ones calls :
  let am := run calls Alerting.init in
  get_active_alerts am = filter (λ a, resolved a = false) (objects am)
  ∧ get_active_alerts am = deref (objects am) (alerts am)
  ∧ length (get_active_alerts am) = length (alerts am)
  ∧ NoDup (alerts am).
Proof.
  intros am. pose proof (reachable_active_are_unresolved calls) as H.
  fold am in H. unfold active_are_unresolved in H.
  pose proof (deref_unresolved [] (objects am)) as Hd. simpl in Hd.
  rewrite <- H in Hd.
  assert (Hg : get_active_alerts am = filter (λ a, resolved a = false) (objects am)).
  { unfold get_active_alerts. rewrite Hd. apply filter_all.
    intros a Ha. by apply list_elem_of_filter in Ha as [Ha _]. }
  split; [exact Hg |]. split; [by rewrite Hg, Hd |]. split.
  - rewrite Hg, <- Hd. unfold deref.
    assert (Hall : ∀ l : list nat, (∀ ref, ref ∈ l → is_Some (objects am !! ref)) →
              length (omap (λ ref, objects am !! ref) l) = length l).
    { induction l as [| ref l IH]; intros Hl; [done |].
      simpl. destruct (Hl ref) as [a Ha]; [left |]. rewrite Ha. simpl.
      f_equal. apply IH. intros r Hr. apply Hl. by right. }
    apply Hall. intros ref Hin. rewrite H in Hin.
    apply list_elem_of_filter in Hin as [Hin _]. unfold unresolved_at in Hin.
    destruct (objects am !! ref); [by eexists | done].
  - rewrite H. apply NoDup_filter, NoDup_seq.
Qed.

(** *** The ids *)

Lemma step_unique_ids seen am c :
  (∀ t lvl ttl msg pname meta clk,
     c = CreateAlert t lvl ttl msg pname meta clk → alert_id_of t clk ∉ seen) →
  unique_ids am ∧ ids_among seen am →
  let seen' := match c with
               | CreateAlert t _ _ _ _ _ clk => alert_id_of t clk :: seen
               | _ => seen
               end in
  unique_ids (step am c) ∧ ids_among seen' (step am c).
Proof.
  intros Hfresh [Huniq Hseen].
  assert (Hflag : ∀ f ref l h, keeps_identity f →
            let am' := {| objects := alter f ref (objects am); alerts := l;
                          alert_history := h;
                          _alert_cooldowns := _alert_cooldowns am |} in
            unique_ids am' ∧ ids_among seen am').
  { intros f ref l h Hf am'. split.
    - intros i j a a' Hi Hj Hid. simpl in Hi, Hj.
      apply (lookup_alter_flag _ _ _ _ _ Hf) in Hi as (a0 & Hi & Hi0 & _).
      apply (lookup_alter_flag _ _ _ _ _ Hf) in Hj as (a0' & Hj & Hj0 & _).
      apply (Huniq i j a0 a0' Hi Hj). congruence.
    - intros r a Ha. simpl in Ha.
      apply (lookup_alter_flag _ _ _ _ _ Hf) in Ha as (a0 & Ha & -> & _).
      exact (Hseen r a0 Ha). }
  destruct c as [t lvl ttl msg pname meta clk | x | x]; simpl.
  - specialize (Hfresh _ _ _ _ _ _ _ eq_refl).
    unfold create_alert. destruct (in_cooldown _ _ _); simpl.
    { split; [done |]. intros ref a Ha. right. exact (Hseen ref a Ha). }
    split.
    + intros i j a a' Hi Hj Hid. simpl in Hi, Hj.
      apply lookup_app_Some in Hi as [Hi | [Hil Hi]];
        apply lookup_app_Some in Hj as [Hj | [Hjl Hj]].
      * exact (Huniq i j a a' Hi Hj Hid).
      * apply list_lookup_singleton_Some in Hj as [_ <-]. simpl in Hid.
        destruct Hfresh. rewrite <- Hid. exact (Hseen i a Hi).
      * apply list_lookup_singleton_Some in Hi as [_ <-]. simpl in Hid.
        destruct Hfresh. rewrite Hid. exact (Hseen j a' Hj).
      * apply list_lookup_singleton_Some in Hi as [Hi0 _].
        apply list_lookup_singleton_Some in Hj as [Hj0 _]. lia.
    + intros ref a Ha. simpl in Ha. apply lookup_app_Some in Ha as [Ha | [_ Ha]].
      * right. exact (Hseen ref a Ha).
      * apply list_lookup_singleton_Some in Ha as [_ <-]. simpl. left.
  - unfold acknowledge_alert. destruct (find_active x am) as [[i r]|]; [| done].
    apply Hflag, set_acknowledged_keeps.
  - unfold resolve_alert. destruct (find_active x am) as [[i r]|]; [| done].
    apply Hflag, set_resolved_keeps.
Qed.

Lemma run_unique_ids calls seen am :
  fresh_ids seen calls →
  unique_ids am ∧ ids_among seen am →
  unique_ids (run calls am).
Proof.
  revert seen am. induction calls as [| c calls IH]; intros seen am Hfresh H; simpl.
  { by destruct H. }
  destruct c as [t lvl ttl msg pname meta clk | x | x]; simpl in Hfresh.
  - destruct Hfresh as [Hnew Hfresh]. apply (IH _ _ Hfresh).
    apply (step_unique_ids seen am (CreateAlert t lvl ttl msg pname meta clk)); [| done].
    by intros ? ? ? ? ? ? ? [= <- _ _ _ _ _ <-].
  - apply (IH _ _ Hfresh). by apply (step_unique_ids seen am (Acknowledge x)).
  - apply (IH _ _ Hfresh). by apply (step_unique_ids seen am (Resolve x)).
Qed.

(** A property that at most one position of a list satisfies is counted
    at most once. *)
Lemma length_filter_unique {A} (P : A → Prop) `{!∀ x, Decision (P x)} (l : list A) :
  (∀ (i j : nat) x y, l !! i = Some x → l !! j = Some y → P x → P y → i = j) →
  (length (filter P l) ≤ 1)%nat.
Proof.
  induction l as [| x l IH]; intros Huniq; [simpl; lia |].
  destruct (decide (P x)) as [Hx | Hx].
  - rewrite filter_cons_True by done.
    assert (Hnone : filter P l = []).
    { destruct (filter P l) as [| y l'] eqn:Hf; [done |].
      assert (Hy : y ∈ filter P l) by (rewrite Hf; left).
      apply list_elem_of_filter in Hy as [Hy [j Hj]%list_elem_of_lookup].
      specialize (Huniq 0%nat (S j) x y eq_refl Hj Hx Hy). lia. }
    rewrite Hnone. simpl. lia.
  - rewrite filter_cons_False by done. apply IH.
    intros i j y z Hi Hj Hy Hz.
    specialize (Huniq (S i) (S j) y z Hi Hj Hy Hz). lia.
Qed.

(** X18. The id of an alert is the text
    [f"{alert_type.value}_{datetime.now().timestamp()}"], and two readings
    of the clock can give one text.  When no [create_alert] of a run asks
    for the id of an earlier [create_alert] of the run, then in every state
    the run reaches no two alerts ever built share an id, at most one
    position of the active list answers to an id, and each id counts at
    most one active alert. *)
Theorem alert_ids_follow_construction calls :
  fresh_ids [] calls →
  let am := run calls Alerting.init in
  (∀ (i j : nat) a a',
     objects am !! i = Some a → objects am !! j = Some a' → id a = id a' → i = j)
  ∧ (∀ (i j : nat) ref ref' alert_id,
       alerts am !! i = Some ref → alerts am !! j = Some ref' →
       has_id (objects am) alert_id ref → has_id (objects am) alert_id ref' →
       i = j)
  ∧ (∀ alert_id, (active_with alert_id am ≤ 1)%nat).
Proof.
  intros Hfresh am.
  assert (Hinj : unique_ids am).
  { apply (run_unique_ids calls [] _ Hfresh). split.
    - intros i j a a' Hi. simpl in Hi. by rewrite lookup_nil in Hi.
    - intros ref a Ha. simpl in Ha. by rewrite lookup_nil in Ha. }
  assert (Hpos : unique_active_ids am).
  { intros i j ref ref' alert_id Hi Hj Hidi Hidj.
    unfold has_id in Hidi, Hidj.
    destruct (objects am !! ref) as [a|] eqn:Ha; simpl in Hidi; [| done].
    destruct (objects am !! ref') as [a'|] eqn:Ha'; simpl in Hidj; [| done].
    assert (ref = ref') as <- by (eapply Hinj; [done | done | congruence]).
    pose proof (reachable_active_are_unresolved calls) as Hact.
    fold am in Hact. unfold active_are_unresolved in Hact.
    eapply NoDup_lookup; [| exact Hi | exact Hj].
    rewrite Hact. apply NoDup_filter, NoDup_seq. }
  split; [exact Hinj |]. split; [exact Hpos |].
  intros alert_id. unfold active_with. apply length_filter_unique.
  intros i j ref ref' Hi Hj Hidi Hidj. by eapply Hpos.
Qed.

Lemma alert_ids_follow_construction_witness :
  let am := run Examples.two_alerts Alerting.init in
  fresh_ids [] Examples.two_alerts
  ∧ (id <$> objects am) = ["high_cpu_0.0"; "high_cpu_1.0"]
  ∧ (active_with "high_cpu_0.0" am ≤ 1)%nat.
Proof.
  intros am.
  assert (Hfresh : fresh_ids [] Examples.two_alerts).
  { simpl. split; [apply not_elem_of_nil |]. split; [| done].
    apply not_elem_of_cons. split; [by vm_compute | apply not_elem_of_nil]. }
  split; [exact Hfresh |]. split; [vm_compute; reflexivity |].
  exact (proj2 (proj2 (alert_ids_follow_construction Examples.two_alerts Hfresh))
           "high_cpu_0.0").
Defined.

(** *** The system check *)

Lemma create_alert_built t lvl ttl msg pname meta clk am :
  let am' := (create_alert t lvl ttl msg pname meta clk am).2 in
  am' = am
  ∨ ∃ a, objects am' = objects am ++ [a]
         ∧ alert_type a = t ∧ level a = lvl ∧ process_name a = pname
         ∧ acknowledged a = false ∧ resolved a = false
         ∧ _alert_cooldowns am' !! alert_key t pname
           = Some (at_cooldown clk + _cooldown_duration).
Proof.
  unfold create_alert. destruct (in_cooldown _ _ _); simpl; [by left |].
  right. eexists. split; [done |]. simpl. by rewrite lookup_insert_eq.
Qed.

Lemma disk_loop_sealed fmt clocks t0 mounts am expiry :
  within_cooldown t0 clocks →
  _alert_cooldowns am !! alert_key DISK_FULL None = Some expiry →
  t0 + _cooldown_duration ≤ expiry →
  foldl (disk_alert fmt clocks) am mounts = am.
Proof.
  intros Hw Hexp Hle. induction mounts as [| [mount usage] mounts IH]; [done |].
  cbn [foldl]. replace (disk_alert fmt clocks am (mount, usage)) with am; [exact IH |].
  unfold disk_alert. destruct (gt _ _); [| done].
  rewrite create_alert_suppressed; [done |].
  apply (in_cooldown_before _ _ _ expiry Hexp).
  destruct (Hw mount) as [_ Hlt]. lia.
Qed.

Lemma disk_loop_once fmt clocks t0 mounts am :
  within_cooldown t0 clocks →
  let am' := foldl (disk_alert fmt clocks) am mounts in
  am' = am
  ∨ ∃ a, objects am' = objects am ++ [a]
         ∧ alert_type a = DISK_FULL ∧ level a = CRITICAL ∧ process_name a = None.
Proof.
  intros Hw. revert am. induction mounts as [| [mount usage] mounts IH]; intros am.
  { by left. }
  cbn [foldl].
  assert (Hhead : disk_alert fmt clocks am (mount, usage) = am
            ∨ ∃ a, objects (disk_alert fmt clocks am (mount, usage)) = objects am ++ [a]
                   ∧ alert_type a = DISK_FULL ∧ level a = CRITICAL
                   ∧ process_name a = None
                   ∧ _alert_cooldowns (disk_alert fmt clocks am (mount, usage))
                       !! alert_key DISK_FULL None
                     = Some (at_cooldown (disk_clock clocks mount) + _cooldown_duration)).
  { unfold disk_alert. destruct (gt _ _); [| by left].
    match goal with
    | |- context [create_alert ?t ?l ?tt ?m ?p ?me ?c am] =>
        destruct (create_alert_built t l tt m p me c am)
          as [Hsame | (a & Hobj & Ht & Hl & Hp & _ & _ & Hcd)]
    end; [by left |].
    right. by exists a. }
  destruct Hhead as [-> | (a & Hobj & Ht & Hl & Hp & Hcd)]; [apply IH |].
  right. exists a. cbv zeta.
  rewrite (disk_loop_sealed fmt clocks t0 mounts _ _ Hw Hcd).
  - done.
  - destruct (Hw mount) as [Hle _]. lia.
Qed.

(** X19. One call of [check_system_alerts] whose readings of the clock
    in the loop over the mount points fall within one cooldown builds at
    most one disk alert, however many mount points are above 90 %: all of
    them share the key of the first.  It builds at most three alerts in
    all, each critical and without a process name, and leaves the alerts
    built before as they are. *)
Theorem system_check_builds_one_disk_alert fmt clocks metrics am t0 :
  within_cooldown t0 clocks →
  let am' := check_system_alerts fmt clocks metrics am in
  ∃ news, objects am' = objects am ++ news
    ∧ (length (filter (λ a, alert_type a = DISK_FULL) news) ≤ 1)%nat
    ∧ (length news ≤ 3)%nat
    ∧ Forall (λ a, process_name a = None ∧ level a = CRITICAL) news.
Proof.
  intros Hw am'. unfold am', check_system_alerts.
  set (am1 := if gt (s_cpu_percent metrics) 90%Q then _ else am).
  set (am2 := if gt (s_memory_percent metrics) 90%Q then _ else am1).
  assert (H1 : ∃ n1, objects am1 = objects am ++ n1 ∧ (length n1 ≤ 1)%nat
             ∧ Forall (λ a, alert_type a = SYSTEM_HIGH_CPU
                            ∧ process_name a = None ∧ level a = CRITICAL) n1).
  { unfold am1. destruct (gt _ _).
    - match goal with
      | |- context [create_alert ?t ?l ?tt ?m ?p ?me ?c am] =>
          destruct (create_alert_built t l tt m p me c am)
            as [-> | (a & -> & Ht & Hl & Hp & _)]
      end.
      + exists []. rewrite app_nil_r. split; [done |]. split; [simpl; lia | constructor].
      + exists [a]. split; [done |]. split; [simpl; lia |]. by repeat constructor.
    - exists []. rewrite app_nil_r. split; [done |]. split; [simpl; lia | constructor]. }
  assert (H2 : ∃ n2, objects am2 = objects am1 ++ n2 ∧ (length n2 ≤ 1)%nat
             ∧ Forall (λ a, alert_type a = SYSTEM_HIGH_MEMORY
                            ∧ process_name a = None ∧ level a = CRITICAL) n2).
  { unfold am2. destruct (gt (s_memory_percent metrics) _).
    - match goal with
      | |- context [create_alert ?t ?l ?tt ?m ?p ?me ?c am1] =>
          destruct (create_alert_built t l tt m p me c am1)
            as [-> | (a & -> & Ht & Hl & Hp & _)]
      end.
      + exists []. rewrite app_nil_r. split; [done |]. split; [simpl; lia | constructor].
      + exists [a]. split; [done |]. split; [simpl; lia |]. by repeat constructor.
    - exists []. rewrite app_nil_r. split; [done |]. split; [simpl; lia | constructor]. }
  destruct H1 as (n1 & Ho1 & Hl1 & Hf1). destruct H2 as (n2 & Ho2 & Hl2 & Hf2).
  assert (Hno : ∀ (t : AlertType) (l : list Alert),
            t ≠ DISK_FULL →
            Forall (λ a, alert_type a = t ∧ process_name a = None ∧ level a = CRITICAL) l →
            filter (λ a, alert_type a = DISK_FULL) l = []
            ∧ Forall (λ a, process_name a = None ∧ level a = CRITICAL) l).
  { intros t l Ht Hl. split.
    - induction Hl as [| a l [Ha _] _ IH]; [done |].
      rewrite filter_cons_False by congruence. exact IH.
    - eapply Forall_impl; [exact Hl |]. by intros a (_ & ? & ?). }
  destruct (Hno SYSTEM_HIGH_CPU n1 ltac:(done) Hf1) as [Hd1 Hs1].
  destruct (Hno SYSTEM_HIGH_MEMORY n2 ltac:(done) Hf2) as [Hd2 Hs2].
  destruct (disk_loop_once fmt clocks t0 (s_disk_usage metrics) am2 Hw)
    as [-> | (a & -> & Ht & Hl & Hp)].
  - exists (n1 ++ n2). rewrite Ho2, Ho1, <- app_assoc. split; [done |].
    rewrite filter_app, Hd1, Hd2, !length_app. simpl.
    split; [lia |]. split; [lia |]. by apply Forall_app.
  - exists (n1 ++ n2 ++ [a]). rewrite Ho2, Ho1, <- !app_assoc. split; [done |].
    rewrite !filter_app, Hd1, Hd2, !length_app. simpl.
    rewrite filter_cons_True, filter_nil by done. simpl.
    split; [lia |]. split; [lia |].
    apply Forall_app. split; [done |]. apply Forall_app. split; [done |].
    by repeat constructor.
Qed.

Lemma system_check_builds_one_disk_alert_witness :
  let clocks := Examples.system_clocks_at 0 in
  let am' := check_system_alerts Examples.fmt clocks Examples.full_disks Alerting.init in
  within_cooldown 0 clocks
  ∧ (title <$> objects am') = ["Disk space critical: /"]
  ∧ ∃ news, objects am' = objects Alerting.init ++ news
      ∧ (length (filter (λ a, alert_type a = DISK_FULL) news) ≤ 1)%nat
      ∧ (length news ≤ 3)%nat
      ∧ Forall (λ a, process_name a = None ∧ level a = CRITICAL) news.
Proof.
  intros clocks am'.
  assert (Hw : within_cooldown 0 clocks).
  { intros mount. simpl. unfold _cooldown_duration, minutes. lia. }
  split; [exact Hw |]. split; [vm_compute; reflexivity |].
  exact (system_check_builds_one_disk_alert Examples.fmt clocks Examples.full_disks
           Alerting.init 0 Hw).
Defined.

(** *** The process check *)

Lemma alert_key_inj t t' pname pname' :
  alert_key t pname = alert_key t' pname' →
  t = t' ∧ name_or_system pname = name_or_system pname'.
Proof.
  unfold alert_key. generalize (name_or_system pname) (name_or_system pname').
  intros n n' H. destruct t, t'; simpl in H; simplify_eq; done.
Qed.

Lemma create_alert_frames_cooldown t lvl ttl msg pname meta clk am t' pname' now :
  name_or_system pname' ≠ name_or_system pname →
  in_cooldown (alert_key t' pname') now (create_alert t lvl ttl msg pname meta clk am).2
  = in_cooldown (alert_key t' pname') now am.
Proof.
  intros Hne. unfold create_alert. destruct (in_cooldown (alert_key t pname) _ _); [done |].
  unfold in_cooldown. simpl. rewrite lookup_insert_ne; [done |].
  intros Heq. apply alert_key_inj in Heq as [_ Heq]. by apply Hne.
Qed.

Lemma gt_le x y : (x <= y)%Q → gt x y = false.
Proof.
  intros Hle. unfold gt. destruct (Qlt_le_dec y x) as [Hlt | _]; [| done].
  exfalso. exact (Qlt_not_le _ _ Hlt Hle).
Qed.

Lemma guarded_create_built (b : bool) t lvl ttl msg pname meta clk am :
  ∃ n, objects (if b then (create_alert t lvl ttl msg pname meta clk am).2 else am)
       = objects am ++ n
       ∧ (length n ≤ 1)%nat
       ∧ Forall (λ a, process_name a = pname
                      ∧ acknowledged a = false ∧ resolved a = false) n.
Proof.
  destruct b.
  - destruct (create_alert_built t lvl ttl msg pname meta clk am)
      as [Hsame | (a & Hobj & _ & _ & Hp & Hack & Hres & _)].
    + exists []. rewrite Hsame, app_nil_r.
      split; [done |]. split; [simpl; lia | constructor].
    + exists [a]. split; [exact Hobj |]. split; [simpl; lia |]. by repeat constructor.
  - exists []. rewrite app_nil_r. split; [done |]. split; [simpl; lia | constructor].
Qed.

Lemma guarded_create_frames (b : bool) t lvl ttl msg pname meta clk am t' pname' now :
  name_or_system pname' ≠ name_or_system pname →
  in_cooldown (alert_key t' pname') now
    (if b then (create_alert t lvl ttl msg pname meta clk am).2 else am)
  = in_cooldown (alert_key t' pname') now am.
Proof. intros Hne. destruct b; [| done]. by apply create_alert_frames_cooldown. Qed.

(** X20. [check_process_alerts] builds at most three alerts, all
    carrying the name of the checked process, unacknowledged and
    unresolved, and leaves the alerts built before as they are.  It leaves
    the cooldown of every key that belongs to another name as it is, so
    that the checks of two processes never suppress each other's alerts.
    A process that has not failed and whose CPU and memory readings are
    at most the thresholds, equality included, leaves the manager
    unchanged. *)
Theorem process_check_concerns_one_process fmt clocks process metrics am :
  let cfg := config process in
  let am' := check_process_alerts fmt clocks process metrics am in
  (∃ news, objects am' = objects am ++ news
     ∧ (length news ≤ 3)%nat
     ∧ Forall (λ a, process_name a = Some (name cfg)
                    ∧ acknowledged a = false ∧ resolved a = false) news)
  ∧ (∀ t pname now,
       name_or_system pname ≠ name_or_system (Some (name cfg)) →
       in_cooldown (alert_key t pname) now am' = in_cooldown (alert_key t pname) now am)
  ∧ (m_status metrics ≠ FAILED →
     (m_cpu_percent metrics <= cpu_threshold cfg)%Q →
     (m_memory_percent metrics <= memory_threshold cfg)%Q →
     am' = am).
Proof.
  intros cfg am'. unfold am', check_process_alerts. fold cfg.
  set (am1 := if bool_decide (m_status metrics = FAILED) && alert_on_failure cfg
              then _ else am).
  set (am2 := if alert_on_high_cpu cfg && gt (m_cpu_percent metrics) (cpu_threshold cfg)
              then _ else am1).
  set (am3 := if alert_on_high_memory cfg
                 && gt (m_memory_percent metrics) (memory_threshold cfg)
              then _ else am2).
  split; [| split].
  - assert (H1 : ∃ n, objects am1 = objects am ++ n ∧ (length n ≤ 1)%nat
               ∧ Forall (λ a, process_name a = Some (name cfg)
                              ∧ acknowledged a = false ∧ resolved a = false) n)
      by apply guarded_create_built.
    assert (H2 : ∃ n, objects am2 = objects am1 ++ n ∧ (length n ≤ 1)%nat
               ∧ Forall (λ a, process_name a = Some (name cfg)
                              ∧ acknowledged a = false ∧ resolved a = false) n)
      by apply guarded_create_built.
    assert (H3 : ∃ n, objects am3 = objects am2 ++ n ∧ (length n ≤ 1)%nat
               ∧ Forall (λ a, process_name a = Some (name cfg)
                              ∧ acknowledged a = false ∧ resolved a = false) n)
      by apply guarded_create_built.
    destruct H1 as (n1 & Ho1 & Hl1 & Hf1). destruct H2 as (n2 & Ho2 & Hl2 & Hf2).
    destruct H3 as (n3 & Ho3 & Hl3 & Hf3).
    exists (n1 ++ n2 ++ n3). rewrite Ho3, Ho2, Ho1, <- !app_assoc.
    split; [done |]. rewrite !length_app. split; [lia |].
    by repeat (apply Forall_app; split).
  - intros t pname now Hne.
    assert (Hc1 : in_cooldown (alert_key t pname) now am1
                  = in_cooldown (alert_key t pname) now am)
      by (by apply guarded_create_frames).
    assert (Hc2 : in_cooldown (alert_key t pname) now am2
                  = in_cooldown (alert_key t pname) now am1)
      by (by apply guarded_create_frames).
    assert (Hc3 : in_cooldown (alert_key t pname) now am3
                  = in_cooldown (alert_key t pname) now am2)
      by (by apply guarded_create_frames).
    by rewrite Hc3, Hc2, Hc1.
  - intros Hst Hcpu Hmem. unfold am3, am2, am1.
    rewrite (gt_le _ _ Hcpu), (gt_le _ _ Hmem), !andb_false_r.
    by rewrite bool_decide_eq_false_2.
Qed.
End AlertOperations.

(** ** The enhanced manager's restart *)
Section IntelligentRestart.
Import Python Datetime Models Crash Enhanced.
Local Open Scope Z_scope.

Implicit Types (m : EnhancedProcessManager) (n : string) (env : IntelligentEnv).

Lemma with_crash_manager_same m : with_crash_manager (crash_manager m) m = m.
Proof. by destruct m. Qed.

(** X21. [intelligent_restart] of a name that is not registered, of a
    disabled process, or of a process whose quarantine has not expired at
    the gate's reading of the clock, answers [False] and changes nothing:
    neither the registry, nor the crash manager's rings and sets, nor the
    crashes found in the logs. *)
Theorem refused_intelligent_restart_changes_nothing n env m :
  Supervisor.processes (base m) !! n = None
  ∨ is_disabled (crash_manager m) n
  ∨ (∃ expiry, quarantined_processes (crash_manager m) !! n = Some expiry
               ∧ gate_now env < expiry) →
  intelligent_restart n env m = (Returned false, m).
Proof.
  intros H. unfold intelligent_restart.
  destruct (Supervisor.processes (base m) !! n) as [process|] eqn:Hreg; [| done].
  destruct H as [[=] | H].
  assert (Hgate : ∃ reason,
            can_restart_process n (gate_now env) (gate_now' env) (crash_manager m)
            = ((false, reason), crash_manager m)).
  { unfold can_restart_process, is_disabled in *.
    destruct (disabled_processes (crash_manager m) !! n) as [d|]; [by eexists |].
    destruct H as [[? [=]] | (expiry & -> & Hlt)].
    rewrite bool_decide_eq_true_2 by done. by eexists. }
  destruct Hgate as [reason ->]. simpl. by rewrite with_crash_manager_same.
Qed.

Lemma refused_intelligent_restart_changes_nothing_witness :
  let m := Examples.failed_and_disabled in
  is_disabled (crash_manager m) "svc"
  ∧ intelligent_restart "svc" (Examples.intelligent_env (2 * Examples.sec)) m
    = (Returned false, m).
Proof.
  intros m.
  assert (Hd : is_disabled (crash_manager m) "svc") by (vm_compute; eauto).
  split; [exact Hd |].
  apply refused_intelligent_restart_changes_nothing. right. by left.
Defined.

(** An exception of [record_crash] escapes before the registry is
    touched. *)
Lemma intelligent_restart_raises n env m process reason cm1 e :
  Supervisor.processes (base m) !! n = Some process →
  can_restart_process n (gate_now env) (gate_now' env) (crash_manager m)
  = ((true, reason), cm1) →
  (record_crash n "restart_requested" None (crash_clock env) cm1).1 = Raised e →
  intelligent_restart n env m
  = (Raised e,
     with_crash_manager
       (record_crash n "restart_requested" None (crash_clock env) cm1).2 m).
Proof.
  intros Hreg Hgate Hrec. unfold intelligent_restart. rewrite Hreg, Hgate.
  cbn [negb fst snd]. cbv zeta. rewrite Hrec. by destruct m.
Qed.

Lemma intelligent_restart_goes_ahead n env m process reason cm1 a :
  Supervisor.processes (base m) !! n = Some process →
  can_restart_process n (gate_now env) (gate_now' env) (crash_manager m)
  = ((true, reason), cm1) →
  (record_crash n "restart_requested" None (crash_clock env) cm1).1 = Returned a →
  process_type (config process) ≠ NODEJS
  ∨ recent_logged (recent_now env) (default [] (crash_history m !! n)) = []
  ∨ action (get_restart_strategy
              (recent_logged (recent_now env) (default [] (crash_history m !! n))))
    ≠ no_restart →
  intelligent_restart n env m
  = ((Supervisor.restart_process n (restart_env env) (base m)).1,
     {| base := (Supervisor.restart_process n (restart_env env) (base m)).2;
        crash_manager :=
          (record_crash n "restart_requested" None (crash_clock env) cm1).2;
        crash_history := crash_history m |}).
Proof.
  intros Hreg Hgate Hrec Hgo. unfold intelligent_restart. rewrite Hreg, Hgate.
  cbn [negb fst snd]. cbv zeta. rewrite Hrec. simpl.
  set (recent := recent_logged _ _) in *.
  assert (Hrestart :
    restart_process n (restart_env env)
      (with_crash_manager
         (record_crash n "restart_requested" None (crash_clock env) cm1).2
         (with_crash_manager cm1 m))
    = ((Supervisor.restart_process n (restart_env env) (base m)).1,
       {| base := (Supervisor.restart_process n (restart_env env) (base m)).2;
          crash_manager :=
            (record_crash n "restart_requested" None (crash_clock env) cm1).2;
          crash_history := crash_history m |})).
  { unfold restart_process, inherited. simpl.
    by destruct (Supervisor.restart_process n (restart_env env) (base m)). }
  destruct (bool_decide (process_type (config process) = NODEJS)) eqn:Hty; simpl;
    [| exact Hrestart].
  destruct (bool_decide (recent ≠ [])) eqn:Hne; simpl; [| exact Hrestart].
  apply bool_decide_eq_true in Hty. apply bool_decide_eq_true in Hne.
  destruct Hgo as [Hgo | [Hgo | Hgo]]; [done | done |].
  destruct (action (get_restart_strategy recent)); done.
Qed.

Lemma intelligent_restart_held_back n env m process reason cm1 a :
  Supervisor.processes (base m) !! n = Some process →
  can_restart_process n (gate_now env) (gate_now' env) (crash_manager m)
  = ((true, reason), cm1) →
  (record_crash n "restart_requested" None (crash_clock env) cm1).1 = Returned a →
  process_type (config process) = NODEJS →
  recent_logged (recent_now env) (default [] (crash_history m !! n)) ≠ [] →
  action (get_restart_strategy
            (recent_logged (recent_now env) (default [] (crash_history m !! n))))
  = no_restart →
  intelligent_restart n env m
  = (Returned false,
     with_crash_manager
       (record_crash n "restart_requested" None (crash_clock env) cm1).2 m).
Proof.
  intros Hreg Hgate Hrec Hty Hne Hact. unfold intelligent_restart.
  rewrite Hreg, Hgate. cbn [negb fst snd]. cbv zeta. rewrite Hrec. simpl.
  rewrite Hact. rewrite !bool_decide_eq_true_2 by done. simpl. by destruct m.
Qed.

Lemma gate_result n now now' cm :
  (can_restart_process n now now' cm).1.1 = true →
  ∃ reason, can_restart_process n now now' cm
            = ((true, reason), (can_restart_process n now now' cm).2).
Proof.
  destruct (can_restart_process n now now' cm) as [[b reason] cm1]. simpl.
  intros ->. by eexists.
Qed.

(** A crash whose action is carried out leaves the process in the
    set of the action. *)
Lemma record_crash_enters_set n reason code clk cm :
  let r := record_crash n reason code clk cm in
  (r.1 = Returned DISABLE ∨ r.1 = Returned KILL_DEPENDENCIES → is_disabled r.2 n)
  ∧ (r.1 = Returned QUARANTINE → is_quarantined r.2 n).
Proof.
  unfold record_crash, is_disabled, is_quarantined.
  destruct (_evaluate_crash_policy _ _ _) as [a | e];
    [| split; [by intros [[=] | [=]] | by intros [=]]].
  destruct a.
  - split; [by intros [[=] | [=]] | by intros [=]].
  - simpl. split; [intros _ | by intros [=]]. by rewrite lookup_insert_eq.
  - simpl. split; [intros _ | by intros [=]].
    rewrite disable_all_lookup. case_decide; [done |]. by rewrite lookup_insert_eq.
  - cbn [_execute_crash_action].
    match goal with
    | |- context [_quarantine_process ?a ?b ?c] =>
        assert (Hdec : Decision (quarantine_in_range (policy_for c a) b))
          by (unfold quarantine_in_range; apply _);
        destruct Hdec as [Hin | Hout];
        [rewrite (quarantine_process_in_range a b c Hin)
        | rewrite (quarantine_process_out_of_range a b c Hout)]
    end; simpl.
    + split; [by intros [[=] | [=]] |]. intros _. by rewrite lookup_insert_eq.
    + split; [by intros [[=] | [=]] | by intros [=]].
Qed.

(** X22. An [intelligent_restart] that passes the gate records its
    ["restart_requested"] crash first.  When [record_crash] raises, the
    exception escapes and the registry is untouched.  When it returns and
    the call is not held back by the restart strategy of a Node.js
    application, the process is restarted exactly as [restart_process]
    does, without consulting the gate again: when the recorded crash makes
    the policy disable or quarantine the process, the same call still
    stops and starts it, and leaves it in the disabled or the quarantined
    set. *)
Theorem intelligent_restart_restarts_what_it_disables n env m process :
  Supervisor.processes (base m) !! n = Some process →
  (can_restart_process n (gate_now env) (gate_now' env) (crash_manager m)).1.1 = true →
  process_type (config process) ≠ NODEJS
  ∨ recent_logged (recent_now env) (default [] (crash_history m !! n)) = []
  ∨ action (get_restart_strategy
              (recent_logged (recent_now env) (default [] (crash_history m !! n))))
    ≠ no_restart →
  let cm1 :=
    (can_restart_process n (gate_now env) (gate_now' env) (crash_manager m)).2 in
  let recorded := record_crash n "restart_requested" None (crash_clock env) cm1 in
  let restarted := Supervisor.restart_process n (restart_env env) (base m) in
  let r := intelligent_restart n env m in
  ((∃ a, recorded.1 = Returned a) → r.1 = restarted.1 ∧ base r.2 = restarted.2)
  ∧ (∀ e, recorded.1 = Raised e → r.1 = Raised e ∧ base r.2 = base m)
  ∧ crash_manager r.2 = recorded.2
  ∧ crash_history r.2 = crash_history m
  ∧ (recorded.1 = Returned DISABLE ∨ recorded.1 = Returned KILL_DEPENDENCIES →
     is_disabled (crash_manager r.2) n)
  ∧ (recorded.1 = Returned QUARANTINE → is_quarantined (crash_manager r.2) n).
Proof.
  intros Hreg Hpass Hgo cm1 recorded restarted r.
  destruct (gate_result _ _ _ _ Hpass) as [reason Hgate].
  destruct (record_crash_enters_set n "restart_requested" None (crash_clock env) cm1)
    as [Hd Hq].
  fold recorded in Hd, Hq.
  assert (Hcm : crash_manager r.2 = recorded.2 ∧ crash_history r.2 = crash_history m
                ∧ ((∃ a, recorded.1 = Returned a) →
                   r.1 = restarted.1 ∧ base r.2 = restarted.2)
                ∧ (∀ e, recorded.1 = Raised e → r.1 = Raised e ∧ base r.2 = base m)).
  { unfold r. destruct recorded.1 as [a | e] eqn:Hrec.
    - rewrite (intelligent_restart_goes_ahead n env m process reason cm1 a
                 Hreg Hgate Hrec Hgo).
      simpl. split; [done |]. split; [done |]. split; [done | by intros e [=]].
    - rewrite (intelligent_restart_raises n env m process reason cm1 e
                 Hreg Hgate Hrec).
      simpl. split; [done |]. split; [done |].
      split; [by intros [a [=]] | by intros e' [= ->]]. }
  destruct Hcm as (Hcm & Hh & Hret & Hraise).
  split; [exact Hret |]. split; [exact Hraise |]. split; [exact Hcm |].
  split; [exact Hh |]. rewrite Hcm. by split.
Qed.

Lemma intelligent_restart_restarts_what_it_disables_witness :
  let m := Examples.enhanced_strict in
  let r := intelligent_restart "svc" (Examples.intelligent_env Examples.sec) m in
  ¬ is_disabled (crash_manager m) "svc"
  ∧ r.1 = Returned true
  ∧ is_disabled (crash_manager r.2) "svc"
  ∧ (status <$> Supervisor.processes (base r.2) !! "svc") = Some RUNNING.
Proof.
  intros m r.
  destruct (Supervisor.processes (base m) !! "svc") as [process|] eqn:Hreg;
    [| by vm_compute in Hreg].
  assert (Hty : process_type (config process) ≠ NODEJS).
  { vm_compute in Hreg. injection Hreg as <-. simpl. discriminate. }
  assert (Hpass : (can_restart_process "svc" Examples.sec Examples.sec
                     (crash_manager m)).1.1 = true) by (vm_compute; reflexivity).
  destruct (intelligent_restart_restarts_what_it_disables "svc"
              (Examples.intelligent_env Examples.sec) m process Hreg Hpass
              (or_introl Hty))
    as (Hret & _ & _ & _ & Hd & _).
  destruct Hret as [Hr Hb]; [eexists; vm_compute; reflexivity |].
  split; [by intros [? [=]] |].
  split; [etrans; [exact Hr | vm_compute; reflexivity] |].
  split; [apply Hd; left; vm_compute; reflexivity |].
  etrans; [exact (f_equal (λ pm, status <$> Supervisor.processes pm !! "svc") Hb) |].
  vm_compute. reflexivity.
Defined.

Lemma no_restart_iff (crash_info : list LogCrash) (c : LogCrash) :
  last crash_info = Some c →
  action (get_restart_strategy crash_info) = no_restart
  ↔ crash_type c = Some "missing_module" ∨ crash_type c = Some "syntax_error".
Proof.
  intros Hlast. unfold get_restart_strategy. rewrite Hlast.
  repeat case_bool_decide; simpl; split; intros Hkind; try done; try tauto;
    destruct Hkind; congruence.
Qed.

(** X23. For a Node.js application whose newest crash found in the logs
    of the last ten minutes is a missing module or a syntax error, and for
    no other kind, the restart strategy is [no_restart].  An
    [intelligent_restart] that passes the gate then leaves the registry and
    the logged crashes untouched and answers [False], or lets the exception
    of [record_crash] escape; in both cases it has already recorded its
    ["restart_requested"] crash: the crash manager is left as
    [record_crash] leaves it, with the action of the crash policy carried
    out when [record_crash] returns. *)
Theorem held_back_restart_still_counts_as_crash n env m process c :
  Supervisor.processes (base m) !! n = Some process →
  (can_restart_process n (gate_now env) (gate_now' env) (crash_manager m)).1.1 = true →
  process_type (config process) = NODEJS →
  last (recent_logged (recent_now env) (default [] (crash_history m !! n))) = Some c →
  let recent := recent_logged (recent_now env) (default [] (crash_history m !! n)) in
  let cm1 :=
    (can_restart_process n (gate_now env) (gate_now' env) (crash_manager m)).2 in
  let recorded := record_crash n "restart_requested" None (crash_clock env) cm1 in
  let r := intelligent_restart n env m in
  (action (get_restart_strategy recent) = no_restart
   ↔ crash_type c = Some "missing_module" ∨ crash_type c = Some "syntax_error")
  ∧ crash_manager r.2 = recorded.2
  ∧ (crash_type c = Some "missing_module" ∨ crash_type c = Some "syntax_error" →
     base r.2 = base m ∧ crash_history r.2 = crash_history m
     ∧ ((∃ a, recorded.1 = Returned a) → r.1 = Returned false)
     ∧ (∀ e, recorded.1 = Raised e → r.1 = Raised e)).
Proof.
  intros Hreg Hpass Hty Hlast recent cm1 recorded r.
  destruct (gate_result _ _ _ _ Hpass) as [reason Hgate].
  pose proof (no_restart_iff recent c Hlast) as Hiff.
  assert (Hne : recent ≠ []).
  { intros Hnil. unfold recent in Hnil. by rewrite Hnil in Hlast. }
  split; [exact Hiff |].
  destruct recorded.1 as [a | e] eqn:Hrec.
  - split.
    + destruct (action (get_restart_strategy recent)) eqn:Hact; unfold r.
      1,2,4: rewrite (intelligent_restart_goes_ahead n env m process reason cm1 a
                        Hreg Hgate Hrec);
        [done | right; right; fold recent; by rewrite Hact].
      by rewrite (intelligent_restart_held_back n env m process reason cm1 a
                    Hreg Hgate Hrec Hty Hne Hact).
    + intros Hkind. apply Hiff in Hkind. unfold r.
      rewrite (intelligent_restart_held_back n env m process reason cm1 a
                 Hreg Hgate Hrec Hty Hne Hkind).
      simpl. split; [done |]. split; [done |]. split; [done | by intros e [=]].
  - unfold r.
    rewrite (intelligent_restart_raises n env m process reason cm1 e Hreg Hgate Hrec).
    simpl. split; [done |]. intros _. split; [done |]. split; [done |].
    split; [by intros [a [=]] | by intros e' [= ->]].
Qed.

Lemma held_back_restart_still_counts_as_crash_witness :
  let m := Examples.web_missing_module in
  let r := intelligent_restart "web" (Examples.intelligent_env Examples.sec) m in
  r.1 = Returned false ∧ base r.2 = base m
  ∧ length (ring (crash_manager m) "web") = 0%nat
  ∧ length (ring (crash_manager r.2) "web") = 1%nat.
Proof.
  intros m r.
  destruct (Supervisor.processes (base m) !! "web") as [process|] eqn:Hreg;
    [| by vm_compute in Hreg].
  assert (Hty : process_type (config process) = NODEJS).
  { vm_compute in Hreg. by injection Hreg as <-. }
  assert (Hpass : (can_restart_process "web" Examples.sec Examples.sec
                     (crash_manager m)).1.1 = true) by (vm_compute; reflexivity).
  destruct (held_back_restart_still_counts_as_crash "web"
              (Examples.intelligent_env Examples.sec) m process
              {| crash_type := Some "missing_module"; recorded_at := 0 |}
              Hreg Hpass Hty)
    as (_ & Hcm & Hheld).
  { vm_compute. reflexivity. }
  destruct Hheld as (Hb & _ & Hr & _); [by left |].
  split; [apply Hr; eexists; vm_compute; reflexivity |]. split; [exact Hb |].
  split; [vm_compute; reflexivity |].
  etrans; [exact (f_equal (λ cm, length (ring cm "web")) Hcm) |].
  vm_compute. reflexivity.
Defined.

(** *** Crashes found in the logs *)

Lemma stamp_crashes_snoc (now : nat → datetime) (cs : list LogCrash) (c : LogCrash) :
  CrashLog.stamp_crashes now (cs ++ [c])
  = CrashLog.stamp_crashes now cs
    ++ [{| crash_type := crash_type c; recorded_at := now (length cs) |}].
Proof.
  unfold CrashLog.stamp_crashes. rewrite imap_app. simpl.
  by rewrite Nat.add_0_r.
Qed.

Lemma recent_logged_snoc (now : nat → datetime) (l : list LogCrash) (c : LogCrash) :
  recent_logged now (l ++ [c])
  = recent_logged now l
    ++ (if bool_decide (now (length l) - minutes 10 < recorded_at c) then [c] else []).
Proof.
  unfold recent_logged. rewrite imap_app, omap_app. simpl.
  rewrite Nat.add_0_r. by case_bool_decide.
Qed.

Lemma recent_logged_old (now : nat → datetime) (l : list LogCrash) :
  (∀ (i : nat) c, c ∈ l → recorded_at c ≤ now i - minutes 10) →
  recent_logged now l = [].
Proof.
  induction l as [| c l IH] using rev_ind; intros Hold; [done |].
  rewrite recent_logged_snoc, IH.
  - rewrite bool_decide_eq_false_2; [done |].
    assert (Hc : c ∈ l ++ [c]) by (apply elem_of_app; right; by left).
    specialize (Hold (length l) c Hc). lia.
  - intros i c' Hc'. apply Hold. apply elem_of_app. by left.
Qed.

(** X27. A crash that [_record_crashes] has just stamped decides the
    next [intelligent_restart] of a Node.js application for ten minutes.
    While the newest recorded crash is less than ten minutes old at the
    readings of the restart, a missing module or a syntax error makes
    every [intelligent_restart] that passes the gate leave the registry
    untouched and answer [False], unless the exception of [record_crash]
    escapes.  Once all the recorded crashes are ten minutes old or older
    and [record_crash] returns, the restart is carried out as
    [restart_process] does, whatever their types. *)
Theorem logged_crash_decides_for_ten_minutes n env m process earlier c clk :
  Supervisor.processes (base m) !! n = Some process →
  process_type (config process) = NODEJS →
  (can_restart_process n (gate_now env) (gate_now' env) (crash_manager m)).1.1 = true →
  CrashLog.at_cutoff clk - hours 24 < CrashLog.at_crash clk (length earlier) →
  let m' := CrashLog._record_crashes n (earlier ++ [c]) clk m in
  let cm1 :=
    (can_restart_process n (gate_now env) (gate_now' env) (crash_manager m)).2 in
  let recorded := record_crash n "restart_requested" None (crash_clock env) cm1 in
  let r := intelligent_restart n env m' in
  let restarted := Supervisor.restart_process n (restart_env env) (base m) in
  ((∀ i, recent_now env i - minutes 10 < CrashLog.at_crash clk (length earlier)) →
   CrashLog.needs_manual_fix c →
   base r.2 = base m
   ∧ ((∃ a, recorded.1 = Returned a) → r.1 = Returned false)
   ∧ (∀ e, recorded.1 = Raised e → r.1 = Raised e))
  ∧ ((∀ (i : nat) c', c' ∈ default [] (crash_history m' !! n) →
        recorded_at c' ≤ recent_now env i - minutes 10) →
     (∃ a, recorded.1 = Returned a) →
     r.1 = restarted.1 ∧ base r.2 = restarted.2).
Proof.
  intros Hreg Hty Hpass Hfresh m' cm1 recorded r restarted.
  destruct (gate_result _ _ _ _ Hpass) as [reason Hgate]. fold cm1 in Hgate.
  set (stamped := {| crash_type := crash_type c;
                     recorded_at := CrashLog.at_crash clk (length earlier) |}).
  assert (Hstored : ∃ l, default [] (crash_history m' !! n) = l ++ [stamped]).
  { unfold m', CrashLog._record_crashes. simpl. rewrite lookup_insert_eq. simpl.
    rewrite stamp_crashes_snoc, app_assoc, filter_app.
    rewrite filter_cons_True by (simpl; lia). rewrite filter_nil. by eexists. }
  destruct Hstored as [l Hstored].
  split.
  - intros Hrecent Hkind.
    assert (Hlast : last (recent_logged (recent_now env)
                            (default [] (crash_history m' !! n))) = Some stamped).
    { rewrite Hstored, recent_logged_snoc.
      rewrite bool_decide_eq_true_2 by (simpl; apply Hrecent). apply last_snoc. }
    assert (Hne : recent_logged (recent_now env) (default [] (crash_history m' !! n))
                  ≠ []).
    { intros Hnil. by rewrite Hnil in Hlast. }
    assert (Hact : action (get_restart_strategy
                     (recent_logged (recent_now env)
                        (default [] (crash_history m' !! n)))) = no_restart).
    { by apply (no_restart_iff _ stamped Hlast). }
    unfold r. destruct recorded.1 as [a | e] eqn:Hrec.
    + rewrite (intelligent_restart_held_back n env m' process reason cm1 a
                 Hreg Hgate Hrec Hty Hne Hact).
      simpl. split; [done |]. split; [done | by intros e [=]].
    + rewrite (intelligent_restart_raises n env m' process reason cm1 e
                 Hreg Hgate Hrec).
      simpl. split; [done |]. split; [by intros [a [=]] | by intros e' [= ->]].
  - intros Hold [a Hrec]. unfold r.
    rewrite (intelligent_restart_goes_ahead n env m' process reason cm1 a
               Hreg Hgate Hrec);
      [done |].
    right. left. by apply recent_logged_old.
Qed.

Lemma logged_crash_decides_for_ten_minutes_witness :
  let m := Examples.web_registered in
  let c := {| crash_type := Some "missing_module"; recorded_at := 0 |} in
  let m' := CrashLog._record_crashes "web" [c] (Examples.record_clock_at 0) m in
  (intelligent_restart "web" (Examples.intelligent_env Examples.sec) m').1
  = Returned false
  ∧ (intelligent_restart "web" (Examples.intelligent_env (700 * Examples.sec)) m').1
    = Returned true.
Proof.
  intros m c m'.
  destruct (Supervisor.processes (base m) !! "web") as [process|] eqn:Hreg;
    [| by vm_compute in Hreg].
  assert (Hty : process_type (config process) = NODEJS).
  { vm_compute in Hreg. by injection Hreg as <-. }
  assert (Hpass : ∀ t, (can_restart_process "web" t t (crash_manager m)).1.1 = true)
    by (intros t; vm_compute; reflexivity).
  assert (Hfresh : CrashLog.at_cutoff (Examples.record_clock_at 0) - hours 24
                   < CrashLog.at_crash (Examples.record_clock_at 0) (length (@nil LogCrash)))
    by (vm_compute; reflexivity).
  split.
  - destruct (logged_crash_decides_for_ten_minutes "web"
                (Examples.intelligent_env Examples.sec) m process [] c
                (Examples.record_clock_at 0) Hreg Hty (Hpass _) Hfresh) as [Hheld _].
    destruct Hheld as (_ & Hr & _); [intros i; vm_compute; reflexivity | by left |].
    apply Hr. eexists. vm_compute. reflexivity.
  - destruct (logged_crash_decides_for_ten_minutes "web"
                (Examples.intelligent_env (700 * Examples.sec)) m process [] c
                (Examples.record_clock_at 0) Hreg Hty (Hpass _) Hfresh) as [_ Hgo].
    destruct Hgo as [Hr _].
    + intros i c' Hc'. vm_compute in Hc'.
      apply list_elem_of_singleton in Hc' as ->. vm_compute. discriminate.
    + eexists. vm_compute. reflexivity.
    + etrans; [exact Hr |]. vm_compute. reflexivity.
Defined.
End IntelligentRestart.

(** ** The log manager *)
Section LogOperations.
Import Logs.
Local Open Scope Z_scope.

Implicit Types (lm : LogManager) (name : string) (env : WriteEnv).

Lemma insert_key_iff (P Q : Prop) (name n : string) :
  (P ↔ Q) → (name = n ∨ name ≠ n ∧ P) ↔ (n = name ∨ Q).
Proof.
  intros H. split.
  - intros [-> | [_ HP]]; [by left | right; by apply H].
  - intros [-> | HQ]; [by left |].
    destruct (decide (name = n)) as [Heq | Hne]; [by left |].
    right. split; [done | by apply H].
Qed.

Lemma delete_key_iff (P Q : Prop) (name n : string) :
  (P ↔ Q) → (name ≠ n ∧ P) ↔ (Q ∧ ¬ n = name).
Proof.
  intros H. split.
  - intros [Hne HP]. split; [by apply H | by intros ->].
  - intros [HQ Hne]. split; [by intros -> | by apply H].
Qed.

Lemma create_log_file_consistent name ok path lm :
  consistent lm → consistent (create_log_file name ok path lm).2.
Proof.
  intros (Hb & Hf & Hlen). unfold create_log_file. destruct ok; [| done].
  split; [| split]; simpl.
  - intros n. rewrite lookup_insert_is_Some, elem_of_union, elem_of_singleton.
    apply insert_key_iff, Hb.
  - intros n. rewrite lookup_insert_is_Some, elem_of_union, elem_of_singleton.
    apply insert_key_iff, Hf.
  - intros n buffer. destruct (decide (name = n)) as [-> | Hne].
    + rewrite lookup_insert_eq. intros [= <-]. simpl. lia.
    + rewrite lookup_insert_ne by done. apply Hlen.
Qed.

Lemma ensure_log_file_spec name env lm :
  consistent lm →
  match ensure_log_file name env lm with
  | None => _log_buffers lm !! name = None ∧ mkdir_ok env = false
  | Some lm1 =>
      consistent lm1
      ∧ (_log_buffers lm !! name = None → mkdir_ok env = true)
      ∧ name ∈ _log_locks lm1
      ∧ (∃ buffer, _log_buffers lm1 !! name = Some buffer)
      ∧ _log_files lm1 !! name
        = (if bool_decide (is_Some (_log_buffers lm !! name))
           then _log_files lm !! name else Some (created_path env))
  end.
Proof.
  intros Hc. unfold ensure_log_file.
  destruct (_log_buffers lm !! name) as [buffer|] eqn:Hbuf.
  - split; [done |]. split; [done |]. split.
    + destruct Hc as (Hb & _ & _). apply Hb. by rewrite Hbuf.
    + split; [by eexists |]. by rewrite bool_decide_eq_true_2.
  - pose proof (create_log_file_consistent name (mkdir_ok env) (created_path env) lm Hc)
      as Hc'.
    unfold create_log_file in *. destruct (mkdir_ok env); [| done].
    split; [exact Hc' |]. split; [done |]. simpl. split.
    + apply elem_of_union. left. by apply elem_of_singleton.
    + rewrite !lookup_insert_eq. split; [by eexists | done].
Qed.

Lemma write_to_file_consistent name env lm :
  consistent lm → consistent (_write_to_file name env lm).2.
Proof.
  intros Hc. unfold _write_to_file.
  destruct (_log_files lm !! name); [| done]. simpl.
  destruct (over_limit env); [| done]. unfold _rotate_log.
  destruct (renamed env); [| done]. by apply create_log_file_consistent.
Qed.

Lemma buffer_append_consistent name line buffer lm :
  consistent lm →
  _log_buffers lm !! name = Some buffer →
  consistent {| _log_buffers :=
                  <[name := Crash.deque_append _max_buffer_size line buffer]>
                    (_log_buffers lm);
                _log_files := _log_files lm;
                _log_locks := _log_locks lm |}.
Proof.
  intros (Hb & Hf & Hlen) Hbuf. split; [| split]; simpl.
  - intros n. rewrite lookup_insert_is_Some, <- Hb. split.
    + intros [<- | [_ Hn]]; [by rewrite Hbuf | done].
    + intros Hn. destruct (decide (name = n)); [by left | by right].
  - exact Hf.
  - intros n b. destruct (decide (name = n)) as [-> | Hne].
    + rewrite lookup_insert_eq. intros [= <-].
      apply deque_append_length. by eapply Hlen.
    + rewrite lookup_insert_ne by done. apply Hlen.
Qed.

Lemma write_log_consistent name message level env lm :
  consistent lm → consistent (write_log name message level env lm).2.
Proof.
  intros Hc. unfold write_log.
  pose proof (ensure_log_file_spec name env lm Hc) as He.
  destruct (ensure_log_file name env lm) as [lm1|]; [| done].
  destruct He as (Hc1 & _ & Hlock & [buffer Hbuf] & _). rewrite Hbuf.
  rewrite bool_decide_eq_true_2 by done.
  pose proof (buffer_append_consistent name
                (formatted_message (stamp env) level message) buffer lm1 Hc1 Hbuf) as Hc2.
  case_bool_decide; [| done]. by apply write_to_file_consistent.
Qed.

Lemma remove_process_logs_consistent name lm :
  consistent lm → consistent (remove_process_logs name lm).
Proof.
  intros (Hb & Hf & Hlen). split; [| split]; simpl.
  - intros n. rewrite lookup_delete_is_Some, elem_of_difference, elem_of_singleton.
    apply delete_key_iff, Hb.
  - intros n. rewrite lookup_delete_is_Some, elem_of_difference, elem_of_singleton.
    apply delete_key_iff, Hf.
  - intros n b Hn. apply lookup_delete_Some in Hn as [_ Hn]. by eapply Hlen.
Qed.

Lemma reachable_consistent calls : consistent (run calls Logs.init).
Proof.
  assert (H : ∀ lm, consistent lm → consistent (run calls lm)).
  { induction calls as [| c calls IH]; intros lm Hc; simpl; [done |].
    apply IH. destruct c as [name ok path | name message level env | name]; simpl.
    - by apply create_log_file_consistent.
    - by apply write_log_consistent.
    - by apply remove_process_logs_consistent. }
  apply H. split; [| split]; simpl.
  - intros n. rewrite lookup_empty. split; [by intros [? [=]] |].
    by intros ?%elem_of_empty.
  - intros n. rewrite lookup_empty. split; [by intros [? [=]] |].
    by intros ?%elem_of_empty.
  - intros n b. by rewrite lookup_empty.
Qed.

(** X24. In every state the log manager reaches through
    [create_log_file], [write_log] and [remove_process_logs], the buffers,
    the current files and the locks are kept for the same names and no
    buffer holds more than 1000 lines.  Hence [get_recent_logs] never
    raises, and [write_log] raises only when the process has no buffer yet
    and the directory of its log file cannot be created, in which case it
    leaves the manager as it was. *)
Theorem log_manager_stays_consistent calls :
  let lm := run calls Logs.init in
  dom (_log_buffers lm) = _log_locks lm
  ∧ dom (_log_files lm) = _log_locks lm
  ∧ (∀ name buffer, _log_buffers lm !! name = Some buffer → (length buffer ≤ 1000)%nat)
  ∧ (∀ name lines, is_Some (get_recent_logs name lines lm))
  ∧ (∀ name message level env,
       ((write_log name message level env lm).1 = Raised
        ↔ _log_buffers lm !! name = None ∧ mkdir_ok env = false)
       ∧ ((write_log name message level env lm).1 = Raised →
          (write_log name message level env lm).2 = lm)).
Proof.
  intros lm. pose proof (reachable_consistent calls) as Hc. fold lm in Hc.
  pose proof Hc as (Hb & Hf & Hlen).
  split; [| split; [| split; [| split]]].
  - apply set_eq. intros n. rewrite elem_of_dom. apply Hb.
  - apply set_eq. intros n. rewrite elem_of_dom. apply Hf.
  - exact Hlen.
  - intros name lines. unfold get_recent_logs.
    destruct (_log_buffers lm !! name) as [buffer|] eqn:Hbuf; [| by eexists].
    rewrite bool_decide_eq_true_2; [by eexists |]. apply Hb. by rewrite Hbuf.
  - intros name message level env. unfold write_log.
    pose proof (ensure_log_file_spec name env lm Hc) as He.
    destruct (ensure_log_file name env lm) as [lm1|]; [| done].
    destruct He as (Hc1 & Hok & Hlock & [buffer Hbuf] & Hfile). rewrite Hbuf.
    rewrite bool_decide_eq_true_2 by done.
    assert (Hnot : ∀ lm2, (_write_to_file name env lm2).1 ≠ Raised).
    { intros lm2. unfold _write_to_file.
      destruct (_log_files lm2 !! name); [| done]. simpl. by destruct (appended env). }
    assert (Hnever : ¬ (_log_buffers lm !! name = None ∧ mkdir_ok env = false)).
    { intros [Hnone Hfail]. rewrite (Hok Hnone) in Hfail. done. }
    match goal with
    | |- context [bool_decide (is_Some ?x)] => destruct (bool_decide (is_Some x))
    end.
    + split; [| by intros ?%Hnot]. split; [by intros ?%Hnot | by intros ?%Hnever].
    + simpl. split; [| done]. split; [done | by intros ?%Hnever].
Qed.

(** *** Writing and reading back *)

Lemma slice_from_end {A} (lines : Z) (buffer : list A) :
  0 < lines →
  lines < Z.of_nat (length buffer) →
  slice_from (- lines) buffer = drop (length buffer - Z.to_nat lines) buffer.
Proof.
  intros Hpos Hlt. unfold slice_from. rewrite bool_decide_eq_true_2 by lia.
  f_equal. lia.
Qed.

(** X25. In every state the log manager reaches, [get_recent_logs] with
    [lines >= 1] returns the newest [lines] lines of the buffer, or all of
    them when there are fewer; with [lines = 0] it returns the whole
    buffer, not the empty list; and with a negative [lines] it returns the
    buffer without its [-lines] oldest lines. *)
Theorem recent_logs_are_counted_from_the_end calls name buffer lines :
  let lm := run calls Logs.init in
  _log_buffers lm !! name = Some buffer →
  (1 ≤ lines →
     get_recent_logs name lines lm
     = Some (drop (length buffer - Z.to_nat lines) buffer)
     ∧ ∀ l, get_recent_logs name lines lm = Some l →
            length l = Nat.min (Z.to_nat lines) (length buffer))
  ∧ (lines = 0 → get_recent_logs name lines lm = Some buffer)
  ∧ (lines < 0 →
     get_recent_logs name lines lm = Some (drop (Z.to_nat (- lines)) buffer)).
Proof.
  intros lm Hbuf. pose proof (reachable_consistent calls) as (Hb & _ & _).
  fold lm in Hb.
  assert (Hlock : name ∈ _log_locks lm) by (apply Hb; by rewrite Hbuf).
  unfold get_recent_logs. rewrite Hbuf. rewrite bool_decide_eq_true_2 by done.
  split; [| split].
  - intros Hpos.
    assert (Heq : (if bool_decide (lines < Z.of_nat (length buffer))
                   then slice_from (- lines) buffer else buffer)
                  = drop (length buffer - Z.to_nat lines) buffer).
    { case_bool_decide as Hlt.
      - apply slice_from_end; lia.
      - replace (length buffer - Z.to_nat lines)%nat with 0%nat by lia. done. }
    rewrite Heq. split; [done |]. intros l [= <-]. rewrite length_drop. lia.
  - intros ->. by case_bool_decide.
  - intros Hneg. rewrite bool_decide_eq_true_2 by lia. unfold slice_from.
    by rewrite bool_decide_eq_false_2 by lia.
Qed.

Lemma recent_logs_are_counted_from_the_end_witness :
  let lm := run Examples.two_lines Logs.init in
  let buffer := ["[t1] [INFO] started"; "[t2] [INFO] listening"] in
  _log_buffers lm !! "svc" = Some buffer
  ∧ get_recent_logs "svc" 1 lm = Some ["[t2] [INFO] listening"]
  ∧ get_recent_logs "svc" 0 lm = Some buffer
  ∧ get_recent_logs "svc" (-1) lm = Some ["[t2] [INFO] listening"].
Proof.
  intros lm buffer.
  assert (Hbuf : _log_buffers lm !! "svc" = Some buffer) by (vm_compute; reflexivity).
  split; [exact Hbuf |].
  destruct (recent_logs_are_counted_from_the_end Examples.two_lines "svc" buffer 1 Hbuf)
    as ([H1 _] & _ & _); [lia |].
  destruct (recent_logs_are_counted_from_the_end Examples.two_lines "svc" buffer 0 Hbuf)
    as (_ & H0 & _).
  destruct (recent_logs_are_counted_from_the_end Examples.two_lines "svc" buffer (-1) Hbuf)
    as (_ & _ & Hm).
  split; [exact H1 |]. split; [exact (H0 eq_refl) |]. apply Hm. lia.
Defined.

Lemma write_log_buffered name message level env lm lm1 buffer path :
  ensure_log_file name env lm = Some lm1 →
  _log_buffers lm1 !! name = Some buffer →
  name ∈ _log_locks lm1 →
  _log_files lm1 !! name = Some path →
  let lm2 :=
    {| _log_buffers :=
         <[name := Crash.deque_append _max_buffer_size
                     (formatted_message (stamp env) level message) buffer]>
           (_log_buffers lm1);
       _log_files := _log_files lm1;
       _log_locks := _log_locks lm1 |} in
  write_log name message level env lm
  = (if appended env then Appended path else NotAppended,
     if over_limit env then _rotate_log name env lm2 else lm2).
Proof.
  intros Hens Hbuf Hlock Hpath lm2. unfold write_log. rewrite Hens, Hbuf.
  rewrite (bool_decide_eq_true_2 _ Hlock). fold lm2.
  assert (Hsome : is_Some (_log_files lm2 !! name)) by (simpl; by rewrite Hpath).
  rewrite (bool_decide_eq_true_2 _ Hsome).
  unfold _write_to_file. change (_log_files lm2) with (_log_files lm1).
  by rewrite Hpath.
Qed.

Lemma newest_line (line : string) (b : list string) :
  (if bool_decide (1 < Z.of_nat (length (Crash.deque_append 1000 line b)))
   then slice_from (- 1) (Crash.deque_append 1000 line b)
   else Crash.deque_append 1000 line b) = [line].
Proof.
  pose proof (deque_append_last 1000 line b ltac:(lia)) as Hl.
  destruct (Crash.deque_append 1000 line b) as [| x l] eqn:E; [done |].
  case_bool_decide as Hlen.
  - unfold slice_from. rewrite bool_decide_eq_true_2 by lia.
    rewrite last_lookup in Hl. simpl length in *.
    replace (Z.to_nat (Z.of_nat (S (length l)) + -1)) with (length l) by lia.
    simpl in Hl. apply list_eq. intros i. rewrite lookup_drop.
    destruct i as [| i]; simpl.
    + by rewrite Nat.add_0_r.
    + rewrite lookup_ge_None_2; [done |]. simpl. lia.
  - destruct l as [| y l]; [| simpl in Hlen; lia]. simpl in Hl. by injection Hl as ->.
Qed.

(** X26. In every state the log manager reaches, a [write_log] that
    does not raise appends the line, when the file can be written, to the
    path that was current when the call began (or that the call created),
    also when the call rotates the log.  Without a rotation that path stays
    the current one and the line is the newest of the buffer.
    With a rotation, which needs a file of more than 10 MiB, the buffer of
    the process is empty afterwards, so that it does not hold the line just
    written, and the current path is the one that the rotation names: it is
    the path that the line was written to exactly when the rotation names
    the path that was current before. *)
Theorem written_line_and_rotation calls name message level env :
  let lm := run calls Logs.init in
  let r := write_log name message level env lm in
  let line := formatted_message (stamp env) level message in
  (_log_buffers lm !! name = None → mkdir_ok env = true) →
  ∃ path,
    (if bool_decide (is_Some (_log_buffers lm !! name))
     then _log_files lm !! name else Some (created_path env)) = Some path
    ∧ r.1 = (if appended env then Appended path else NotAppended)
    ∧ (rotates env →
       get_log_file_path name r.2 = Some (rotated_path env)
       ∧ (get_log_file_path name r.2 = Some path ↔ rotated_path env = path)
       ∧ ∀ lines, get_recent_logs name lines r.2 = Some [])
    ∧ (¬ rotates env →
       get_log_file_path name r.2 = Some path
       ∧ get_recent_logs name 1 r.2 = Some [line])
    ∧ (rotates env → ∃ sz, size env = Some sz ∧ 10485760 < sz).
Proof.
  intros lm r line Hok. pose proof (reachable_consistent calls) as Hc. fold lm in Hc.
  pose proof (ensure_log_file_spec name env lm Hc) as He.
  destruct (ensure_log_file name env lm) as [lm1|] eqn:Hens.
  2:{ destruct He as [Hnone Hfail]. rewrite (Hok Hnone) in Hfail. done. }
  destruct He as (Hc1 & _ & Hlock & [buffer Hbuf] & Hfile).
  assert (Hpath : is_Some (_log_files lm1 !! name)) by by apply Hc1.
  destruct Hpath as [path Hpath].
  exists path. split; [by rewrite <- Hfile |].
  unfold r.
  rewrite (write_log_buffered name message level env lm lm1 buffer path
             Hens Hbuf Hlock Hpath).
  fold line. cbn [fst snd]. split; [done |].
  split; [| split].
  - intros (Hover & Hren & Hmk). rewrite Hover. unfold _rotate_log, create_log_file.
    rewrite Hren, Hmk. unfold get_log_file_path, get_recent_logs. simpl.
    rewrite !lookup_insert_eq. split; [done |].
    split; [split; [by intros [= ->] | by intros ->] |]. intros lines.
    rewrite bool_decide_eq_true_2
      by (apply elem_of_union; left; by apply elem_of_singleton).
    f_equal. destruct (bool_decide (lines < _)); [| done].
    unfold slice_from. destruct (bool_decide (- lines < 0)); apply drop_nil.
  - intros Hno.
    assert (Hsame : ∀ lm2, (if over_limit env then _rotate_log name env lm2 else lm2)
                           = lm2).
    { intros lm2. destruct (over_limit env) eqn:Hover; [| done].
      unfold _rotate_log, create_log_file.
      destruct (renamed env) eqn:Hren; [| done].
      destruct (rotate_mkdir_ok env) eqn:Hmk; [| done].
      destruct Hno. by repeat split. }
    rewrite Hsame. unfold get_log_file_path, get_recent_logs. simpl.
    rewrite lookup_insert_eq. split; [done |].
    rewrite (bool_decide_eq_true_2 _ Hlock). f_equal. apply newest_line.
  - intros (Hover & _ & _). unfold over_limit in Hover.
    destruct (size env) as [sz|]; [| done]. exists sz. split; [done |].
    apply bool_decide_eq_true in Hover. unfold _log_rotation_size in Hover. lia.
Qed.

Lemma written_line_and_rotation_witness :
  let lm := run Examples.two_lines Logs.init in
  let env := Examples.write_env "t3" 10485761 in
  let r := write_log "svc" "ready" "INFO" env lm in
  (_log_buffers lm !! "svc" = None → mkdir_ok env = true)
  ∧ rotates env
  ∧ r.1 = Appended "/var/log/processguard/svc/svc_1.log"
  ∧ get_log_file_path "svc" r.2 = Some "/var/log/processguard/svc/svc_2.log"
  ∧ get_recent_logs "svc" 100 r.2 = Some [].
Proof.
  intros lm env r.
  assert (Hok : _log_buffers lm !! "svc" = None → mkdir_ok env = true) by done.
  assert (Hrot : rotates env) by (vm_compute; done).
  split; [exact Hok |]. split; [exact Hrot |].
  destruct (written_line_and_rotation Examples.two_lines "svc" "ready" "INFO" env Hok)
    as (path & Hpath & Hr & Hyes & _).
  destruct (Hyes Hrot) as (Hfile & _ & Hrecent).
  split.
  - etrans; [exact Hr |]. vm_compute in Hpath. injection Hpath as <-. done.
  - split; [exact Hfile | exact (Hrecent 100)].
Defined.
End LogOperations.

